(** * minicom chat core: merge engine, liveness tracker, inbox patch,
      typing controller and optimistic send, embedded from the TypeScript
      sources and checked against the specification.

    Conventions of the embedding.
    - A JavaScript string is the list of its UTF-16 code units ([list N]);
      [lit] turns an ASCII literal into one.  [String.prototype.trim] strips
      the ECMAScript WhiteSpace and LineTerminator code units.
    - A JavaScript number that holds a millisecond timestamp, a sequence
      number or a counter is an integer ([Z]); the sources only add,
      subtract and compare them.
    - Truthiness is written out: [!s] on a string is "null or empty",
      [!n] on a number is "null or zero".
    - [Array.prototype.sort] is the stable sort of ECMAScript 2019; on a
      consistent comparator every stable sort returns the same array, so it
      is embedded as a stable insertion sort.
    - [String.prototype.localeCompare] depends on the host's collation and is
      a parameter of the definitions that call it. *)

From Stdlib Require Import ZArith NArith List Bool Lia Sorted Permutation.
From stdpp Require Import base gmap list strings.
Import ListNotations.

Local Open Scope Z_scope.

(* ===================================================================== *)
(** ** JavaScript values *)
(* ===================================================================== *)

Module Js.

Abbreviation jsstring := (list N).

Definition lit (s : string) : jsstring :=
  List.map (fun a => Ascii.N_of_ascii a) (String.list_ascii_of_string s).

(** WhiteSpace and LineTerminator of ECMA-262, as UTF-16 code units. *)
Definition isWhiteSpace (c : N) : bool :=
  ((9 <=? c) && (c <=? 13) || (c =? 32) || (c =? 160) || (c =? 5760)
   || (8192 <=? c) && (c <=? 8202) || (c =? 8232) || (c =? 8233)
   || (c =? 8239) || (c =? 8287) || (c =? 12288) || (c =? 65279))%N.

Fixpoint trimStart (s : jsstring) : jsstring :=
  match s with
  | c :: rest => if isWhiteSpace c then trimStart rest else s
  | [] => []
  end.

Definition trimEnd (s : jsstring) : jsstring := rev (trimStart (rev s)).

Definition trim (s : jsstring) : jsstring := trimEnd (trimStart s).

(** [Boolean(s)] for a string. *)
Definition truthy (s : jsstring) : bool :=
  match s with [] => false | _ :: _ => true end.

(** [Boolean(s)] for a [string | null]. *)
Definition truthyOpt (s : option jsstring) : bool :=
  match s with Some v => truthy v | None => false end.

(** [Boolean(n)] for a [number | null] holding an integer. *)
Definition truthyNum (n : option Z) : bool :=
  match n with Some v => negb (v =? 0) | None => false end.

(** [a || b] on strings. *)
Definition orElse (a b : jsstring) : jsstring := if truthy a then a else b.

(** Code-unit order, the comparison of [<] on strings; used as a concrete
    collation where one is needed. *)
Fixpoint codeUnitCompare (a b : jsstring) : Z :=
  match a, b with
  | [], [] => 0
  | [], _ :: _ => -1
  | _ :: _, [] => 1
  | x :: a', y :: b' =>
      match (x ?= y)%N with
      | Lt => -1
      | Gt => 1
      | Eq => codeUnitCompare a' b'
      end
  end.

(** A [Map] keeps its keys in insertion order; setting a present key
    replaces the value in place. *)
Section OrderedMap.
Context {V : Type}.

Fixpoint mapGet (k : jsstring) (m : list (jsstring * V)) : option V :=
  match m with
  | [] => None
  | (k', v) :: rest => if decide (k' = k) then Some v else mapGet k rest
  end.

Fixpoint mapSet (k : jsstring) (v : V) (m : list (jsstring * V))
    : list (jsstring * V) :=
  match m with
  | [] => [(k, v)]
  | (k', v') :: rest =>
      if decide (k' = k) then (k, v) :: rest else (k', v') :: mapSet k v rest
  end.

Definition mapValues (m : list (jsstring * V)) : list V := List.map snd m.
Definition mapKeys (m : list (jsstring * V)) : list jsstring := List.map fst m.
End OrderedMap.

(** [Array.prototype.sort(cmp)]: stable; [cmp a b <= 0] keeps [a] first. *)
Section ArraySort.
Context {A : Type} (cmp : A -> A -> Z).

Fixpoint sortInsert (x : A) (l : list A) : list A :=
  match l with
  | [] => [x]
  | y :: rest => if cmp x y <=? 0 then x :: y :: rest else y :: sortInsert x rest
  end.

Fixpoint arraySort (l : list A) : list A :=
  match l with
  | [] => []
  | x :: rest => sortInsert x (arraySort rest)
  end.

(** The order a comparator stands for: [a] may come before [b]. *)
Definition cmpLe (a b : A) : Prop := cmp a b <= 0.
End ArraySort.

End Js.

Import Js.

(* ===================================================================== *)
(** ** types.ts *)
(* ===================================================================== *)

Inductive ParticipantRole := Visitor | Agent.
Inductive DeliveryState := Sending | Sent | Failed.
Inductive ThreadStatus := Open | Closed.
Inductive RealtimeChannelStatus :=
CLOSED | CHANNEL_ERROR | TIMED_OUT | JOINING | SUBSCRIBED.

#[global] Instance DeliveryState_eq_dec : EqDecision DeliveryState.
Proof. solve_decision. Defined.
#[global] Instance RealtimeChannelStatus_eq_dec : EqDecision RealtimeChannelStatus.
Proof. solve_decision. Defined.
#[global] Instance ParticipantRole_eq_dec : EqDecision ParticipantRole.
Proof. solve_decision. Defined.

Module Message.
Record t := mk {
  id : jsstring;
  clientId : jsstring;
  threadId : jsstring;
  senderId : jsstring;
  senderRole : ParticipantRole;
  body : jsstring;
  createdAt : Z;
  seq : Z;
  deliveryState : DeliveryState;
}.
End Message.

#[global] Instance Message_eq_dec : EqDecision Message.t.
Proof. solve_decision. Defined.

Module Thread.
Record t := mk {
  id : jsstring;
  status : ThreadStatus;
  createdAt : Z;
  updatedAt : Z;
}.
End Thread.

Module InboxThread.
Record t := mk {
  thread : Thread.t;
  unreadCount : Z;
  lastMessage : option Message.t;
}.
End InboxThread.

(* ===================================================================== *)
(** ** utils/messages.ts *)
(* ===================================================================== *)

Module Messages.

Definition stableClientKey (message : Message.t) : jsstring :=
  let clientId := orElse (trim (Message.clientId message)) (Message.id message) in
  Message.threadId message ++ lit ":" ++ clientId.

(** [{ ...existing, ...incoming }]: every field of a [Message] is required,
    so each one is overwritten by [incoming]'s. *)
Definition spread (existing incoming : Message.t) : Message.t :=
  {| Message.id := Message.id incoming;
     Message.clientId := Message.clientId incoming;
     Message.threadId := Message.threadId incoming;
     Message.senderId := Message.senderId incoming;
     Message.senderRole := Message.senderRole incoming;
     Message.body := Message.body incoming;
     Message.createdAt := Message.createdAt incoming;
     Message.seq := Message.seq incoming;
     Message.deliveryState := Message.deliveryState incoming |}.

Definition isSent (m : Message.t) : bool :=
  bool_decide (Message.deliveryState m = Sent).

Definition mergeMessageState (existing incoming : Message.t) : Message.t :=
  if isSent existing && negb (isSent incoming) then existing
  else if isSent incoming && negb (isSent existing) then spread existing incoming
  else spread existing incoming.

(** The body of the inner [set.forEach]. *)
Definition foldMessage (byClientKey : list (jsstring * Message.t))
    (message : Message.t) : list (jsstring * Message.t) :=
  let key := stableClientKey message in
  match mapGet key byClientKey with
  | None => mapSet key message byClientKey
  | Some existing => mapSet key (mergeMessageState existing message) byClientKey
  end.

(** The body of the outer [sets.forEach]; [None] is an [undefined] set. *)
Definition foldSet (byClientKey : list (jsstring * Message.t))
    (set : option (list Message.t)) : list (jsstring * Message.t) :=
  match set with
  | None => byClientKey
  | Some messages => fold_left foldMessage messages byClientKey
  end.

Definition foldSets (sets : list (option (list Message.t)))
    : list (jsstring * Message.t) :=
  fold_left foldSet sets [].

Section WithCollation.
Variable localeCompare : jsstring -> jsstring -> Z.

Definition compareMessages (left right : Message.t) : Z :=
  if negb (Message.createdAt left =? Message.createdAt right) then
    Message.createdAt left - Message.createdAt right
  else if negb (Message.seq left =? Message.seq right) then
    Message.seq left - Message.seq right
  else localeCompare (Message.id left) (Message.id right).

Definition sortMessages (messages : list Message.t) : list Message.t :=
  arraySort compareMessages messages.

Definition mergeMessages (sets : list (option (list Message.t)))
    : list Message.t :=
  sortMessages (mapValues (foldSets sets)).
End WithCollation.

(** The messages of the specification's scenarios, completed with the
    defaults of the repository's test helper. *)
Definition testMessage (id clientId : string) (createdAt seq : Z)
    (state : DeliveryState) : Message.t :=
  {| Message.id := lit id;
     Message.clientId := lit clientId;
     Message.threadId := lit "thread-1";
     Message.senderId := lit "visitor-1";
     Message.senderRole := Visitor;
     Message.body := lit "message";
     Message.createdAt := createdAt;
     Message.seq := seq;
     Message.deliveryState := state |}.

(** The order the specification gives for the output: [createdAt] first,
    then [seq], then [id] under the collation. *)
Definition tupleLe (localeCompare : jsstring -> jsstring -> Z)
    (a b : Message.t) : Prop :=
  Message.createdAt a < Message.createdAt b
  \/ (Message.createdAt a = Message.createdAt b
      /\ (Message.seq a < Message.seq b
          \/ (Message.seq a = Message.seq b
              /\ localeCompare (Message.id a) (Message.id b) <= 0))).

(** The messages of a call in the order the two [forEach] loops visit them. *)
Definition visited (sets : list (option (list Message.t))) : list Message.t :=
  concat (List.map (default []) sets).

(** One argument list is the other with its sets permuted and the messages
    inside each set permuted; an [undefined] set stays [undefined]. *)
Definition sameSet (a b : option (list Message.t)) : Prop :=
  match a, b with
  | Some x, Some y => Permutation x y
  | None, None => True
  | _, _ => False
  end.

Definition reordered (sets1 sets2 : list (option (list Message.t))) : Prop :=
  exists sets', Forall2 sameSet sets1 sets' /\ Permutation sets' sets2.

(** Every entry of the fold is stored under its own identity key, and no key
    occurs twice. *)
Definition keyedByIdentity (m : list (jsstring * Message.t)) : Prop :=
  Forall (fun e => stableClientKey (snd e) = fst e) m /\ NoDup (mapKeys m).

End Messages.

(** *** What the fold keeps under a key *)
Module MergeWinner.

(** The message the two loops leave under [key] after visiting [l]: the last
    "sent" message of that key, or, when no message of that key is "sent",
    the last message of that key. *)
Definition winner (key : jsstring) (l : list Message.t) : option Message.t :=
  let ofKey :=
    List.filter (fun m => bool_decide (Messages.stableClientKey m = key)) l in
  match last (List.filter Messages.isSent ofKey) with
  | Some m => Some m
  | None => last ofKey
  end.

(** [a] can be left under its key by some order of visiting [l]: it is
    "sent", or no message of [l] with its key is. *)
Definition contender (l : list Message.t) (a : Message.t) : bool :=
  Messages.isSent a
  || forallb (fun c =>
                negb (bool_decide (Messages.stableClientKey c = Messages.stableClientKey a)
                      && Messages.isSent c)) l.

(** The contenders of each key are one and the same message. *)
Definition unambiguous (l : list Message.t) : Prop :=
  forall a b, In a l -> In b l ->
    Messages.stableClientKey a = Messages.stableClientKey b ->
    contender l a = true -> contender l b = true -> a = b.

(** No two different contenders tie in the order (createdAt, seq, id). *)
Definition tieFree (localeCompare : jsstring -> jsstring -> Z)
    (l : list Message.t) : Prop :=
  forall a b, In a l -> In b l -> contender l a = true -> contender l b = true ->
    Messages.tupleLe localeCompare a b -> Messages.tupleLe localeCompare b a -> a = b.

(** Strictly earlier in the order (createdAt, seq, id). *)
Definition tupleLt (localeCompare : jsstring -> jsstring -> Z)
    (a b : Message.t) : Prop :=
  Messages.tupleLe localeCompare a b /\ ~ Messages.tupleLe localeCompare b a.

End MergeWinner.

(* ===================================================================== *)
(** ** liveness.ts *)
(* ===================================================================== *)

Module Liveness.

Definition HEARTBEAT_INTERVAL_MS : Z := 8000.
Definition HEARTBEAT_TTL_MS : Z := 20000.

(** The variables captured by the closures of [createLivenessApi]. *)
Record t := mk {
  threadId : jsstring;
  online : bool;
  channelStatus : RealtimeChannelStatus;
  latestHeartbeatAt : option Z;
  participantHeartbeats : gmap jsstring Z;
}.

Definition createLivenessApi (threadId : jsstring) : t :=
  {| threadId := threadId;
     online := true;
     channelStatus := CLOSED;
     latestHeartbeatAt := None;
     participantHeartbeats := ∅ |}.

(** [if (!value) return false]: [null] and [0] are both falsy. *)
Definition isFresh (value : option Z) (now : Z) : bool :=
  if negb (truthyNum value) then false
  else now - default 0 value <=? HEARTBEAT_TTL_MS.

Definition setOnline (value : bool) (s : t) : t :=
  {| threadId := threadId s;
     online := value;
     channelStatus := channelStatus s;
     latestHeartbeatAt := latestHeartbeatAt s;
     participantHeartbeats := participantHeartbeats s |}.

Definition setChannelStatus (status : RealtimeChannelStatus) (s : t) : t :=
  {| threadId := threadId s;
     online := online s;
     channelStatus := status;
     latestHeartbeatAt := latestHeartbeatAt s;
     participantHeartbeats := participantHeartbeats s |}.

Definition upsertHeartbeat (participantId : jsstring) (at_ : Z) (s : t) : t :=
  let current := default 0 (participantHeartbeats s !! participantId) in
  if at_ <? current then s
  else
    {| threadId := threadId s;
       online := online s;
       channelStatus := channelStatus s;
       latestHeartbeatAt := Some (Z.max (default 0 (latestHeartbeatAt s)) at_);
       participantHeartbeats := <[participantId := at_]> (participantHeartbeats s) |}.

Definition removeParticipant (participantId : jsstring) (s : t) : t :=
  if negb (bool_decide (is_Some (participantHeartbeats s !! participantId))) then s
  else
    {| threadId := threadId s;
       online := online s;
       channelStatus := channelStatus s;
       latestHeartbeatAt := latestHeartbeatAt s;
       participantHeartbeats := delete participantId (participantHeartbeats s) |}.

Definition isServiceLive (now : Z) (s : t) : bool :=
  online s && bool_decide (channelStatus s = SUBSCRIBED)
  && isFresh (latestHeartbeatAt s) now.

Definition isParticipantLive (participantId : jsstring) (now : Z) (s : t) : bool :=
  isFresh (participantHeartbeats s !! participantId) now.

(** The mutating operations of [LivenessApi]. *)
Inductive Op :=
| SetOnline (value : bool)
| SetChannelStatus (status : RealtimeChannelStatus)
| UpsertHeartbeat (participantId : jsstring) (at_ : Z)
| RemoveParticipant (participantId : jsstring).

Definition step (s : t) (op : Op) : t :=
  match op with
  | SetOnline v => setOnline v s
  | SetChannelStatus c => setChannelStatus c s
  | UpsertHeartbeat p a => upsertHeartbeat p a s
  | RemoveParticipant p => removeParticipant p s
  end.

Definition run (ops : list Op) (s : t) : t := fold_left step ops s.

(** [null] precedes every timestamp. *)
Definition heartbeatLe (a b : option Z) : Prop :=
  match a, b with
  | None, _ => True
  | Some _, None => False
  | Some x, Some y => x <= y
  end.

(** The condition the specification gives for [isServiceLive(now)]. *)
Definition specServiceLive (now : Z) (s : t) : Prop :=
  online s = true /\ channelStatus s = SUBSCRIBED
  /\ exists heartbeat, latestHeartbeatAt s = Some heartbeat
                       /\ now - heartbeat <= HEARTBEAT_TTL_MS.

(** A fresh tracker whose channel is subscribed and that saw one heartbeat. *)
Definition afterSingleHeartbeat (threadId participantId : jsstring) (at_ : Z) : t :=
  upsertHeartbeat participantId at_
    (setChannelStatus SUBSCRIBED (createLivenessApi threadId)).

End Liveness.

(* ===================================================================== *)
(** ** utils/inbox.ts *)
(* ===================================================================== *)

Module Inbox.

Record ApplyMessageToInboxOptions := mkOptions {
  agentId : jsstring;
  activeThreadId : option jsstring;
}.

Record ApplyMessageToInboxResult := mkResult {
  items : list InboxThread.t;
  insertedUnknownThread : bool;
}.

Definition sortInboxThreadComparator (left right : InboxThread.t) : Z :=
  let unreadDelta := InboxThread.unreadCount right - InboxThread.unreadCount left in
  if negb (unreadDelta =? 0) then unreadDelta
  else Thread.updatedAt (InboxThread.thread right)
       - Thread.updatedAt (InboxThread.thread left).

Definition placeholderThread (threadId : jsstring) (createdAt : Z) : Thread.t :=
  {| Thread.id := threadId;
     Thread.status := Open;
     Thread.createdAt := createdAt;
     Thread.updatedAt := createdAt |}.

Definition sortInboxThreads (items : list InboxThread.t) : list InboxThread.t :=
  arraySort sortInboxThreadComparator items.

(** [Array.prototype.findIndex]; [None] is the source's [-1]. *)
Fixpoint findIndex {A : Type} (p : A -> bool) (l : list A) : option nat :=
  match l with
  | [] => None
  | x :: rest => if p x then Some 0%nat else S <$> findIndex p rest
  end.

Definition isThreadOf (message : Message.t) (item : InboxThread.t) : bool :=
  bool_decide (Thread.id (InboxThread.thread item) = Message.threadId message).

Definition nextUnreadCount (existing : InboxThread.t) (message : Message.t)
    (options : ApplyMessageToInboxOptions) : Z :=
  if bool_decide (Message.senderId message = agentId options) then
    InboxThread.unreadCount existing
  else if bool_decide (Some (Message.threadId message) = activeThreadId options) then 0
  else InboxThread.unreadCount existing + 1.

(** The entry written at [nextItems[threadIndex]]. *)
Definition patched (existing : InboxThread.t) (message : Message.t)
    (options : ApplyMessageToInboxOptions) : InboxThread.t :=
  {| InboxThread.thread :=
       {| Thread.id := Thread.id (InboxThread.thread existing);
          Thread.status := Thread.status (InboxThread.thread existing);
          Thread.createdAt := Thread.createdAt (InboxThread.thread existing);
          Thread.updatedAt :=
            Z.max (Thread.updatedAt (InboxThread.thread existing))
                  (Message.createdAt message) |};
     InboxThread.unreadCount := nextUnreadCount existing message options;
     InboxThread.lastMessage := Some message |}.

Definition applyMessageToInbox (current : option (list InboxThread.t))
    (message : Message.t) (options : ApplyMessageToInboxOptions)
    : ApplyMessageToInboxResult :=
  let nextItems := default [] current in
  match findIndex (isThreadOf message) nextItems with
  | None =>
      let unreadCount :=
        if bool_decide (Message.senderId message = agentId options)
           || bool_decide (Some (Message.threadId message) = activeThreadId options)
        then 0 else 1 in
      {| items :=
           sortInboxThreads
             (nextItems ++
              [ {| InboxThread.thread :=
                     placeholderThread (Message.threadId message)
                                       (Message.createdAt message);
                   InboxThread.unreadCount := unreadCount;
                   InboxThread.lastMessage := Some message |} ]);
         insertedUnknownThread := true |}
  | Some threadIndex =>
      match nextItems !! threadIndex with
      | None =>
          {| items := sortInboxThreads nextItems; insertedUnknownThread := false |}
      | Some existing =>
          {| items :=
               sortInboxThreads
                 (<[threadIndex := patched existing message options]> nextItems);
             insertedUnknownThread := false |}
      end
  end.

(** An inbox entry as the repository's tests build it. *)
Definition inboxItem (threadId : string) (unreadCount updatedAt : Z) : InboxThread.t :=
  {| InboxThread.thread :=
       {| Thread.id := lit threadId;
          Thread.status := Open;
          Thread.createdAt := updatedAt;
          Thread.updatedAt := updatedAt |};
     InboxThread.unreadCount := unreadCount;
     InboxThread.lastMessage := None |}.

End Inbox.

(* ===================================================================== *)
(** ** hooks/typingController.ts *)
(* ===================================================================== *)

Module TypingPayload.
Record t := mk {
  threadId : jsstring;
  participantId : jsstring;
  isTyping : bool;
  at_ : Z;
}.
End TypingPayload.

Module Typing.

Definition TYPING_DEBOUNCE_MS : Z := 300.
Definition TYPING_IDLE_MS : Z := 3000.
Definition TYPING_REFRESH_MS : Z := 1200.

(** The three callbacks the controller hands to [setTimeout]/[setInterval]. *)
Inductive Callback := OnDebounce | OnIdle | OnRefresh.

(** A pending host timer: [every] is the period of a [setInterval]. *)
Record Timer := mkTimer {
  handle : positive;
  due : Z;
  callback : Callback;
  every : option Z;
}.

(** The closure variables of [createTypingController], followed by the host
    state they act on: the clock read by [Date.now()], the pending timers,
    the next timer handle, and the payloads passed to [options.publish]. *)
Record t := mk {
  currentThreadId : option jsstring;
  currentParticipantId : jsstring;
  currentCanEmit : bool;
  isTyping : bool;
  lastActivityAt : option Z;
  debounceTimer : option positive;
  idleTimer : option positive;
  refreshTimer : option positive;
  now : Z;
  nextHandle : positive;
  timers : list Timer;
  published : list TypingPayload.t;
}.

Definition setCurrentThreadId (v : option jsstring) (s : t) : t :=
  mk v (currentParticipantId s) (currentCanEmit s) (isTyping s) (lastActivityAt s)
     (debounceTimer s) (idleTimer s) (refreshTimer s)
     (now s) (nextHandle s) (timers s) (published s).

Definition setCurrentParticipantId (v : jsstring) (s : t) : t :=
  mk (currentThreadId s) v (currentCanEmit s) (isTyping s) (lastActivityAt s)
     (debounceTimer s) (idleTimer s) (refreshTimer s)
     (now s) (nextHandle s) (timers s) (published s).

Definition setCurrentCanEmit (v : bool) (s : t) : t :=
  mk (currentThreadId s) (currentParticipantId s) v (isTyping s) (lastActivityAt s)
     (debounceTimer s) (idleTimer s) (refreshTimer s)
     (now s) (nextHandle s) (timers s) (published s).

Definition setIsTyping (v : bool) (s : t) : t :=
  mk (currentThreadId s) (currentParticipantId s) (currentCanEmit s) v
     (lastActivityAt s) (debounceTimer s) (idleTimer s) (refreshTimer s)
     (now s) (nextHandle s) (timers s) (published s).

Definition setLastActivityAt (v : option Z) (s : t) : t :=
  mk (currentThreadId s) (currentParticipantId s) (currentCanEmit s) (isTyping s) v
     (debounceTimer s) (idleTimer s) (refreshTimer s)
     (now s) (nextHandle s) (timers s) (published s).

Definition setDebounceTimer (v : option positive) (s : t) : t :=
  mk (currentThreadId s) (currentParticipantId s) (currentCanEmit s) (isTyping s)
     (lastActivityAt s) v (idleTimer s) (refreshTimer s)
     (now s) (nextHandle s) (timers s) (published s).

Definition setIdleTimer (v : option positive) (s : t) : t :=
  mk (currentThreadId s) (currentParticipantId s) (currentCanEmit s) (isTyping s)
     (lastActivityAt s) (debounceTimer s) v (refreshTimer s)
     (now s) (nextHandle s) (timers s) (published s).

Definition setRefreshTimer (v : option positive) (s : t) : t :=
  mk (currentThreadId s) (currentParticipantId s) (currentCanEmit s) (isTyping s)
     (lastActivityAt s) (debounceTimer s) (idleTimer s) v
     (now s) (nextHandle s) (timers s) (published s).

Definition setNow (v : Z) (s : t) : t :=
  mk (currentThreadId s) (currentParticipantId s) (currentCanEmit s) (isTyping s)
     (lastActivityAt s) (debounceTimer s) (idleTimer s) (refreshTimer s)
     v (nextHandle s) (timers s) (published s).

Definition setTimers (v : list Timer) (s : t) : t :=
  mk (currentThreadId s) (currentParticipantId s) (currentCanEmit s) (isTyping s)
     (lastActivityAt s) (debounceTimer s) (idleTimer s) (refreshTimer s)
     (now s) (nextHandle s) v (published s).

(** [options.publish(payload)]: the payload is appended to the log. *)
Definition publish (payload : TypingPayload.t) (s : t) : t :=
  mk (currentThreadId s) (currentParticipantId s) (currentCanEmit s) (isTyping s)
     (lastActivityAt s) (debounceTimer s) (idleTimer s) (refreshTimer s)
     (now s) (nextHandle s) (timers s) (published s ++ [payload]).

(** [setTimeout(cb, delay)] ([every = None]) and [setInterval(cb, delay)]
    ([every = Some delay]); the handle returned is the old [nextHandle]. *)
Definition addTimer (cb : Callback) (delay : Z) (every : option Z) (s : t) : t :=
  mk (currentThreadId s) (currentParticipantId s) (currentCanEmit s) (isTyping s)
     (lastActivityAt s) (debounceTimer s) (idleTimer s) (refreshTimer s)
     (now s) (Pos.succ (nextHandle s))
     (timers s ++ [mkTimer (nextHandle s) (now s + delay) cb every])
     (published s).

(** [clearTimeout(h)] / [clearInterval(h)]. *)
Definition clearTimer (h : positive) (s : t) : t :=
  setTimers (List.filter (fun tm => negb (handle tm =? h)%positive) (timers s)) s.

Definition clearDebounce (s : t) : t :=
  match debounceTimer s with
  | Some h => setDebounceTimer None (clearTimer h s)
  | None => s
  end.

Definition clearIdle (s : t) : t :=
  match idleTimer s with
  | Some h => setIdleTimer None (clearTimer h s)
  | None => s
  end.

Definition clearRefresh (s : t) : t :=
  match refreshTimer s with
  | Some h => setRefreshTimer None (clearTimer h s)
  | None => s
  end.

Definition emit (typing force : bool) (s : t) : t :=
  if negb (truthyOpt (currentThreadId s)) then s
  else if negb force && negb (currentCanEmit s) then s
  else if Bool.eqb (isTyping s) typing && negb typing then s
  else
    publish {| TypingPayload.threadId := default [] (currentThreadId s);
               TypingPayload.participantId := currentParticipantId s;
               TypingPayload.isTyping := typing;
               TypingPayload.at_ := now s |}
            (setIsTyping typing s).

Definition forceStop (s : t) : t :=
  emit false true (setLastActivityAt None (clearRefresh (clearIdle (clearDebounce s)))).

Definition scheduleIdleStop (s : t) : t :=
  let s1 := clearIdle s in
  setIdleTimer (Some (nextHandle s1)) (addTimer OnIdle TYPING_IDLE_MS None s1).

Definition ensureRefreshTicker (s : t) : t :=
  match refreshTimer s with
  | Some _ => s
  | None =>
      setRefreshTimer (Some (nextHandle s))
        (addTimer OnRefresh TYPING_REFRESH_MS (Some TYPING_REFRESH_MS) s)
  end.

(** The callback of the refresh interval. *)
Definition refreshTick (s : t) : t :=
  if negb (truthyNum (lastActivityAt s)) then s
  else if TYPING_IDLE_MS <=? now s - default 0 (lastActivityAt s) then forceStop s
  else emit true false s.

Definition onInputChange (value : jsstring) (s : t) : t :=
  let trimmed := trim value in
  if negb (truthy trimmed) then forceStop s
  else
    let s1 := setLastActivityAt (Some (now s)) s in
    let s2 := scheduleIdleStop s1 in
    let s3 := clearDebounce s2 in
    if negb (currentCanEmit s3) then s3
    else
      setDebounceTimer (Some (nextHandle s3))
        (addTimer OnDebounce TYPING_DEBOUNCE_MS None s3).

Definition setCanEmit (canEmit : bool) (s : t) : t :=
  let changed := negb (Bool.eqb (currentCanEmit s) canEmit) in
  let s1 := setCurrentCanEmit canEmit s in
  if changed && negb canEmit then forceStop s1 else s1.

Definition setThreadId (threadId : option jsstring) (s : t) : t :=
  let s1 := setCurrentThreadId threadId s in
  if negb (truthyOpt (currentThreadId s1)) then forceStop s1 else s1.

Definition setParticipantId (participantId : jsstring) (s : t) : t :=
  setCurrentParticipantId participantId s.

Definition destroy (s : t) : t := forceStop s.

(** [createTypingController(options)] on a host whose clock reads [clock]. *)
Definition createTypingController (threadId : option jsstring)
    (participantId : jsstring) (canEmit : bool) (clock : Z) : t :=
  {| currentThreadId := threadId;
     currentParticipantId := participantId;
     currentCanEmit := canEmit;
     isTyping := false;
     lastActivityAt := None;
     debounceTimer := None;
     idleTimer := None;
     refreshTimer := None;
     now := clock;
     nextHandle := 1%positive;
     timers := [];
     published := [] |}.

(** *** The host's timer queue.  Timers run in order of due time, and of
    creation among timers due together; an interval is re-armed one period
    later before its callback runs; the clock reads the due time while a
    callback runs. *)

Definition runCallback (cb : Callback) (s : t) : t :=
  match cb with
  | OnDebounce => ensureRefreshTicker (emit true false s)
  | OnIdle => forceStop s
  | OnRefresh => refreshTick s
  end.

Definition earlier (a b : Timer) : bool :=
  (due a <? due b) || ((due a =? due b) && (handle a <? handle b)%positive).

Fixpoint nextTimer (l : list Timer) : option Timer :=
  match l with
  | [] => None
  | tm :: rest =>
      match nextTimer rest with
      | None => Some tm
      | Some m => if earlier m tm then Some m else Some tm
      end
  end.

Definition rearm (tm : Timer) (period : Z) (l : list Timer) : list Timer :=
  List.map (fun x => if (handle x =? handle tm)%positive
                     then mkTimer (handle x) (due x + period) (callback x) (every x)
                     else x) l.

Definition fire (tm : Timer) (s : t) : t :=
  let s1 := setNow (Z.max (now s) (due tm)) s in
  let s2 := match every tm with
            | None => clearTimer (handle tm) s1
            | Some period => setTimers (rearm tm period (timers s1)) s1
            end in
  runCallback (callback tm) s2.

(** Let the clock reach [target], running every timer due by then.  [None]
    when [fuel] callbacks were not enough. *)
Fixpoint runTimers (fuel : nat) (target : Z) (s : t) : option t :=
  match nextTimer (timers s) with
  | None => Some (setNow (Z.max (now s) target) s)
  | Some tm =>
      if due tm <=? target then
        match fuel with
        | O => None
        | S fuel' => runTimers fuel' target (fire tm s)
        end
      else Some (setNow (Z.max (now s) target) s)
  end.

(** The payload published when typing starts or stops at clock [at_]. *)
Definition payloadOf (s : t) (typing : bool) (at_ : Z) : TypingPayload.t :=
  {| TypingPayload.threadId := default [] (currentThreadId s);
     TypingPayload.participantId := currentParticipantId s;
     TypingPayload.isTyping := typing;
     TypingPayload.at_ := at_ |}.

(** The pending timer, if any, that a handle variable refers to. *)
Definition heldBy (h : option positive) (tm : Timer) : bool :=
  match h with
  | Some x => (handle tm =? x)%positive
  | None => false
  end.

End Typing.

(* ===================================================================== *)
(** ** utils/messageContent.ts *)
(* ===================================================================== *)

Module MessageContent.

Definition MESSAGE_MAX_LENGTH : Z := 500.

Inductive MessageValidationReason := empty | too_long | sql_injection.

Record MessageValidationResult := mkValidation {
  isValid : bool;
  reason : option MessageValidationReason;
  value : jsstring;
}.

Section WithPatterns.
(** [SQL_INJECTION_PATTERNS.some((pattern) => pattern.test(value))]: the
    regular-expression engine is the host's. *)
Variable isPotentialSqlInjection : jsstring -> bool.

Definition validateMessageBody (value : jsstring) : MessageValidationResult :=
  let normalized := trim value in
  if negb (truthy normalized) then mkValidation false (Some empty) []
  else if MESSAGE_MAX_LENGTH <? Z.of_nat (length normalized) then
    mkValidation false (Some too_long) normalized
  else if isPotentialSqlInjection normalized then
    mkValidation false (Some sql_injection) normalized
  else mkValidation true None normalized.
End WithPatterns.

End MessageContent.

(* ===================================================================== *)
(** ** The optimistic send of the two applications *)
(* ===================================================================== *)

Module ThreadLiveMeta.
Record t := mk {
  threadId : jsstring;
  channelStatus : RealtimeChannelStatus;
  online : bool;
  latestHeartbeatAt : option Z;
  participantHeartbeats : gmap jsstring Z;
}.
End ThreadLiveMeta.

Module SendMessageInput.
Record t := mk {
  threadId : jsstring;
  clientId : jsstring;
  senderId : jsstring;
  senderRole : ParticipantRole;
  body : jsstring;
  createdAt : Z;
}.
End SendMessageInput.

Module Send.

(** What a send does outside its own locals, in program order: the store
    actions it dispatches, the repository write and the gateway broadcast. *)
Inductive Effect :=
| SetOptimistic (threadId : jsstring) (message : Message.t)
| MarkOptimisticFailed (threadId clientId : jsstring) (fallback : Message.t)
| UpsertRealtimeMessage (threadId : jsstring) (message : Message.t)
| RemoveOptimistic (threadId clientId : jsstring)
| RepositorySendMessage (input : SendMessageInput.t)
| GatewaySendMessage (threadId : jsstring) (message : Message.t).

Definition isNetworkEffect (e : Effect) : bool :=
  match e with
  | RepositorySendMessage _ | GatewaySendMessage _ _ => true
  | _ => false
  end.

(** What the host supplies to one call: the clock, the identifier drawn by
    [createId], and how the two awaited promises settle ([None] and [false]
    are rejections). *)
Record Host := mkHost {
  dateNow : Z;
  randomUUID : jsstring;
  repositoryReply : SendMessageInput.t -> option Message.t;
  gatewayReply : bool;
}.

Definition createId (prefix : jsstring) (host : Host) : jsstring :=
  prefix ++ lit "-" ++ randomUUID host.

(** [{ ...current, deliveryState: "failed" }] *)
Definition asFailed (current : Message.t) : Message.t :=
  {| Message.id := Message.id current;
     Message.clientId := Message.clientId current;
     Message.threadId := Message.threadId current;
     Message.senderId := Message.senderId current;
     Message.senderRole := Message.senderRole current;
     Message.body := Message.body current;
     Message.createdAt := Message.createdAt current;
     Message.seq := Message.seq current;
     Message.deliveryState := Failed |}.

Definition makeOptimisticMessage (role : ParticipantRole)
    (clientId threadId senderId body : jsstring) (createdAt : Z)
    (deliveryState : DeliveryState) : Message.t :=
  {| Message.id := lit "optimistic-" ++ clientId;
     Message.clientId := clientId;
     Message.threadId := threadId;
     Message.senderId := senderId;
     Message.senderRole := role;
     Message.body := body;
     Message.createdAt := createdAt;
     Message.seq := createdAt;
     Message.deliveryState := deliveryState |}.

(** [previous && previous.deliveryState === "failed" && previous.body ===
    nextFailed.body && previous.createdAt === nextFailed.createdAt] *)
Definition alreadyFailed (previous : option Message.t) (nextFailed : Message.t) : bool :=
  match previous with
  | None => false
  | Some p =>
      bool_decide (Message.deliveryState p = Failed)
      && bool_decide (Message.body p = Message.body nextFailed)
      && (Message.createdAt p =? Message.createdAt nextFailed)
  end.

(** [resolvedLiveMeta?.online && resolvedLiveMeta.channelStatus === "SUBSCRIBED"] *)
Definition channelReady (resolvedLiveMeta : option ThreadLiveMeta.t) : bool :=
  match resolvedLiveMeta with
  | None => false
  | Some meta =>
      ThreadLiveMeta.online meta
      && bool_decide (ThreadLiveMeta.channelStatus meta = SUBSCRIBED)
  end.

End Send.

(** *** stores/agentChatStore.ts: the two slices a send writes.  The early
    returns on [current === message] hand back a state with the same
    contents and are not distinguished from the update. *)
Module AgentStore.

Record t := mk {
  optimisticByThread : gmap jsstring (gmap jsstring Message.t);
  realtimeByThread : gmap jsstring (list Message.t);
}.

Definition setOptimistic (threadId : jsstring) (message : Message.t) (state : t) : t :=
  let currentByThread := default ∅ (optimisticByThread state !! threadId) in
  {| optimisticByThread :=
       <[threadId := <[Message.clientId message := message]> currentByThread]>
         (optimisticByThread state);
     realtimeByThread := realtimeByThread state |}.

Definition removeOptimistic (threadId clientId : jsstring) (state : t) : t :=
  match optimisticByThread state !! threadId with
  | None => state
  | Some currentByThread =>
      match currentByThread !! clientId with
      | None => state
      | Some _ =>
          let nextByThread := delete clientId currentByThread in
          {| optimisticByThread :=
               if bool_decide (nextByThread = ∅)
               then delete threadId (optimisticByThread state)
               else <[threadId := nextByThread]> (optimisticByThread state);
             realtimeByThread := realtimeByThread state |}
      end
  end.

Definition markOptimisticFailed (threadId clientId : jsstring)
    (fallback : Message.t) (state : t) : t :=
  let currentByThread := default ∅ (optimisticByThread state !! threadId) in
  let current := default fallback (currentByThread !! clientId) in
  let nextFailed := Send.asFailed current in
  let previous := currentByThread !! clientId in
  if Send.alreadyFailed previous nextFailed then state
  else
    {| optimisticByThread :=
         <[threadId := <[clientId := nextFailed]> currentByThread]>
           (optimisticByThread state);
       realtimeByThread := realtimeByThread state |}.

Definition upsertRealtimeMessage (localeCompare : jsstring -> jsstring -> Z)
    (threadId : jsstring) (message : Message.t) (state : t) : t :=
  let currentMessages := default [] (realtimeByThread state !! threadId) in
  {| optimisticByThread := optimisticByThread state;
     realtimeByThread :=
       <[threadId :=
           Messages.mergeMessages localeCompare
             [Some currentMessages; Some [message]]]>
         (realtimeByThread state) |}.

End AgentStore.

(** *** stores/visitorChatStore.ts: the two slices a send writes. *)
Module VisitorStore.

Record t := mk {
  optimisticByClientId : gmap jsstring Message.t;
  realtimeMessages : list Message.t;
}.

Definition setOptimistic (message : Message.t) (state : t) : t :=
  {| optimisticByClientId :=
       <[Message.clientId message := message]> (optimisticByClientId state);
     realtimeMessages := realtimeMessages state |}.

Definition removeOptimistic (clientId : jsstring) (state : t) : t :=
  match optimisticByClientId state !! clientId with
  | None => state
  | Some _ =>
      {| optimisticByClientId := delete clientId (optimisticByClientId state);
         realtimeMessages := realtimeMessages state |}
  end.

Definition markOptimisticFailed (clientId : jsstring) (fallback : Message.t)
    (state : t) : t :=
  let current := default fallback (optimisticByClientId state !! clientId) in
  let nextFailed := Send.asFailed current in
  let previous := optimisticByClientId state !! clientId in
  if Send.alreadyFailed previous nextFailed then state
  else
    {| optimisticByClientId := <[clientId := nextFailed]> (optimisticByClientId state);
       realtimeMessages := realtimeMessages state |}.

Definition upsertRealtimeMessage (localeCompare : jsstring -> jsstring -> Z)
    (message : Message.t) (state : t) : t :=
  {| optimisticByClientId := optimisticByClientId state;
     realtimeMessages :=
       Messages.mergeMessages localeCompare
         [Some (realtimeMessages state); Some [message]] |}.

End VisitorStore.

(** *** apps/agent/src/hooks/useAgentThread.ts *)
Module AgentSend.

Definition AGENT_ID : jsstring := lit "agent-demo".

(** The values [sendInternal] closes over in one render of the hook. *)
Record Hook := mkHook {
  threadId : option jsstring;
  resolvedLiveMeta : option ThreadLiveMeta.t;
  navigatorOnLine : bool;
  gatewayRefCurrent : bool;
}.

(** The store and the trace of effects. *)
Record World := mkWorld {
  store : AgentStore.t;
  trace : list Send.Effect;
}.

Definition canSendMessages (hook : Hook) : bool :=
  truthyOpt (threadId hook) && Send.channelReady (resolvedLiveMeta hook)
  && navigatorOnLine hook.

Section WithHost.
Variable localeCompare : jsstring -> jsstring -> Z.
Variable isPotentialSqlInjection : jsstring -> bool.

Definition setOptimistic (threadId : jsstring) (message : Message.t) (w : World) : World :=
  mkWorld (AgentStore.setOptimistic threadId message (store w))
          (trace w ++ [Send.SetOptimistic threadId message]).

Definition markOptimisticFailed (threadId clientId : jsstring) (fallback : Message.t)
    (w : World) : World :=
  mkWorld (AgentStore.markOptimisticFailed threadId clientId fallback (store w))
          (trace w ++ [Send.MarkOptimisticFailed threadId clientId fallback]).

Definition upsertRealtimeMessage (threadId : jsstring) (message : Message.t)
    (w : World) : World :=
  mkWorld (AgentStore.upsertRealtimeMessage localeCompare threadId message (store w))
          (trace w ++ [Send.UpsertRealtimeMessage threadId message]).

Definition removeOptimistic (threadId clientId : jsstring) (w : World) : World :=
  mkWorld (AgentStore.removeOptimistic threadId clientId (store w))
          (trace w ++ [Send.RemoveOptimistic threadId clientId]).

Definition perform (e : Send.Effect) (w : World) : World :=
  mkWorld (store w) (trace w ++ [e]).

Definition sendInternal (hook : Hook) (host : Send.Host) (body : jsstring)
    (existingClientId : option jsstring) (w : World) : World :=
  if negb (truthyOpt (threadId hook)) then w
  else
    let targetThreadId := default [] (threadId hook) in
    let validation :=
      MessageContent.validateMessageBody isPotentialSqlInjection body in
    if negb (MessageContent.isValid validation) then w
    else
      let safeBody := MessageContent.value validation in
      let createdAt := Send.dateNow host in
      let clientId := default (Send.createId (lit "client") host) existingClientId in
      let optimistic :=
        Send.makeOptimisticMessage Agent clientId targetThreadId AGENT_ID safeBody
          createdAt Sending in
      let w1 := setOptimistic targetThreadId optimistic w in
      if negb (canSendMessages hook) then
        markOptimisticFailed targetThreadId clientId optimistic w1
      else
        let input :=
          SendMessageInput.mk targetThreadId clientId AGENT_ID Agent safeBody createdAt in
        let w2 := perform (Send.RepositorySendMessage input) w1 in
        match Send.repositoryReply host input with
        | None => markOptimisticFailed targetThreadId clientId optimistic w2
        | Some message =>
            let w3 := upsertRealtimeMessage targetThreadId message w2 in
            let w4 := removeOptimistic targetThreadId clientId w3 in
            if gatewayRefCurrent hook then
              let w5 := perform (Send.GatewaySendMessage targetThreadId message) w4 in
              if Send.gatewayReply host then w5
              else markOptimisticFailed targetThreadId clientId optimistic w5
            else w4
        end.
End WithHost.

(** The precondition gate of the specification: the conjuncts of
    [canSendMessages] other than the target thread. *)
Definition networkGate (hook : Hook) : bool :=
  Send.channelReady (resolvedLiveMeta hook) && navigatorOnLine hook.

End AgentSend.

(** *** apps/visitor/src/hooks/useVisitorChat.ts *)
Module VisitorSend.

Record Hook := mkHook {
  canOwnChat : bool;
  threadId : option jsstring;
  visitorId : option jsstring;
  repositoryRefCurrent : bool;
  gatewayRefCurrent : bool;
  resolvedLiveMeta : option ThreadLiveMeta.t;
  windowDefined : bool;
  navigatorOnLine : bool;
}.

Record World := mkWorld {
  store : VisitorStore.t;
  trace : list Send.Effect;
}.

Definition canSendMessages (hook : Hook) : bool :=
  canOwnChat hook && truthyOpt (threadId hook) && truthyOpt (visitorId hook)
  && Send.channelReady (resolvedLiveMeta hook)
  && (negb (windowDefined hook) || navigatorOnLine hook).

Section WithHost.
Variable localeCompare : jsstring -> jsstring -> Z.
Variable isPotentialSqlInjection : jsstring -> bool.

(** The visitor's store actions take no thread argument; the trace entry
    of each carries the hook's thread id beside the action's own arguments. *)
Definition setOptimistic (threadId : jsstring) (message : Message.t) (w : World) : World :=
  mkWorld (VisitorStore.setOptimistic message (store w))
          (trace w ++ [Send.SetOptimistic threadId message]).

Definition markOptimisticFailed (threadId clientId : jsstring) (fallback : Message.t)
    (w : World) : World :=
  mkWorld (VisitorStore.markOptimisticFailed clientId fallback (store w))
          (trace w ++ [Send.MarkOptimisticFailed threadId clientId fallback]).

Definition upsertRealtimeMessage (threadId : jsstring) (message : Message.t)
    (w : World) : World :=
  mkWorld (VisitorStore.upsertRealtimeMessage localeCompare message (store w))
          (trace w ++ [Send.UpsertRealtimeMessage threadId message]).

Definition removeOptimistic (threadId clientId : jsstring) (w : World) : World :=
  mkWorld (VisitorStore.removeOptimistic clientId (store w))
          (trace w ++ [Send.RemoveOptimistic threadId clientId]).

Definition perform (e : Send.Effect) (w : World) : World :=
  mkWorld (store w) (trace w ++ [e]).

Definition sendInternal (hook : Hook) (host : Send.Host) (body : jsstring)
    (existingClientId : option jsstring) (w : World) : World :=
  if negb (canOwnChat hook) || negb (truthyOpt (threadId hook))
     || negb (truthyOpt (visitorId hook)) || negb (repositoryRefCurrent hook)
  then w
  else
    let threadId := default [] (threadId hook) in
    let visitorId := default [] (visitorId hook) in
    let validation :=
      MessageContent.validateMessageBody isPotentialSqlInjection body in
    if negb (MessageContent.isValid validation) then w
    else
      let safeBody := MessageContent.value validation in
      let createdAt := Send.dateNow host in
      let clientId := default (Send.createId (lit "client") host) existingClientId in
      let optimistic :=
        Send.makeOptimisticMessage Visitor clientId threadId visitorId safeBody
          createdAt Sending in
      let w1 := setOptimistic threadId optimistic w in
      if negb (canSendMessages hook) then
        markOptimisticFailed threadId clientId optimistic w1
      else
        let input :=
          SendMessageInput.mk threadId clientId visitorId Visitor safeBody createdAt in
        let w2 := perform (Send.RepositorySendMessage input) w1 in
        match Send.repositoryReply host input with
        | None => markOptimisticFailed threadId clientId optimistic w2
        | Some message =>
            let w3 := upsertRealtimeMessage threadId message w2 in
            let w4 := removeOptimistic threadId clientId w3 in
            if gatewayRefCurrent hook then
              let w5 := perform (Send.GatewaySendMessage threadId message) w4 in
              if Send.gatewayReply host then w5
              else markOptimisticFailed threadId clientId optimistic w5
            else w4
        end.
End WithHost.

(** The precondition gate of the specification: the network and channel
    conjuncts of [canSendMessages]. *)
Definition networkGate (hook : Hook) : bool :=
  Send.channelReady (resolvedLiveMeta hook)
  && (negb (windowDefined hook) || navigatorOnLine hook).

End VisitorSend.

(* ===================================================================== *)
(** ** Further code of the same files *)
(* ===================================================================== *)

(** *** utils/messages.ts: [flattenPages] *)
Module Pages.

(** The argument type [{ items: Message[] }]. *)
Record Page := mkPage {
  items : list Message.t;
}.

(** [pages.slice().reverse().flatMap((page) => page.items)] *)
Definition flattenPages (pages : list Page) : list Message.t :=
  concat (List.map items (rev pages)).

End Pages.

(** *** liveness.ts: [snapshot], and the readers of a snapshot in
    useAgentThread.ts and useVisitorChat.ts *)
Module LiveMeta.

(** [Object.fromEntries(participantHeartbeats.entries())] has the entries of
    the map. *)
Definition snapshot (s : Liveness.t) : ThreadLiveMeta.t :=
  {| ThreadLiveMeta.threadId := Liveness.threadId s;
     ThreadLiveMeta.channelStatus := Liveness.channelStatus s;
     ThreadLiveMeta.online := Liveness.online s;
     ThreadLiveMeta.latestHeartbeatAt := Liveness.latestHeartbeatAt s;
     ThreadLiveMeta.participantHeartbeats := Liveness.participantHeartbeats s |}.

(** The [isServiceLive] memo of both hooks. *)
Definition isServiceLive (resolvedLiveMeta : option ThreadLiveMeta.t) (clockMs : Z)
    : bool :=
  match resolvedLiveMeta with
  | None => false
  | Some meta =>
      if negb (truthyNum (ThreadLiveMeta.latestHeartbeatAt meta)) then false
      else
        ThreadLiveMeta.online meta
        && bool_decide (ThreadLiveMeta.channelStatus meta = SUBSCRIBED)
        && (clockMs - default 0 (ThreadLiveMeta.latestHeartbeatAt meta)
            <=? Liveness.HEARTBEAT_TTL_MS)
  end.

(** The [isAgentLive] memo of useVisitorChat.ts. *)
Definition isAgentLive (agentId : jsstring) (resolvedLiveMeta : option ThreadLiveMeta.t)
    (clockMs : Z) : bool :=
  let heartbeat :=
    resolvedLiveMeta ≫= (fun meta => ThreadLiveMeta.participantHeartbeats meta !! agentId) in
  if negb (truthyNum heartbeat) then false
  else clockMs - default 0 heartbeat <=? Liveness.HEARTBEAT_TTL_MS.

(** The "presence.sync" branch of the gateway subscription: every known
    participant that is not in the event's list is removed.
    [knownParticipants] is [Object.keys(liveness.snapshot().participantHeartbeats)]. *)
Definition presenceSyncOver (knownParticipants participantIds : list jsstring)
    (s : Liveness.t) : Liveness.t :=
  fold_left
    (fun acc participantId =>
       if negb (bool_decide (participantId ∈ participantIds))
       then Liveness.removeParticipant participantId acc
       else acc)
    knownParticipants s.

Definition presenceSync (participantIds : list jsstring) (s : Liveness.t) : Liveness.t :=
  presenceSyncOver
    (List.map fst (map_to_list (ThreadLiveMeta.participantHeartbeats (snapshot s))))
    participantIds s.

(** A tracker as the hooks use it: created, then driven by any operations. *)
Definition reachable (s : Liveness.t) : Prop :=
  exists threadId ops, s = Liveness.run ops (Liveness.createLivenessApi threadId).

End LiveMeta.

(** *** stores/agentChatStore.ts: the selection of the active thread *)
Module AgentSelection.

Definition hasThread (threadId : jsstring) (inbox : list InboxThread.t) : bool :=
  existsb (fun item => bool_decide (Thread.id (InboxThread.thread item) = threadId)) inbox.

(** [syncActiveThreadFromInbox], on the [activeThreadId] slice it writes. *)
Definition syncActiveThreadFromInbox (inbox : list InboxThread.t)
    (activeThreadId : option jsstring) : option jsstring :=
  match inbox with
  | [] => None
  | first :: _ =>
      if truthyOpt activeThreadId && hasThread (default [] activeThreadId) inbox
      then activeThreadId
      else Some (Thread.id (InboxThread.thread first))
  end.

End AgentSelection.

(** *** liveness.ts: what every reachable tracker satisfies *)
Module LivenessInvariant.

(** Every stored heartbeat is a non-negative timestamp, and
    [latestHeartbeatAt] is set and not older than any of them. *)
Definition consistent (s : Liveness.t) : Prop :=
  forall participantId heartbeat,
    Liveness.participantHeartbeats s !! participantId = Some heartbeat ->
    0 <= heartbeat
    /\ exists latest, Liveness.latestHeartbeatAt s = Some latest /\ heartbeat <= latest.

End LivenessInvariant.

(** *** utils/inbox.ts: the order [sortInboxThreadComparator] stands for *)
Module InboxOrder.

(** [a] may stand before [b]: more unread first, then the more recently
    updated thread. *)
Definition before (a b : InboxThread.t) : Prop :=
  InboxThread.unreadCount b < InboxThread.unreadCount a
  \/ (InboxThread.unreadCount a = InboxThread.unreadCount b
      /\ Thread.updatedAt (InboxThread.thread b) <= Thread.updatedAt (InboxThread.thread a)).

Definition threadIds (items : list InboxThread.t) : list jsstring :=
  List.map (fun item => Thread.id (InboxThread.thread item)) items.

End InboxOrder.

(** *** hooks/typingController.ts: the controller in use *)
Module TypingRun.

(** The methods of [TypingController]. *)
Inductive Call :=
| OnInputChange (value : jsstring)
| ForceStop
| SetCanEmit (canEmit : bool)
| SetThreadId (threadId : option jsstring)
| SetParticipantId (participantId : jsstring)
| Destroy.

Definition call (c : Call) (s : Typing.t) : Typing.t :=
  match c with
  | OnInputChange value => Typing.onInputChange value s
  | ForceStop => Typing.forceStop s
  | SetCanEmit canEmit => Typing.setCanEmit canEmit s
  | SetThreadId threadId => Typing.setThreadId threadId s
  | SetParticipantId participantId => Typing.setParticipantId participantId s
  | Destroy => Typing.destroy s
  end.

(** The states a controller can be in: it is created, its methods are
    called, and in between the clock advances and the host runs the timers
    that fall due. *)
Inductive Reachable : Typing.t -> Prop :=
| reach_create (threadId : option jsstring) (participantId : jsstring)
    (canEmit : bool) (clock : Z) :
    Reachable (Typing.createTypingController threadId participantId canEmit clock)
| reach_call (c : Call) (s : Typing.t) :
    Reachable s -> Reachable (call c s)
| reach_time (fuel : nat) (target : Z) (s s' : Typing.t) :
    Reachable s -> Typing.runTimers fuel target s = Some s' -> Reachable s'.

(** A log of payloads never holds a stop that does not follow a start:
    [previous] is the value published before the log. *)
Fixpoint stopsFollowStarts (previous : bool) (log : list TypingPayload.t) : bool :=
  match log with
  | [] => true
  | payload :: rest =>
      (TypingPayload.isTyping payload || previous)
      && stopsFollowStarts (TypingPayload.isTyping payload) rest
  end.

(** The value published last. *)
Fixpoint typingAfter (previous : bool) (log : list TypingPayload.t) : bool :=
  match log with
  | [] => previous
  | payload :: rest => typingAfter (TypingPayload.isTyping payload) rest
  end.

(** The handle variable that a callback's timer is stored in. *)
Definition holder (cb : Typing.Callback) (s : Typing.t) : option positive :=
  match cb with
  | Typing.OnDebounce => Typing.debounceTimer s
  | Typing.OnIdle => Typing.idleTimer s
  | Typing.OnRefresh => Typing.refreshTimer s
  end.

(** Every pending timer is referred to by the handle variable of its kind. *)
Definition owned (s : Typing.t) : Prop :=
  forall tm, In tm (Typing.timers s) ->
             Typing.heldBy (holder (Typing.callback tm) s) tm = true.

(** [s'] has the payload log, [isTyping], thread and gate of [s]. *)
Definition sameLog (s s' : Typing.t) : Prop :=
  Typing.published s' = Typing.published s
  /\ Typing.isTyping s' = Typing.isTyping s
  /\ Typing.currentThreadId s' = Typing.currentThreadId s
  /\ Typing.currentCanEmit s' = Typing.currentCanEmit s.

(** The payload log is edge-triggered on stops: no stop is published first
    or right after another stop, [isTyping] is the value published last, and
    every payload names a thread. *)
Definition edgeTriggered (s : Typing.t) : Prop :=
  stopsFollowStarts false (Typing.published s) = true
  /\ typingAfter false (Typing.published s) = Typing.isTyping s
  /\ Forall (fun payload => truthy (TypingPayload.threadId payload) = true)
            (Typing.published s).

End TypingRun.

(** *** The optimistic send: what an effect is addressed to *)
Module SendScope.

(** The thread an effect is addressed to. *)
Definition effectThread (e : Send.Effect) : jsstring :=
  match e with
  | Send.SetOptimistic threadId _ => threadId
  | Send.MarkOptimisticFailed threadId _ _ => threadId
  | Send.UpsertRealtimeMessage threadId _ => threadId
  | Send.RemoveOptimistic threadId _ => threadId
  | Send.RepositorySendMessage input => SendMessageInput.threadId input
  | Send.GatewaySendMessage threadId _ => threadId
  end.

(** No thread of the agent's store has an empty optimistic bucket. *)
Definition noEmptyBucket (state : AgentStore.t) : Prop :=
  forall threadId, AgentStore.optimisticByThread state !! threadId <> Some ∅.

End SendScope.

(** *** The retry of a failed send in the two hooks.  The hook reads the
    placeholders from the store it rendered with, here the store of the call. *)
Module AgentRetry.
Section WithHost.
Variable localeCompare : jsstring -> jsstring -> Z.
Variable isPotentialSqlInjection : jsstring -> bool.

Definition retryMessage (hook : AgentSend.Hook) (host : Send.Host)
    (clientId : jsstring) (w : AgentSend.World) : AgentSend.World :=
  if negb (truthyOpt (AgentSend.threadId hook)) then w
  else
    let threadId := default [] (AgentSend.threadId hook) in
    let failed :=
      default ∅ (AgentStore.optimisticByThread (AgentSend.store w) !! threadId)
        !! clientId in
    match failed with
    | None => w
    | Some failed =>
        if negb (bool_decide (Message.deliveryState failed = Failed)) then w
        else AgentSend.sendInternal localeCompare isPotentialSqlInjection hook host
               (Message.body failed) (Some clientId) w
    end.
End WithHost.
End AgentRetry.

Module VisitorRetry.
Section WithHost.
Variable localeCompare : jsstring -> jsstring -> Z.
Variable isPotentialSqlInjection : jsstring -> bool.

Definition retryMessage (hook : VisitorSend.Hook) (host : Send.Host)
    (clientId : jsstring) (w : VisitorSend.World) : VisitorSend.World :=
  match VisitorStore.optimisticByClientId (VisitorSend.store w) !! clientId with
  | None => w
  | Some failed =>
      if negb (bool_decide (Message.deliveryState failed = Failed)) then w
      else VisitorSend.sendInternal localeCompare isPotentialSqlInjection hook host
             (Message.body failed) (Some clientId) w
  end.
End WithHost.
End VisitorRetry.

(** *** What a send may change *)
Module SendReach.

(** The placeholder the agent's store holds for a client id of a thread. *)
Definition placeholder (state : AgentStore.t) (threadId clientId : jsstring)
    : option Message.t :=
  AgentStore.optimisticByThread state !! threadId
    ≫= (fun byClientId => byClientId !! clientId).

(** [w'] differs from [w] at most in the placeholder [(target, clientId)] and
    in the realtime messages of [target], and every effect added to the trace
    is addressed to [target]. *)
Definition scoped (target clientId : jsstring) (w w' : AgentSend.World) : Prop :=
  (forall threadId k,
     (threadId, k) <> (target, clientId) ->
     placeholder (AgentSend.store w') threadId k
     = placeholder (AgentSend.store w) threadId k)
  /\ (forall threadId,
        threadId <> target ->
        AgentStore.realtimeByThread (AgentSend.store w') !! threadId
        = AgentStore.realtimeByThread (AgentSend.store w) !! threadId)
  /\ exists extra,
       AgentSend.trace w' = AgentSend.trace w ++ extra
       /\ Forall (fun e => SendScope.effectThread e = target) extra.

(** For the visitor's store, which holds one thread: [w'] differs from [w]
    in no placeholder other than the one under [clientId]. *)
Definition visitorScoped (clientId : jsstring) (w w' : VisitorSend.World) : Prop :=
  forall k,
    k <> clientId ->
    VisitorStore.optimisticByClientId (VisitorSend.store w') !! k
    = VisitorStore.optimisticByClientId (VisitorSend.store w) !! k.

End SendReach.

(* ===================================================================== *)
(** * Properties *)
(* ===================================================================== *)

(** ** The ordered map *)

Section OrderedMapFacts.
Context {V : Type}.
Implicit Types (m : list (jsstring * V)) (k : jsstring) (v : V).

Lemma mapSet_same m k v : mapGet k m = Some v -> mapSet k v m = m.
Proof.
  induction m as [|[k' v'] m IH]; simpl; [discriminate|].
  destruct (decide (k' = k)) as [->|Hne]; intros H.
  - by inversion H.
  - by rewrite IH.
Qed.

Lemma mapKeys_mapSet_present m k v :
  In k (mapKeys m) -> mapKeys (mapSet k v m) = mapKeys m.
Proof.
  induction m as [|[k' v'] m IH]; simpl; [tauto|].
  destruct (decide (k' = k)) as [->|Hne]; simpl; [done|].
  intros [?|Hin]; [done|]. by rewrite IH.
Qed.

Lemma mapKeys_mapSet_absent m k v :
  ~ In k (mapKeys m) -> mapSet k v m = m ++ [(k, v)].
Proof.
  induction m as [|[k' v'] m IH]; simpl; [done|].
  destruct (decide (k' = k)) as [->|Hne]; intros Hnin.
  - exfalso. apply Hnin. by left.
  - rewrite IH; [done|]. intros Hin. apply Hnin. by right.
Qed.

Lemma mapGet_In_keys m k : In k (mapKeys m) <-> is_Some (mapGet k m).
Proof.
  induction m as [|[k' v'] m IH]; simpl.
  - split; [tauto|]. intros [? ?]. discriminate.
  - destruct (decide (k' = k)) as [->|Hne].
    + split; eauto.
    + rewrite <- IH. split; [intros [?|?]; [done|assumption] | by right].
Qed.

Lemma mapGet_In m k v : mapGet k m = Some v -> In (k, v) m.
Proof.
  induction m as [|[k' v'] m IH]; simpl; [discriminate|].
  destruct (decide (k' = k)) as [->|Hne]; intros H.
  - left. by inversion H.
  - right. by apply IH.
Qed.

Lemma mapSet_In m k v e : In e (mapSet k v m) -> e = (k, v) \/ In e m.
Proof.
  induction m as [|[k' v'] m IH]; simpl.
  - intros [<-|[]]. by left.
  - destruct (decide (k' = k)) as [->|Hne]; simpl.
    + intros [<-|?]; [by left | right; by right].
    + intros [<-|Hin]; [right; by left|].
      destruct (IH Hin); [by left | right; by right].
Qed.

Lemma mapSet_NoDup m k v : NoDup (mapKeys m) -> NoDup (mapKeys (mapSet k v m)).
Proof.
  intros Hnd. destruct (decide (k ∈ mapKeys m)) as [Hin|Hnin];
    rewrite list_elem_of_In in *.
  - by rewrite mapKeys_mapSet_present.
  - rewrite mapKeys_mapSet_absent by done.
    unfold mapKeys. rewrite List.map_app. simpl.
    apply NoDup_app. split; [done|]. split.
    + intros x Hx Hx'. apply list_elem_of_In in Hx, Hx'.
      destruct Hx' as [<-|[]]. by apply Hnin.
    + apply NoDup_singleton.
Qed.
End OrderedMapFacts.

Section OrderedMapMore.
Context {V : Type}.
Implicit Types (m : list (jsstring * V)) (k : jsstring) (v : V).

Lemma mapGet_mapSet_eq m k v : mapGet k (mapSet k v m) = Some v.
Proof.
  induction m as [|[k' v'] m IH]; simpl.
  - by rewrite decide_True.
  - destruct (decide (k' = k)) as [->|Hne]; simpl.
    + by rewrite decide_True.
    + by rewrite decide_False.
Qed.

Lemma mapGet_mapSet_ne m k k' v : k <> k' -> mapGet k' (mapSet k v m) = mapGet k' m.
Proof.
  intros Hne. induction m as [|[k0 v0] m IH]; simpl.
  - by rewrite decide_False.
  - destruct (decide (k0 = k)) as [->|Hne0]; simpl.
    + by rewrite !decide_False.
    + destruct (decide (k0 = k')); [done | apply IH].
Qed.

Lemma mapGet_of_In m k v : NoDup (mapKeys m) -> In (k, v) m -> mapGet k m = Some v.
Proof.
  induction m as [|[k' v'] m IH]; simpl; [tauto|].
  intros Hnd [Heq|Hin].
  - inversion Heq; subst. by rewrite decide_True.
  - apply NoDup_cons in Hnd as [Hnin Hnd].
    destruct (decide (k' = k)) as [->|Hne]; [|by apply IH].
    exfalso. apply Hnin. apply list_elem_of_In.
    unfold mapKeys. change k with (fst (k, v)). by apply in_map.
Qed.
End OrderedMapMore.

(** ** [Array.prototype.sort] on a consistent comparator *)

Section ArraySortFacts.
Context {A : Type} (cmp : A -> A -> Z).

Lemma sortInsert_perm x l : Permutation (sortInsert cmp x l) (x :: l).
Proof.
  induction l as [|y l IH]; simpl; [done|].
  destruct (cmp x y <=? 0); [done|].
  rewrite IH. apply perm_swap.
Qed.

Lemma arraySort_perm l : Permutation (arraySort cmp l) l.
Proof.
  induction l as [|x l IH]; simpl; [done|].
  rewrite sortInsert_perm. by constructor.
Qed.

Hypothesis cmp_total : forall a b, cmp a b <= 0 \/ cmp b a <= 0.

Lemma sortInsert_sorted x l :
  Sorted (cmpLe cmp) l -> Sorted (cmpLe cmp) (sortInsert cmp x l).
Proof using cmp_total.
  induction l as [|y l IH]; simpl; intros Hs.
  - repeat constructor.
  - destruct (Z.leb_spec (cmp x y) 0) as [Hle|Hgt].
    + constructor; [done|]. by constructor.
    + inversion Hs as [|? ? Hs' Hhd]; subst.
      constructor; [by apply IH|].
      assert (Hyx : cmpLe cmp y x) by (destruct (cmp_total x y); [lia|done]).
      destruct l as [|z l]; simpl; [by constructor|].
      destruct (cmp x z <=? 0); constructor; [done|].
      by inversion Hhd.
Qed.

Lemma arraySort_sorted l : Sorted (cmpLe cmp) (arraySort cmp l).
Proof using cmp_total.
  induction l as [|x l IH]; simpl; [constructor|]. by apply sortInsert_sorted.
Qed.

Hypothesis cmp_trans : forall a b c, cmp a b <= 0 -> cmp b c <= 0 -> cmp a c <= 0.

Lemma arraySort_strongly_sorted l : StronglySorted (cmpLe cmp) (arraySort cmp l).
Proof using cmp_total cmp_trans.
  apply Sorted_StronglySorted; [|apply arraySort_sorted].
  intros a b c. apply cmp_trans.
Qed.

(** Two strongly sorted arrangements of the same elements coincide when no
    two distinct elements tie. *)
Lemma strongly_sorted_unique (l1 l2 : list A) :
  (forall a b, In a l1 -> In b l1 -> cmp a b <= 0 -> cmp b a <= 0 -> a = b) ->
  StronglySorted (cmpLe cmp) l1 -> StronglySorted (cmpLe cmp) l2 ->
  Permutation l1 l2 -> l1 = l2.
Proof.
  revert l2. induction l1 as [|x l1 IH]; intros l2 Hanti Hs1 Hs2 Hp.
  - by apply Permutation_nil in Hp.
  - destruct l2 as [|y l2]; [by apply Permutation_sym, Permutation_nil in Hp|].
    apply StronglySorted_inv in Hs1 as [Hs1 Hall1].
    apply StronglySorted_inv in Hs2 as [Hs2 Hall2].
    rewrite List.Forall_forall in Hall1, Hall2.
    assert (Hxy : x = y).
    { assert (Hyin : In y (x :: l1)).
      { eapply Permutation_in; [symmetry; exact Hp | by left]. }
      assert (Hxin : In x (y :: l2)).
      { eapply Permutation_in; [exact Hp | by left]. }
      destruct Hyin as [|Hyin]; [done|].
      destruct Hxin as [|Hxin]; [done|].
      apply Hanti; [by left | by right | by apply Hall1 | by apply Hall2]. }
    subst y. f_equal. apply IH; try done.
    + intros a b Ha Hb. apply Hanti; by right.
    + by apply Permutation_cons_inv in Hp.
Qed.

Lemma arraySort_perm_invariant (l1 l2 : list A) :
  (forall a b, In a l1 -> In b l1 -> cmp a b <= 0 -> cmp b a <= 0 -> a = b) ->
  Permutation l1 l2 -> arraySort cmp l1 = arraySort cmp l2.
Proof using cmp_total cmp_trans.
  intros Hanti Hp. apply strongly_sorted_unique.
  - intros a b Ha Hb. apply Hanti; eapply Permutation_in; eauto using arraySort_perm.
  - apply arraySort_strongly_sorted.
  - apply arraySort_strongly_sorted.
  - rewrite !arraySort_perm. done.
Qed.
End ArraySortFacts.

(** ** utils/messages.ts *)

Lemma spread_incoming (existing incoming : Message.t) :
  Messages.spread existing incoming = incoming.
Proof. by destruct incoming. Qed.

Lemma mergeMessageState_cases (existing incoming : Message.t) :
  Messages.mergeMessageState existing incoming =
  if Messages.isSent existing && negb (Messages.isSent incoming)
  then existing else incoming.
Proof.
  unfold Messages.mergeMessageState. rewrite spread_incoming.
  by repeat case_match.
Qed.

Lemma isSent_true (m : Message.t) :
  Messages.isSent m = true <-> Message.deliveryState m = Sent.
Proof. unfold Messages.isSent. apply bool_decide_eq_true. Qed.

Lemma isSent_false (m : Message.t) :
  Messages.isSent m = false <-> Message.deliveryState m <> Sent.
Proof. unfold Messages.isSent. apply bool_decide_eq_false. Qed.

Lemma foldSets_visited (sets : list (option (list Message.t))) :
  Messages.foldSets sets = fold_left Messages.foldMessage (Messages.visited sets) [].
Proof.
  unfold Messages.foldSets, Messages.visited. generalize (@nil (jsstring * Message.t)).
  induction sets as [|set sets IH]; intros m; simpl; [done|].
  rewrite fold_left_app, IH. by destruct set.
Qed.

(** C1: an optimistic placeholder ("sending") and a confirmed message
    ("sent") that share the identity key merge to exactly one entry, and that
    entry is the confirmed message (so its id, seq and deliveryState are the
    confirmed ones), however the two are spread over the argument sets and in
    whichever order they are folded. *)
Theorem optimistic_and_confirmed_collapse
    (localeCompare : jsstring -> jsstring -> Z) (optimistic confirmed : Message.t)
    (sets : list (option (list Message.t))) :
  Messages.stableClientKey optimistic = Messages.stableClientKey confirmed ->
  Message.deliveryState optimistic = Sending ->
  Message.deliveryState confirmed = Sent ->
  Permutation (Messages.visited sets) [optimistic; confirmed] ->
  Messages.mergeMessages localeCompare sets = [confirmed].
Proof.
  intros Hkey Hsending Hsent Hperm.
  assert (Ho : Messages.isSent optimistic = false).
  { apply isSent_false. by rewrite Hsending. }
  assert (Hc : Messages.isSent confirmed = true) by by apply isSent_true.
  unfold Messages.mergeMessages. rewrite foldSets_visited.
  apply Permutation_sym, Permutation_length_2_inv in Hperm.
  destruct Hperm as [-> | ->]; simpl; unfold Messages.foldMessage; simpl;
    rewrite Hkey;
    (destruct (decide (Messages.stableClientKey confirmed
                       = Messages.stableClientKey confirmed)); [|done]);
    rewrite mergeMessageState_cases, Ho, Hc; simpl;
    (destruct (decide (Messages.stableClientKey confirmed
                       = Messages.stableClientKey confirmed)); [|done]);
    done.
Qed.

(** The scenario of the specification: "optimistic-c2"/"sending"/seq 200
    merged with "db-c2"/"sent"/seq 201 leaves the single entry "db-c2". *)
Lemma optimistic_and_confirmed_collapse_scenario :
  let optimistic := Messages.testMessage "optimistic-c2" "c2" 200 200 Sending in
  let confirmed := Messages.testMessage "db-c2" "c2" 200 201 Sent in
  let merged := Messages.mergeMessages codeUnitCompare
                  [Some [optimistic]; Some [confirmed]] in
  Messages.stableClientKey optimistic = Messages.stableClientKey confirmed
  /\ merged = [confirmed]
  /\ List.map Message.id merged = [lit "db-c2"]
  /\ List.map Message.deliveryState merged = [Sent].
Proof.
  intros optimistic confirmed merged.
  assert (Hmerged : merged = [confirmed]).
  { apply (optimistic_and_confirmed_collapse codeUnitCompare optimistic confirmed);
      [reflexivity | reflexivity | reflexivity | apply Permutation_refl]. }
  split; [reflexivity|]. split; [exact Hmerged|].
  rewrite Hmerged. split; reflexivity.
Defined.

(** C2: when the fold already holds a "sent" entry, folding in a message
    with the same identity key whose deliveryState is not "sent" returns the
    map unchanged; the state-merge rule returns the existing entry itself. *)
Theorem sent_never_regresses
    (byClientKey : list (jsstring * Message.t)) (existing incoming : Message.t) :
  mapGet (Messages.stableClientKey existing) byClientKey = Some existing ->
  Messages.stableClientKey incoming = Messages.stableClientKey existing ->
  Message.deliveryState existing = Sent ->
  Message.deliveryState incoming <> Sent ->
  Messages.mergeMessageState existing incoming = existing
  /\ Messages.foldMessage byClientKey incoming = byClientKey.
Proof.
  intros Hget Hkey Hsent Hnot.
  assert (Hstate : Messages.mergeMessageState existing incoming = existing).
  { rewrite mergeMessageState_cases.
    apply isSent_true in Hsent. apply isSent_false in Hnot.
    by rewrite Hsent, Hnot. }
  split; [done|].
  unfold Messages.foldMessage. rewrite Hkey, Hget, Hstate.
  by apply mapSet_same.
Qed.

Lemma sent_never_regresses_scenario :
  let canonical := Messages.testMessage "m1" "c1" 1 1 Sent in
  let staleOptimistic := Messages.testMessage "optimistic-c1" "c1" 1 1 Sending in
  let byClientKey := [(Messages.stableClientKey canonical, canonical)] in
  Messages.mergeMessageState canonical staleOptimistic = canonical
  /\ Messages.foldMessage byClientKey staleOptimistic = byClientKey.
Proof.
  intros canonical staleOptimistic byClientKey.
  apply (sent_never_regresses byClientKey canonical staleOptimistic);
    [reflexivity | reflexivity | reflexivity | discriminate].
Defined.

Lemma Sorted_weaken {A : Type} (R R' : A -> A -> Prop) (l : list A) :
  (forall a b, R a b -> R' a b) -> Sorted R l -> Sorted R' l.
Proof.
  intros Himpl. induction 1 as [|x l Hs IH Hhd]; constructor; [done|].
  destruct Hhd; constructor. by apply Himpl.
Qed.

Lemma StronglySorted_weaken {A : Type} (R R' : A -> A -> Prop) (l : list A) :
  (forall a b, R a b -> R' a b) -> StronglySorted R l -> StronglySorted R' l.
Proof.
  intros Himpl. induction 1 as [|x l Hs IH Hall]; constructor; [done|].
  eapply List.Forall_impl; [|exact Hall]. apply Himpl.
Qed.

Lemma compareMessages_le_iff (localeCompare : jsstring -> jsstring -> Z)
    (a b : Message.t) :
  Messages.compareMessages localeCompare a b <= 0 <-> Messages.tupleLe localeCompare a b.
Proof.
  unfold Messages.compareMessages, Messages.tupleLe.
  destruct (Z.eqb_spec (Message.createdAt a) (Message.createdAt b)) as [Hc|Hc];
    simpl; [|lia].
  destruct (Z.eqb_spec (Message.seq a) (Message.seq b)) as [Hs|Hs]; simpl; lia.
Qed.

(** The code-unit collation is a consistent comparator. *)
Lemma codeUnitCompare_total (a b : jsstring) :
  codeUnitCompare a b <= 0 \/ codeUnitCompare b a <= 0.
Proof.
  revert b. induction a as [|x a IH]; intros [|y b]; simpl; try lia.
  rewrite (N.compare_antisym x y).
  destruct (x ?= y)%N; simpl; try lia. apply IH.
Qed.

Lemma codeUnitCompare_trans (a b c : jsstring) :
  codeUnitCompare a b <= 0 -> codeUnitCompare b c <= 0 -> codeUnitCompare a c <= 0.
Proof.
  revert b c. induction a as [|x a IH]; intros [|y b] [|z c]; simpl; try lia.
  destruct (N.compare_spec x y) as [->|Hxy|Hxy]; try lia.
  - destruct (N.compare_spec y z) as [->|Hyz|Hyz]; try lia. apply IH.
  - destruct (N.compare_spec y z) as [->|Hyz|Hyz]; try lia.
    + intros _ _. destruct (N.compare_spec x z); lia.
    + intros _ _. destruct (N.compare_spec x z); lia.
Qed.

Section MergeOrder.
Variable localeCompare : jsstring -> jsstring -> Z.
Hypothesis collation_total :
  forall a b, localeCompare a b <= 0 \/ localeCompare b a <= 0.
Hypothesis collation_trans :
  forall a b c, localeCompare a b <= 0 -> localeCompare b c <= 0 -> localeCompare a c <= 0.

Lemma tupleLe_total (a b : Message.t) :
  Messages.tupleLe localeCompare a b \/ Messages.tupleLe localeCompare b a.
Proof using collation_total.
  unfold Messages.tupleLe.
  destruct (collation_total (Message.id a) (Message.id b)); lia.
Qed.

Lemma tupleLe_trans (a b c : Message.t) :
  Messages.tupleLe localeCompare a b -> Messages.tupleLe localeCompare b c ->
  Messages.tupleLe localeCompare a c.
Proof using collation_trans.
  unfold Messages.tupleLe.
  pose proof (collation_trans (Message.id a) (Message.id b) (Message.id c)). lia.
Qed.

Lemma compareMessages_total (a b : Message.t) :
  Messages.compareMessages localeCompare a b <= 0
  \/ Messages.compareMessages localeCompare b a <= 0.
Proof using collation_total.
  rewrite !compareMessages_le_iff. apply tupleLe_total.
Qed.

Lemma compareMessages_trans (a b c : Message.t) :
  Messages.compareMessages localeCompare a b <= 0 ->
  Messages.compareMessages localeCompare b c <= 0 ->
  Messages.compareMessages localeCompare a c <= 0.
Proof using collation_trans.
  rewrite !compareMessages_le_iff. apply tupleLe_trans.
Qed.

Lemma sortMessages_perm (l : list Message.t) :
  Permutation (Messages.sortMessages localeCompare l) l.
Proof. apply arraySort_perm. Qed.

Lemma sortMessages_strongly_sorted (l : list Message.t) :
  StronglySorted (Messages.tupleLe localeCompare) (Messages.sortMessages localeCompare l).
Proof using collation_total collation_trans.
  eapply StronglySorted_weaken;
    [|apply (arraySort_strongly_sorted _ compareMessages_total compareMessages_trans)].
  intros a b. apply compareMessages_le_iff.
Qed.
End MergeOrder.

Lemma foldMessage_keyed (m : list (jsstring * Message.t)) (message : Message.t) :
  Messages.keyedByIdentity m -> Messages.keyedByIdentity (Messages.foldMessage m message).
Proof.
  intros [Hkeys Hnd]. unfold Messages.foldMessage.
  assert (Hset : forall v, Messages.stableClientKey v = Messages.stableClientKey message ->
            Messages.keyedByIdentity (mapSet (Messages.stableClientKey message) v m)).
  { intros v Hv. split; [|by apply mapSet_NoDup].
    rewrite List.Forall_forall in *. intros e He.
    destruct (mapSet_In _ _ _ _ He) as [->|Hin]; [done | by apply Hkeys]. }
  destruct (mapGet (Messages.stableClientKey message) m) as [existing|] eqn:Hget.
  - apply Hset. rewrite mergeMessageState_cases.
    destruct (Messages.isSent existing && negb (Messages.isSent message)); [|done].
    apply mapGet_In in Hget. rewrite List.Forall_forall in Hkeys.
    apply (Hkeys _ Hget).
  - by apply Hset.
Qed.

Lemma foldSets_keyed (sets : list (option (list Message.t))) :
  Messages.keyedByIdentity (Messages.foldSets sets).
Proof.
  rewrite foldSets_visited.
  assert (Hnil : Messages.keyedByIdentity []) by (split; constructor).
  revert Hnil. generalize (@nil (jsstring * Message.t)).
  induction (Messages.visited sets) as [|x l IH]; intros m Hm; simpl; [done|].
  apply IH. by apply foldMessage_keyed.
Qed.

Lemma keyed_values_keys (m : list (jsstring * Message.t)) :
  Messages.keyedByIdentity m ->
  List.map Messages.stableClientKey (mapValues m) = mapKeys m.
Proof.
  intros [Hkeys _]. unfold mapValues, mapKeys. rewrite List.map_map.
  apply List.map_ext_in. rewrite List.Forall_forall in Hkeys. apply Hkeys.
Qed.

Lemma mergeMessages_keys_NoDup (localeCompare : jsstring -> jsstring -> Z)
    (sets : list (option (list Message.t))) :
  NoDup (List.map Messages.stableClientKey (Messages.mergeMessages localeCompare sets)).
Proof.
  unfold Messages.mergeMessages. apply NoDup_ListNoDup.
  eapply Permutation_NoDup.
  - symmetry. apply Permutation_map. apply sortMessages_perm.
  - rewrite keyed_values_keys by apply foldSets_keyed.
    apply NoDup_ListNoDup. apply (foldSets_keyed sets).
Qed.

Lemma visited_single (l : list Message.t) : Messages.visited [Some l] = l.
Proof. unfold Messages.visited. simpl. apply app_nil_r. Qed.

Lemma mergeMessages_NoDup (localeCompare : jsstring -> jsstring -> Z)
    (sets : list (option (list Message.t))) :
  NoDup (Messages.mergeMessages localeCompare sets).
Proof.
  pose proof (mergeMessages_keys_NoDup localeCompare sets) as Hnd.
  induction (Messages.mergeMessages localeCompare sets) as [|x l IH]; [constructor|].
  simpl in Hnd. apply NoDup_cons in Hnd as [Hnin Hnd]. constructor; [|by apply IH].
  intros Hin%list_elem_of_In. apply Hnin, list_elem_of_In. by apply in_map.
Qed.

(** C4, as stated, fails in its middle clause: the triple (createdAt, seq,
    id) is not a total order on the output. Two messages with one id, one
    createdAt and one seq but different client ids have different identity
    keys, so both are kept; each is before-or-equal the other, and they come
    out in the order their arguments were passed. *)
Lemma merge_output_entries_can_tie :
  let first := Messages.testMessage "x" "c1" 5 5 Sent in
  let second := Messages.testMessage "x" "c2" 5 5 Sent in
  Messages.mergeMessages codeUnitCompare [Some [first]; Some [second]] = [first; second]
  /\ Messages.mergeMessages codeUnitCompare [Some [second]; Some [first]] = [second; first]
  /\ first <> second
  /\ Messages.stableClientKey first <> Messages.stableClientKey second
  /\ Messages.tupleLe codeUnitCompare first second
  /\ Messages.tupleLe codeUnitCompare second first.
Proof.
  intros first second.
  split; [reflexivity|]. split; [reflexivity|].
  split; [discriminate|]. split; [discriminate|].
  unfold Messages.tupleLe. simpl. lia.
Qed.

Lemma tupleLe_tie (localeCompare : jsstring -> jsstring -> Z) (a b : Message.t) :
  Messages.tupleLe localeCompare a b /\ Messages.tupleLe localeCompare b a
  <-> Message.createdAt a = Message.createdAt b
      /\ Message.seq a = Message.seq b
      /\ localeCompare (Message.id a) (Message.id b) <= 0
      /\ localeCompare (Message.id b) (Message.id a) <= 0.
Proof. unfold Messages.tupleLe. lia. Qed.

(** C4, amended: for every collation that is a consistent comparator, the
    output of a merge is sorted by (createdAt, seq, id): every adjacent pair,
    and hence every earlier/later pair, is non-decreasing; the order compares
    any two messages and is transitive, so it is a total preorder; and no two
    output entries share an identity key. Two messages tie in it exactly when
    they have the same createdAt and seq and ids that the collation does not
    separate; when no two different output entries tie, the output is
    strictly increasing, and only then is the order a total order on it. *)
Theorem merge_output_sorted_up_to_ties
    (localeCompare : jsstring -> jsstring -> Z)
    (collation_total : forall a b, localeCompare a b <= 0 \/ localeCompare b a <= 0)
    (collation_trans : forall a b c,
        localeCompare a b <= 0 -> localeCompare b c <= 0 -> localeCompare a c <= 0)
    (sets : list (option (list Message.t))) :
  let output := Messages.mergeMessages localeCompare sets in
  Sorted (Messages.tupleLe localeCompare) output
  /\ StronglySorted (Messages.tupleLe localeCompare) output
  /\ (forall a b, Messages.tupleLe localeCompare a b \/ Messages.tupleLe localeCompare b a)
  /\ (forall a b c, Messages.tupleLe localeCompare a b ->
                    Messages.tupleLe localeCompare b c ->
                    Messages.tupleLe localeCompare a c)
  /\ NoDup (List.map Messages.stableClientKey output)
  /\ (forall a b,
        Messages.tupleLe localeCompare a b /\ Messages.tupleLe localeCompare b a
        <-> Message.createdAt a = Message.createdAt b
            /\ Message.seq a = Message.seq b
            /\ localeCompare (Message.id a) (Message.id b) <= 0
            /\ localeCompare (Message.id b) (Message.id a) <= 0)
  /\ ((forall a b, In a output -> In b output ->
         Messages.tupleLe localeCompare a b -> Messages.tupleLe localeCompare b a ->
         a = b)
      <-> StronglySorted (MergeWinner.tupleLt localeCompare) output).
Proof.
  intros output.
  assert (Hss : StronglySorted (Messages.tupleLe localeCompare) output)
    by by apply sortMessages_strongly_sorted.
  split; [by apply StronglySorted_Sorted|]. split; [done|].
  split; [intros a b; by apply tupleLe_total|].
  split; [intros a b c; by apply tupleLe_trans|].
  split; [apply mergeMessages_keys_NoDup|].
  split; [intros a b; apply tupleLe_tie|].
  pose proof (mergeMessages_NoDup localeCompare sets) as Hnd. fold output in Hnd.
  clearbody output. split.
  - intros Hties. induction Hss as [|x l Hss IH Hall]; constructor.
    + apply NoDup_cons in Hnd as [_ Hnd]. apply IH; try done.
      intros a b Ha Hb. apply Hties; by right.
    + apply NoDup_cons in Hnd as [Hnin _].
      rewrite List.Forall_forall in *. intros y Hy. split; [by apply Hall|].
      intros Hyx. apply Hnin, list_elem_of_In.
      rewrite (Hties x y); [done | by left | by right | by apply Hall | done].
  - intros Hstrict a b Ha Hb Hab Hba.
    induction Hstrict as [|x l Hstrict IH Hall]; [done|].
    apply NoDup_cons in Hnd as [_ Hnd]. apply StronglySorted_inv in Hss as [Hss _].
    rewrite List.Forall_forall in Hall.
    destruct Ha as [<-|Ha], Hb as [<-|Hb]; try done.
    + by destruct (Hall b Hb).
    + by destruct (Hall a Ha).
    + by apply IH.
Qed.

(** The first scenario of the specification under the code-unit collation:
    paged [m2; m3] and realtime [m1; m2-confirmed] merge to a sorted output
    with distinct keys, namely m1, m2-confirmed, m3. *)
Lemma merge_output_sorted_up_to_ties_scenario :
  let paged := [Messages.testMessage "m2" "c2" 2 2 Sent;
                Messages.testMessage "m3" "c3" 3 3 Sent] in
  let realtime := [Messages.testMessage "m1" "c1" 1 1 Sent;
                   Messages.testMessage "m2-confirmed" "c2" 2 2 Sent] in
  let output := Messages.mergeMessages codeUnitCompare [Some paged; Some realtime] in
  List.map Message.id output = [lit "m1"; lit "m2-confirmed"; lit "m3"]
  /\ Sorted (Messages.tupleLe codeUnitCompare) output
  /\ NoDup (List.map Messages.stableClientKey output).
Proof.
  intros paged realtime output.
  split; [reflexivity|].
  destruct (merge_output_sorted_up_to_ties codeUnitCompare
              codeUnitCompare_total codeUnitCompare_trans
              [Some paged; Some realtime]) as (Hs & _ & _ & _ & Hnd & _).
  split; [exact Hs | exact Hnd].
Defined.

Lemma visited_sameSet (sets1 sets2 : list (option (list Message.t))) :
  Forall2 Messages.sameSet sets1 sets2 ->
  Permutation (Messages.visited sets1) (Messages.visited sets2).
Proof.
  unfold Messages.visited.
  induction 1 as [|a b sets1 sets2 Hab _ IH]; simpl; [done|].
  apply Permutation_app; [|done].
  destruct a, b; simpl in *; done.
Qed.

Lemma visited_Permutation (sets1 sets2 : list (option (list Message.t))) :
  Permutation sets1 sets2 ->
  Permutation (Messages.visited sets1) (Messages.visited sets2).
Proof.
  unfold Messages.visited.
  induction 1 as [|a l1 l2 _ IH|a b l|l1 l2 l3 _ IH1 _ IH2]; simpl.
  - done.
  - by apply Permutation_app_head.
  - rewrite !app_assoc. apply Permutation_app_tail, Permutation_app_comm.
  - by etransitivity.
Qed.

Lemma visited_reordered (sets1 sets2 : list (option (list Message.t))) :
  Messages.reordered sets1 sets2 ->
  Permutation (Messages.visited sets1) (Messages.visited sets2).
Proof.
  intros (sets' & Hsame & Hperm).
  etransitivity; [by apply visited_sameSet | by apply visited_Permutation].
Qed.

(** Messages with pairwise distinct keys, none of them in the map yet, are
    appended to the map in the order they are visited. *)
Lemma fold_distinct_keys (l : list Message.t) (m : list (jsstring * Message.t)) :
  NoDup (mapKeys m ++ List.map Messages.stableClientKey l) ->
  fold_left Messages.foldMessage l m
  = m ++ List.map (fun x => (Messages.stableClientKey x, x)) l.
Proof.
  revert m. induction l as [|x l IH]; intros m Hnd; simpl.
  - by rewrite app_nil_r.
  - assert (Hnin : ~ In (Messages.stableClientKey x) (mapKeys m)).
    { apply NoDup_app in Hnd as (_ & Hdisj & _). intros Hin.
      apply list_elem_of_In in Hin. apply (Hdisj _ Hin). by left. }
    assert (Hget : mapGet (Messages.stableClientKey x) m = None).
    { destruct (mapGet (Messages.stableClientKey x) m) eqn:E; [|done].
      exfalso. apply Hnin. apply mapGet_In_keys. by rewrite E. }
    unfold Messages.foldMessage at 2. rewrite Hget.
    rewrite mapKeys_mapSet_absent by done.
    rewrite IH.
    + by rewrite <- app_assoc.
    + unfold mapKeys in *. rewrite List.map_app. simpl.
      by rewrite <- app_assoc.
Qed.

Lemma mergeMessages_distinct_keys (localeCompare : jsstring -> jsstring -> Z)
    (sets : list (option (list Message.t))) :
  NoDup (List.map Messages.stableClientKey (Messages.visited sets)) ->
  Messages.mergeMessages localeCompare sets
  = Messages.sortMessages localeCompare (Messages.visited sets).
Proof.
  intros Hnd. unfold Messages.mergeMessages.
  rewrite foldSets_visited, fold_distinct_keys by done.
  simpl. unfold mapValues. rewrite List.map_map. simpl. by rewrite List.map_id.
Qed.

(** C3, as stated, fails: two "sent" messages with one identity key are
    merged to whichever is folded last, so swapping the two argument sets
    changes the output. *)
Lemma merge_depends_on_argument_order :
  let first := Messages.testMessage "m2" "c2" 2 2 Sent in
  let second := Messages.testMessage "m2-confirmed" "c2" 2 2 Sent in
  Messages.reordered [Some [first]; Some [second]] [Some [second]; Some [first]]
  /\ Messages.mergeMessages codeUnitCompare [Some [first]; Some [second]] = [second]
  /\ Messages.mergeMessages codeUnitCompare [Some [second]; Some [first]] = [first]
  /\ Messages.mergeMessages codeUnitCompare [Some [first]; Some [second]]
     <> Messages.mergeMessages codeUnitCompare [Some [second]; Some [first]].
Proof.
  intros first second. split.
  - exists [Some [first]; Some [second]]. split.
    + repeat constructor.
    + apply perm_swap.
  - split; [reflexivity|]. split; [reflexivity|]. discriminate.
Qed.

(** ** utils/messages.ts: which message a key keeps *)

Lemma filter_isSent_nil (l : list Message.t) :
  List.filter Messages.isSent l = [] -> forall c, In c l -> Messages.isSent c = false.
Proof.
  intros Hnil c Hc. destruct (Messages.isSent c) eqn:Hsent; [|done].
  assert (Hin : In c (List.filter Messages.isSent l)) by (apply filter_In; done).
  by rewrite Hnil in Hin.
Qed.

Lemma last_In {A : Type} (l : list A) (x : A) : last l = Some x -> In x l.
Proof.
  intros Hlast. apply last_Some in Hlast as [l' ->]. apply in_or_app. right. by left.
Qed.

Lemma winner_snoc_other (key : jsstring) (l : list Message.t) (x : Message.t) :
  Messages.stableClientKey x <> key ->
  MergeWinner.winner key (l ++ [x]) = MergeWinner.winner key l.
Proof.
  intros Hne. unfold MergeWinner.winner. rewrite List.filter_app. simpl.
  rewrite bool_decide_eq_false_2 by done. by rewrite app_nil_r.
Qed.

Lemma winner_snoc_same (l : list Message.t) (x : Message.t) :
  MergeWinner.winner (Messages.stableClientKey x) (l ++ [x])
  = match MergeWinner.winner (Messages.stableClientKey x) l with
    | Some existing => Some (Messages.mergeMessageState existing x)
    | None => Some x
    end.
Proof.
  unfold MergeWinner.winner. rewrite List.filter_app. simpl.
  rewrite bool_decide_eq_true_2 by done.
  set (ofKey := List.filter _ l).
  rewrite List.filter_app. simpl.
  destruct (Messages.isSent x) eqn:Hx.
  - rewrite last_snoc.
    destruct (last (List.filter Messages.isSent ofKey)) as [s|];
      [|destruct (last ofKey)]; try done;
      rewrite mergeMessageState_cases, Hx; simpl; by rewrite andb_false_r.
  - rewrite app_nil_r, last_snoc.
    destruct (last (List.filter Messages.isSent ofKey)) as [s|] eqn:Hs.
    + rewrite mergeMessageState_cases, Hx.
      apply last_In, filter_In in Hs as [_ Hsent]. by rewrite Hsent.
    + apply last_None in Hs.
      destruct (last ofKey) as [e|] eqn:He; [|done].
      rewrite mergeMessageState_cases.
      by rewrite (filter_isSent_nil _ Hs e (last_In _ _ He)).
Qed.

(** The fold computes the winner of every key. *)
Lemma fold_winner (l : list Message.t) (key : jsstring) :
  mapGet key (fold_left Messages.foldMessage l []) = MergeWinner.winner key l.
Proof.
  induction l as [|x l IH] using rev_ind; [done|].
  rewrite fold_left_app. simpl. unfold Messages.foldMessage.
  destruct (decide (Messages.stableClientKey x = key)) as [<-|Hne].
  - rewrite winner_snoc_same, <- IH.
    destruct (mapGet _ _); by rewrite mapGet_mapSet_eq.
  - rewrite winner_snoc_other by done. rewrite <- IH.
    destruct (mapGet (Messages.stableClientKey x) _); by rewrite mapGet_mapSet_ne.
Qed.

Lemma contender_spec (l : list Message.t) (a : Message.t) :
  MergeWinner.contender l a = true
  <-> Messages.isSent a = true
      \/ forall c, In c l -> Messages.stableClientKey c = Messages.stableClientKey a ->
                   Messages.isSent c = false.
Proof.
  unfold MergeWinner.contender. rewrite orb_true_iff, forallb_forall.
  split; (intros [Hsent|Hnone]; [by left|right]).
  - intros c Hc Hkey. specialize (Hnone c Hc).
    rewrite bool_decide_eq_true_2 in Hnone by done. simpl in Hnone.
    by destruct (Messages.isSent c).
  - intros c Hc. case_bool_decide as Hkey; [|done]. simpl.
    by rewrite (Hnone c Hc Hkey).
Qed.

Lemma contender_perm (l1 l2 : list Message.t) (a : Message.t) :
  Permutation l1 l2 -> MergeWinner.contender l1 a = MergeWinner.contender l2 a.
Proof.
  intros Hperm.
  destruct (MergeWinner.contender l2 a) eqn:H2.
  - apply contender_spec. apply contender_spec in H2 as [?|Hnone]; [by left|right].
    intros c Hc. apply Hnone. by eapply Permutation_in.
  - destruct (MergeWinner.contender l1 a) eqn:H1; [|done].
    rewrite <- H2. symmetry. apply contender_spec.
    apply contender_spec in H1 as [?|Hnone]; [by left|right].
    intros c Hc. apply Hnone. eapply Permutation_in; [|exact Hc]. by symmetry.
Qed.

Lemma winner_Some (key : jsstring) (l : list Message.t) (w : Message.t) :
  MergeWinner.winner key l = Some w ->
  In w l /\ Messages.stableClientKey w = key /\ MergeWinner.contender l w = true.
Proof.
  unfold MergeWinner.winner.
  set (ofKey := List.filter _ l).
  assert (HofKey : forall c, In c ofKey <-> In c l /\ Messages.stableClientKey c = key).
  { intros c. unfold ofKey. rewrite filter_In, bool_decide_eq_true. done. }
  destruct (last (List.filter Messages.isSent ofKey)) as [s|] eqn:Hs.
  - intros [= <-]. apply last_In, filter_In in Hs as [Hin Hsent].
    apply HofKey in Hin as [Hin Hkey]. split; [done|]. split; [done|].
    apply contender_spec. by left.
  - intros Hlast. apply last_None in Hs. apply last_In, HofKey in Hlast as [Hin Hkey].
    split; [done|]. split; [done|].
    apply contender_spec. right. intros c Hc Hc_key.
    apply (filter_isSent_nil _ Hs). apply HofKey. split; [done|]. congruence.
Qed.

Lemma winner_None (key : jsstring) (l : list Message.t) :
  MergeWinner.winner key l = None ->
  forall c, In c l -> Messages.stableClientKey c <> key.
Proof.
  unfold MergeWinner.winner.
  destruct (last (List.filter Messages.isSent _)); [done|].
  intros Hlast c Hc Hkey. apply last_None in Hlast.
  assert (Hin : In c (List.filter
                        (fun m => bool_decide (Messages.stableClientKey m = key)) l)).
  { apply filter_In. split; [done|]. by apply bool_decide_eq_true. }
  by rewrite Hlast in Hin.
Qed.

Lemma winner_is_Some (key : jsstring) (l : list Message.t) (c : Message.t) :
  In c l -> Messages.stableClientKey c = key -> is_Some (MergeWinner.winner key l).
Proof.
  intros Hc Hkey. destruct (MergeWinner.winner key l) eqn:Hw; [by eexists|].
  exfalso. by apply (winner_None _ _ Hw c Hc).
Qed.

(** With unambiguous contenders the winner of a key does not depend on the
    order of visiting. *)
Lemma winner_perm (key : jsstring) (l1 l2 : list Message.t) :
  Permutation l1 l2 -> MergeWinner.unambiguous l1 ->
  MergeWinner.winner key l1 = MergeWinner.winner key l2.
Proof.
  intros Hperm Hunamb.
  destruct (MergeWinner.winner key l1) as [w1|] eqn:H1.
  - apply winner_Some in H1 as (Hin1 & Hkey1 & Hc1).
    destruct (winner_is_Some key l2 w1) as [w2 H2];
      [by eapply Permutation_in | done |].
    rewrite H2. apply winner_Some in H2 as (Hin2 & Hkey2 & Hc2).
    f_equal. apply Hunamb; try done.
    + eapply Permutation_in; [|exact Hin2]. by symmetry.
    + congruence.
    + by rewrite (contender_perm l1 l2).
  - destruct (MergeWinner.winner key l2) as [w2|] eqn:H2; [|done].
    apply winner_Some in H2 as (Hin2 & Hkey2 & _).
    exfalso. apply (winner_None _ _ H1 w2); [|done].
    eapply Permutation_in; [|exact Hin2]. by symmetry.
Qed.

Lemma NoDup_of_keys {V : Type} (m : list (jsstring * V)) :
  NoDup (mapKeys m) -> NoDup m.
Proof.
  induction m as [|[k v] m IH]; simpl; [constructor|].
  intros [Hnin Hnd]%NoDup_cons. constructor; [|by apply IH].
  intros Hin%list_elem_of_In. apply Hnin, list_elem_of_In.
  unfold mapKeys. change k with (fst (k, v)). by apply in_map.
Qed.

(** Two maps with distinct keys that answer every lookup alike hold the same
    entries. *)
Lemma maps_with_same_lookups {V : Type} (m1 m2 : list (jsstring * V)) :
  NoDup (mapKeys m1) -> NoDup (mapKeys m2) ->
  (forall k, mapGet k m1 = mapGet k m2) ->
  Permutation m1 m2.
Proof.
  intros Hnd1 Hnd2 Hget. apply NoDup_Permutation; try by apply NoDup_of_keys.
  intros [k v]. rewrite !list_elem_of_In. split; intros Hin.
  - apply mapGet_In. rewrite <- Hget. by apply mapGet_of_In.
  - apply mapGet_In. rewrite Hget. by apply mapGet_of_In.
Qed.

Lemma fold_keyed (l : list Message.t) :
  Messages.keyedByIdentity (fold_left Messages.foldMessage l []).
Proof.
  rewrite <- (visited_single l), <- foldSets_visited. apply foldSets_keyed.
Qed.

(** The entries of the output are the winners of the keys. *)
Lemma mergeMessages_winners (localeCompare : jsstring -> jsstring -> Z)
    (sets : list (option (list Message.t))) (m : Message.t) :
  In m (Messages.mergeMessages localeCompare sets)
  <-> MergeWinner.winner (Messages.stableClientKey m) (Messages.visited sets) = Some m.
Proof.
  unfold Messages.mergeMessages. rewrite foldSets_visited.
  pose proof (fold_keyed (Messages.visited sets)) as [Hkeyed Hnd].
  rewrite <- fold_winner. split.
  - intros Hin. apply (Permutation_in _ (sortMessages_perm _ _)) in Hin.
    unfold mapValues in Hin. apply in_map_iff in Hin as ([k v] & <- & Hin).
    rewrite List.Forall_forall in Hkeyed. rewrite (Hkeyed _ Hin). simpl.
    by apply mapGet_of_In.
  - intros Hget. apply mapGet_In in Hget.
    apply (Permutation_in _ (Permutation_sym (sortMessages_perm _ _))).
    unfold mapValues. change m with (snd (Messages.stableClientKey m, m)).
    by apply in_map.
Qed.

Lemma visited_app (sets1 sets2 : list (option (list Message.t))) :
  Messages.visited (sets1 ++ sets2) = Messages.visited sets1 ++ Messages.visited sets2.
Proof. unfold Messages.visited. by rewrite List.map_app, concat_app. Qed.

Lemma sameSet_refl (sets : list (option (list Message.t))) :
  Forall2 Messages.sameSet sets sets.
Proof.
  induction sets as [|[l|] sets IH]; constructor; try done.
  simpl. apply Permutation_refl.
Qed.

(** Any visited message can be made the last one visited. *)
Lemma visit_last (sets : list (option (list Message.t))) (a : Message.t) :
  In a (Messages.visited sets) ->
  exists sets' l, Messages.reordered sets sets' /\ Messages.visited sets' = l ++ [a].
Proof.
  unfold Messages.visited at 1.
  induction sets as [|set sets IH]; simpl; [done|].
  intros [Hin|Hin]%in_app_or.
  - destruct set as [messages|]; [|done]. simpl in Hin.
    apply in_split in Hin as (x & y & ->).
    exists (sets ++ [Some (x ++ y ++ [a])]), (Messages.visited sets ++ x ++ y).
    split.
    + exists (Some (x ++ y ++ [a]) :: sets). split.
      * constructor; [|apply sameSet_refl]. simpl.
        apply Permutation_app_head, Permutation_cons_append.
      * apply Permutation_cons_append.
    + rewrite visited_app. unfold Messages.visited at 2. simpl.
      by rewrite app_nil_r, <- !app_assoc.
  - destruct (IH Hin) as (sets' & l & (mid & Hsame & Hperm) & Hvisited).
    exists (set :: sets'), (default [] set ++ l). split.
    + exists (set :: mid). split.
      * constructor; [|done]. destruct set; simpl; [apply Permutation_refl | done].
      * by constructor.
    + unfold Messages.visited in *. simpl. by rewrite Hvisited, app_assoc.
Qed.

Lemma winner_last_contender (l : list Message.t) (a : Message.t) :
  MergeWinner.contender (l ++ [a]) a = true ->
  MergeWinner.winner (Messages.stableClientKey a) (l ++ [a]) = Some a.
Proof.
  intros Hc. rewrite winner_snoc_same.
  destruct (MergeWinner.winner _ l) as [e|] eqn:He; [|done].
  rewrite mergeMessageState_cases.
  apply winner_Some in He as (Hin & Hkey & _).
  apply contender_spec in Hc as [Hsent|Hnone].
  - by rewrite Hsent, andb_false_r.
  - rewrite (Hnone e); [done | apply in_or_app; by left | done].
Qed.

(** A contender that is not the entry kept for its key is kept by another
    order of the same arguments. *)
Lemma contender_can_win (localeCompare : jsstring -> jsstring -> Z)
    (sets : list (option (list Message.t))) (a : Message.t) :
  In a (Messages.visited sets) ->
  MergeWinner.contender (Messages.visited sets) a = true ->
  exists sets', Messages.reordered sets sets'
                /\ In a (Messages.mergeMessages localeCompare sets').
Proof.
  intros Hin Hc. destruct (visit_last _ _ Hin) as (sets' & l & Hre & Hvisited).
  exists sets'. split; [done|]. apply mergeMessages_winners.
  rewrite Hvisited. apply winner_last_contender.
  rewrite <- Hvisited, <- (contender_perm _ _ _ (visited_reordered _ _ Hre)). done.
Qed.

(** Any visited message can be made the first one visited. *)
Lemma visit_first (sets : list (option (list Message.t))) (a : Message.t) :
  In a (Messages.visited sets) ->
  exists sets' l, Messages.reordered sets sets' /\ Messages.visited sets' = a :: l.
Proof.
  unfold Messages.visited at 1.
  induction sets as [|set sets IH]; simpl; [done|].
  intros [Hin|Hin]%in_app_or.
  - destruct set as [messages|]; [|done]. simpl in Hin.
    apply in_split in Hin as (x & y & ->).
    exists (Some (a :: x ++ y) :: sets), (x ++ y ++ Messages.visited sets).
    split.
    + exists (Some (a :: x ++ y) :: sets). split; [|done].
      constructor; [|apply sameSet_refl]. simpl.
      symmetry. apply Permutation_middle.
    + unfold Messages.visited. simpl. by rewrite <- app_assoc.
  - destruct (IH Hin) as (sets' & l & (mid & Hsame & Hperm) & Hvisited).
    exists (sets' ++ [set]), (l ++ default [] set). split.
    + exists (set :: mid). split.
      * constructor; [|done]. destruct set; simpl; [apply Permutation_refl | done].
      * etransitivity; [|apply Permutation_cons_append]. by constructor.
    + rewrite visited_app, Hvisited. unfold Messages.visited. simpl.
      by rewrite app_nil_r.
Qed.

(** The key visited first stays first in the map. *)
Lemma fold_head_key (l : list Message.t) (k : jsstring) (v : Message.t)
    (m : list (jsstring * Message.t)) :
  exists v' m', fold_left Messages.foldMessage l ((k, v) :: m) = (k, v') :: m'.
Proof.
  revert v m. induction l as [|x l IH]; intros v m; simpl; [by eexists _, _|].
  unfold Messages.foldMessage at 2. simpl.
  destruct (decide (k = Messages.stableClientKey x)) as [->|Hne]; simpl.
  - apply IH.
  - destruct (mapGet _ m); apply IH.
Qed.

Section Stability.
Context {A : Type} (cmp : A -> A -> Z).

(** An inserted element lands before every element it may precede. *)
Lemma sortInsert_before (x y : A) (l : list A) :
  cmp x y <= 0 -> In y l ->
  exists l1 l2, sortInsert cmp x l = l1 ++ x :: l2 /\ In y l2.
Proof.
  intros Hxy. induction l as [|z l IH]; simpl; [done|]. intros Hin.
  destruct (Z.leb_spec (cmp x z) 0) as [Hle|Hgt].
  - by exists [], (z :: l).
  - destruct Hin as [->|Hin]; [lia|].
    destruct (IH Hin) as (l1 & l2 & -> & Hy). by exists (z :: l1), l2.
Qed.
End Stability.

Lemma NoDup_one_order {A : Type} (l l1 l2 l1' l2' : list A) (a b : A) :
  NoDup l -> l = l1 ++ b :: l2 -> In a l2 -> l = l1' ++ a :: l2' -> In b l2' -> False.
Proof.
  revert l l1'. induction l1 as [|z l1 IH]; intros l l1' Hnd -> Ha Heq Hb.
  - destruct l1' as [|z' l1']; simpl in Heq; inversion Heq; subst.
    + apply NoDup_cons in Hnd as [Hnin _]. by apply Hnin, list_elem_of_In.
    + apply NoDup_cons in Hnd as [Hnin _]. apply Hnin, list_elem_of_In.
      apply in_or_app. right. by right.
  - destruct l1' as [|z' l1']; simpl in Heq; inversion Heq; subst.
    + apply NoDup_cons in Hnd as [Hnin _]. apply Hnin, list_elem_of_In.
      apply in_or_app. right. by right.
    + apply NoDup_cons in Hnd as [_ Hnd]. by eapply (IH _ l1').
Qed.

(** A contender whose key is visited first comes out before every other
    entry it ties with or precedes. *)
Lemma contender_can_come_first (localeCompare : jsstring -> jsstring -> Z)
    (sets : list (option (list Message.t))) (a b : Message.t) :
  MergeWinner.unambiguous (Messages.visited sets) ->
  In a (Messages.visited sets) -> In b (Messages.visited sets) ->
  MergeWinner.contender (Messages.visited sets) a = true ->
  MergeWinner.contender (Messages.visited sets) b = true ->
  a <> b ->
  Messages.tupleLe localeCompare b a ->
  exists sets' l1 l2,
    Messages.reordered sets sets'
    /\ Messages.mergeMessages localeCompare sets' = l1 ++ b :: l2 /\ In a l2.
Proof.
  intros Hunamb Ha Hb Hca Hcb Hne Hle.
  destruct (visit_first _ _ Hb) as (sets' & l & Hre & Hvisited).
  pose proof (visited_reordered _ _ Hre) as Hperm.
  assert (Hwin : forall c, In c (Messages.visited sets) ->
            MergeWinner.contender (Messages.visited sets) c = true ->
            MergeWinner.winner (Messages.stableClientKey c) (Messages.visited sets')
            = Some c).
  { intros c Hc Hcc. rewrite <- (winner_perm _ _ _ Hperm Hunamb).
    destruct (winner_is_Some (Messages.stableClientKey c) _ c Hc eq_refl) as [w Hw].
    rewrite Hw. f_equal. apply winner_Some in Hw as (Hin & Hkey & Hcw).
    by apply Hunamb. }
  assert (Hout : In a (Messages.mergeMessages localeCompare sets'))
    by (apply mergeMessages_winners; by apply Hwin).
  assert (Hfold : exists m',
            fold_left Messages.foldMessage (Messages.visited sets') []
            = (Messages.stableClientKey b, b) :: m').
  { pose proof (fold_winner (Messages.visited sets') (Messages.stableClientKey b))
      as Hget.
    rewrite Hwin in Hget by done. revert Hget. rewrite Hvisited. simpl.
    change (Messages.foldMessage [] b) with [(Messages.stableClientKey b, b)].
    destruct (fold_head_key l (Messages.stableClientKey b) b []) as (v' & m' & ->).
    simpl. rewrite decide_True by done. intros [= ->]. by exists m'. }
  destruct Hfold as [m' Hfold].
  exists sets'. revert Hout. unfold Messages.mergeMessages, Messages.sortMessages.
  rewrite foldSets_visited, Hfold. simpl. intros Hout.
  apply (Permutation_in _ (sortInsert_perm _ _ _)) in Hout.
  destruct Hout as [Heq|Hout]; [done|].
  destruct (sortInsert_before (Messages.compareMessages localeCompare) b a _
              (proj2 (compareMessages_le_iff _ _ _) Hle) Hout) as (l1 & l2 & Hsplit & Hin).
  exists l1, l2. by repeat split.
Qed.

(** C3, amended. The output holds, for each identity key of the inputs, the
    winner of that key: the last "sent" message of the key in visiting order,
    or the last message of the key when none of them is "sent". Hence the
    output is the same for every permutation of the argument sets and of the
    messages inside each set exactly when (a) for each key the messages that
    can win it are one and the same message, where a message can win if it is
    "sent" or no message of its key is (so a "sending" placeholder beside the
    "sent" message of its key is harmless), and (b) no two different such
    messages tie in the order (createdAt, seq, id). When either fails, some
    reordering of the same arguments gives a different output. *)
Theorem merge_order_independent_iff_one_winner
    (localeCompare : jsstring -> jsstring -> Z)
    (collation_total : forall a b, localeCompare a b <= 0 \/ localeCompare b a <= 0)
    (collation_trans : forall a b c,
        localeCompare a b <= 0 -> localeCompare b c <= 0 -> localeCompare a c <= 0)
    (sets1 : list (option (list Message.t))) :
  let inputs := Messages.visited sets1 in
  (forall m, In m (Messages.mergeMessages localeCompare sets1)
             <-> MergeWinner.winner (Messages.stableClientKey m) inputs = Some m)
  /\ ((forall sets2, Messages.reordered sets1 sets2 ->
         Messages.mergeMessages localeCompare sets1
         = Messages.mergeMessages localeCompare sets2)
      <-> MergeWinner.unambiguous inputs /\ MergeWinner.tieFree localeCompare inputs).
Proof.
  intros inputs. split; [intros m; apply mergeMessages_winners|]. split.
  - intros Hsame.
    assert (Hunamb : MergeWinner.unambiguous inputs).
    { intros a b Ha Hb Hkey Hca Hcb.
      destruct (decide (a = b)) as [|Hne]; [done|]. exfalso.
      destruct (winner_is_Some (Messages.stableClientKey a) inputs a Ha eq_refl)
        as [w Hw].
      assert (Hother : exists c, In c inputs /\ MergeWinner.contender inputs c = true
                         /\ Messages.stableClientKey c = Messages.stableClientKey a
                         /\ c <> w).
      { destruct (decide (a = w)) as [<-|Hdiff].
        - exists b. by repeat split.
        - exists a. by repeat split. }
      destruct Hother as (c & Hc & Hcc & Hckey & Hcw).
      destruct (contender_can_win localeCompare sets1 c Hc Hcc) as (sets2 & Hre & Hin).
      rewrite <- (Hsame sets2 Hre) in Hin.
      apply mergeMessages_winners in Hin. fold inputs in Hin.
      rewrite Hckey, Hw in Hin. apply Hcw. by inversion Hin. }
    split; [done|].
    intros a b Ha Hb Hca Hcb Hab Hba.
    destruct (decide (a = b)) as [|Hne]; [done|]. exfalso.
    destruct (contender_can_come_first localeCompare sets1 a b Hunamb Ha Hb Hca Hcb
                Hne Hba) as (sets2 & l1 & l2 & Hre2 & Hout2 & Hin2).
    destruct (contender_can_come_first localeCompare sets1 b a Hunamb Hb Ha Hcb Hca
                (not_eq_sym Hne) Hab) as (sets3 & l1' & l2' & Hre3 & Hout3 & Hin3).
    rewrite <- (Hsame sets2 Hre2) in Hout2. rewrite <- (Hsame sets3 Hre3) in Hout3.
    apply (NoDup_one_order _ _ _ _ _ a b (mergeMessages_NoDup localeCompare sets1)
             Hout2 Hin2 Hout3 Hin3).
  - intros [Hunamb Hties] sets2 Hre.
    pose proof (visited_reordered _ _ Hre) as Hperm.
    unfold Messages.mergeMessages, Messages.sortMessages. rewrite !foldSets_visited.
    pose proof (fold_keyed (Messages.visited sets1)) as [Hkeyed1 Hnd1].
    pose proof (fold_keyed (Messages.visited sets2)) as [_ Hnd2].
    apply arraySort_perm_invariant.
    + by apply compareMessages_total.
    + by apply compareMessages_trans.
    + intros a b Ha Hb. rewrite !compareMessages_le_iff.
      assert (Hvalue : forall v,
                In v (mapValues (fold_left Messages.foldMessage
                                   (Messages.visited sets1) [])) ->
                In v inputs /\ MergeWinner.contender inputs v = true).
      { intros v Hv. unfold mapValues in Hv.
        apply in_map_iff in Hv as ([k v'] & <- & Hin).
        apply mapGet_of_In in Hin; [|done]. rewrite fold_winner in Hin.
        apply winner_Some in Hin as (? & _ & ?). done. }
      destruct (Hvalue a Ha), (Hvalue b Hb). by apply Hties.
    + unfold mapValues. apply Permutation_map.
      apply maps_with_same_lookups; try done.
      intros k. rewrite !fold_winner. by apply winner_perm.
Qed.

(** The optimistic placeholder of the specification beside its confirmed
    message and one more message: the same output in both argument orders. *)
Lemma merge_order_independent_scenario :
  let optimistic := Messages.testMessage "optimistic-c2" "c2" 200 200 Sending in
  let confirmed := Messages.testMessage "db-c2" "c2" 200 201 Sent in
  let m1 := Messages.testMessage "m1" "c1" 1 1 Sent in
  let sets1 := [Some [optimistic; m1]; Some [confirmed]] in
  let sets2 := [Some [confirmed]; Some [m1; optimistic]] in
  Messages.reordered sets1 sets2
  /\ Messages.stableClientKey optimistic = Messages.stableClientKey confirmed
  /\ Messages.mergeMessages codeUnitCompare sets1 = [m1; confirmed]
  /\ Messages.mergeMessages codeUnitCompare sets1
     = Messages.mergeMessages codeUnitCompare sets2.
Proof.
  intros optimistic confirmed m1 sets1 sets2.
  assert (Hre : Messages.reordered sets1 sets2).
  { exists [Some [m1; optimistic]; Some [confirmed]]. split.
    - constructor; [apply perm_swap|]. constructor; [apply Permutation_refl|constructor].
    - apply perm_swap. }
  split; [exact Hre|]. split; [reflexivity|]. split; [reflexivity|].
  apply (proj2 (proj2 (merge_order_independent_iff_one_winner codeUnitCompare
                         codeUnitCompare_total codeUnitCompare_trans sets1)));
    [|exact Hre].
  split.
  - intros a b Ha Hb Hkey Hca Hcb. simpl in Ha, Hb.
    destruct Ha as [<-|[<-|[<-|[]]]], Hb as [<-|[<-|[<-|[]]]];
      first [reflexivity | discriminate Hca | discriminate Hcb | discriminate Hkey].
  - intros a b Ha Hb Hca Hcb Hab Hba. simpl in Ha, Hb.
    unfold Messages.tupleLe in Hab, Hba.
    destruct Ha as [<-|[<-|[<-|[]]]], Hb as [<-|[<-|[<-|[]]]];
      first [reflexivity | discriminate Hca | discriminate Hcb
            | simpl in Hab, Hba; lia].
Defined.

(** ** liveness.ts *)

Lemma isFresh_true (value : option Z) (now : Z) :
  Liveness.isFresh value now = true
  <-> exists heartbeat, value = Some heartbeat /\ heartbeat <> 0
                        /\ now - heartbeat <= Liveness.HEARTBEAT_TTL_MS.
Proof.
  unfold Liveness.isFresh, truthyNum. destruct value as [v|]; simpl.
  - destruct (Z.eqb_spec v 0) as [->|Hne]; simpl.
    + split; [discriminate|]. intros (h & Hh & Hne & _). by inversion Hh.
    + rewrite Z.leb_le. split.
      * intros Hle. by exists v.
      * intros (h & Hh & _ & Hle). by inversion Hh.
  - split; [discriminate|]. intros (h & Hh & _). discriminate.
Qed.

(** C7, as stated, fails: after a single heartbeat at t=0 on an online,
    subscribed tracker the service is not live at now=1000, although
    now - latestHeartbeatAt = 1000 is within the 20000ms window. *)
Lemma service_not_live_after_heartbeat_at_zero :
  let s := Liveness.afterSingleHeartbeat (lit "thread-1") (lit "visitor-1") 0 in
  Liveness.latestHeartbeatAt s = Some 0
  /\ Liveness.specServiceLive 1000 s
  /\ Liveness.isServiceLive 1000 s = false
  /\ ~ (Liveness.isServiceLive 1000 s = true <-> Liveness.specServiceLive 1000 s).
Proof.
  intros s.
  assert (Hspec : Liveness.specServiceLive 1000 s).
  { split; [reflexivity|]. split; [reflexivity|]. exists 0. split; [reflexivity|].
    unfold Liveness.HEARTBEAT_TTL_MS. lia. }
  split; [reflexivity|]. split; [exact Hspec|]. split; [reflexivity|].
  intros [_ Hback]. specialize (Hback Hspec). discriminate Hback.
Qed.

(** C7, amended: [isServiceLive(now)] holds exactly when the tracker is
    online, the channel is "SUBSCRIBED", and latestHeartbeatAt is a non-zero
    timestamp at most 20000ms before [now]; 20001ms after a single heartbeat
    the service is not live, whatever the time of that heartbeat. *)
Theorem isServiceLive_iff :
  (forall (s : Liveness.t) (now : Z),
     Liveness.isServiceLive now s = true
     <-> Liveness.online s = true
         /\ Liveness.channelStatus s = SUBSCRIBED
         /\ exists heartbeat, Liveness.latestHeartbeatAt s = Some heartbeat
                              /\ heartbeat <> 0 /\ now - heartbeat <= 20000)
  /\ (forall (threadId participantId : jsstring) (t : Z),
        Liveness.isServiceLive (t + 20001)
          (Liveness.afterSingleHeartbeat threadId participantId t) = false).
Proof.
  split.
  - intros s now. unfold Liveness.isServiceLive.
    rewrite !andb_true_iff, bool_decide_eq_true, isFresh_true.
    unfold Liveness.HEARTBEAT_TTL_MS. tauto.
  - intros threadId participantId t.
    apply not_true_iff_false. unfold Liveness.isServiceLive.
    rewrite !andb_true_iff, isFresh_true. intros [_ (h & Hh & Hne & Hle)].
    unfold Liveness.afterSingleHeartbeat, Liveness.upsertHeartbeat in Hh.
    simpl in Hh. rewrite lookup_empty in Hh. simpl in Hh.
    unfold Liveness.HEARTBEAT_TTL_MS in Hle.
    destruct (Z.ltb_spec t 0); simpl in Hh; [discriminate|].
    inversion Hh. lia.
Qed.

Lemma heartbeatLe_refl (a : option Z) : Liveness.heartbeatLe a a.
Proof. destruct a; simpl; [lia|done]. Qed.

Lemma heartbeatLe_trans (a b c : option Z) :
  Liveness.heartbeatLe a b -> Liveness.heartbeatLe b c -> Liveness.heartbeatLe a c.
Proof. destruct a, b, c; simpl; try done; lia. Qed.

Lemma step_latest_monotone (s : Liveness.t) (op : Liveness.Op) :
  Liveness.heartbeatLe (Liveness.latestHeartbeatAt s)
                       (Liveness.latestHeartbeatAt (Liveness.step s op)).
Proof.
  destruct op as [v|c|p a|p]; simpl; try apply heartbeatLe_refl.
  - unfold Liveness.upsertHeartbeat.
    destruct (a <? _); [apply heartbeatLe_refl|]. simpl.
    destruct (Liveness.latestHeartbeatAt s); simpl; [lia|done].
  - unfold Liveness.removeParticipant.
    destruct (negb _); apply heartbeatLe_refl.
Qed.

Lemma run_latest_monotone (ops : list Liveness.Op) (s : Liveness.t) :
  Liveness.heartbeatLe (Liveness.latestHeartbeatAt s)
                       (Liveness.latestHeartbeatAt (Liveness.run ops s)).
Proof.
  revert s. induction ops as [|op ops IH]; intros s; simpl.
  - apply heartbeatLe_refl.
  - eapply heartbeatLe_trans; [apply step_latest_monotone | apply IH].
Qed.

Lemma removeParticipant_spec (participantId : jsstring) (s : Liveness.t) :
  Liveness.latestHeartbeatAt (Liveness.removeParticipant participantId s)
  = Liveness.latestHeartbeatAt s
  /\ Liveness.participantHeartbeats (Liveness.removeParticipant participantId s)
     !! participantId = None.
Proof.
  unfold Liveness.removeParticipant.
  destruct (bool_decide (is_Some (Liveness.participantHeartbeats s !! participantId)))
    eqn:Hhas; simpl.
  - split; [done|]. apply lookup_delete_eq.
  - split; [done|]. apply bool_decide_eq_false in Hhas.
    by apply eq_None_not_Some.
Qed.

(** C10: latestHeartbeatAt never decreases, whatever sequence of operations
    runs; removeParticipant deletes the participant's entry and leaves
    latestHeartbeatAt as it was; so once the only participant, whose heartbeat
    at [t] set latestHeartbeatAt, is removed, the service is still live at
    every [now] with now - t <= 20000. *)
Theorem latest_heartbeat_survives_removal :
  (forall (ops : list Liveness.Op) (s : Liveness.t),
     Liveness.heartbeatLe (Liveness.latestHeartbeatAt s)
                          (Liveness.latestHeartbeatAt (Liveness.run ops s)))
  /\ (forall (p : jsstring) (s : Liveness.t),
        Liveness.latestHeartbeatAt (Liveness.removeParticipant p s)
        = Liveness.latestHeartbeatAt s
        /\ Liveness.participantHeartbeats (Liveness.removeParticipant p s) !! p = None)
  /\ (forall (threadId participantId : jsstring) (t now : Z),
        0 < t -> now - t <= 20000 ->
        let s := Liveness.removeParticipant participantId
                   (Liveness.afterSingleHeartbeat threadId participantId t) in
        Liveness.participantHeartbeats s = ∅
        /\ Liveness.latestHeartbeatAt s = Some t
        /\ Liveness.isParticipantLive participantId now s = false
        /\ Liveness.isServiceLive now s = true).
Proof.
  split; [apply run_latest_monotone|]. split; [apply removeParticipant_spec|].
  intros threadId participantId t now Hpos Hfresh.
  unfold Liveness.afterSingleHeartbeat, Liveness.upsertHeartbeat,
    Liveness.removeParticipant. simpl.
  rewrite lookup_empty. simpl.
  destruct (Z.ltb_spec t 0); [lia|]. simpl.
  rewrite lookup_insert_eq.
  rewrite bool_decide_eq_true_2 by eauto. simpl.
  rewrite delete_insert_eq, delete_empty.
  split; [done|]. split; [f_equal; lia|].
  split.
  - unfold Liveness.isParticipantLive. simpl. by rewrite lookup_empty.
  - unfold Liveness.isServiceLive. simpl.
    apply isFresh_true. exists (Z.max 0 t).
    unfold Liveness.HEARTBEAT_TTL_MS. split; [done|]. lia.
Qed.

(** The repository's removal test, continued: agent-1 beats at 3000000 and is
    removed; one second later the service is still live. *)
Lemma latest_heartbeat_survives_removal_scenario :
  let s := Liveness.removeParticipant (lit "agent-1")
             (Liveness.afterSingleHeartbeat (lit "thread-1") (lit "agent-1") 3000000) in
  0 < 3000000 /\ 3001000 - 3000000 <= 20000
  /\ Liveness.participantHeartbeats s = ∅
  /\ Liveness.isParticipantLive (lit "agent-1") 3001000 s = false
  /\ Liveness.isServiceLive 3001000 s = true.
Proof.
  intros s.
  assert (H1 : 0 < 3000000) by lia.
  assert (H2 : 3001000 - 3000000 <= 20000) by lia.
  destruct latest_heartbeat_survives_removal as (_ & _ & Hremoved).
  destruct (Hremoved (lit "thread-1") (lit "agent-1") 3000000 3001000 H1 H2)
    as (Hempty & _ & Hgone & Hlive).
  split; [exact H1|]. split; [exact H2|].
  split; [exact Hempty|]. split; [exact Hgone | exact Hlive].
Defined.

(** ** utils/inbox.ts *)

Lemma findIndex_Some {A : Type} (p : A -> bool) (l : list A) (i : nat) :
  Inbox.findIndex p l = Some i ->
  exists x, l !! i = Some x /\ p x = true
            /\ forall j y, (j < i)%nat -> l !! j = Some y -> p y = false.
Proof.
  revert i. induction l as [|a l IH]; intros i; simpl; [discriminate|].
  destruct (p a) eqn:Hpa.
  - intros [= <-]. exists a. split; [done|]. split; [done|]. intros j y Hj. lia.
  - destruct (Inbox.findIndex p l) as [k|]; simpl; [|discriminate].
    intros [= <-]. destruct (IH k eq_refl) as (x & Hx & Hpx & Hfirst).
    exists x. split; [done|]. split; [done|].
    intros [|j] y Hj; simpl.
    + by intros [= <-].
    + apply Hfirst. lia.
Qed.

Lemma findIndex_exists {A : Type} (p : A -> bool) (l : list A) :
  (exists x, In x l /\ p x = true) -> exists i, Inbox.findIndex p l = Some i.
Proof.
  induction l as [|a l IH]; simpl; intros (x & Hin & Hpx); [done|].
  destruct (p a) eqn:Hpa; [by eexists|].
  destruct Hin as [->|Hin]; [congruence|].
  destruct IH as [i ->]; [by exists x|]. by eexists.
Qed.

(** C8: when the inbox holds the message's thread, the first entry of that
    thread is replaced by one whose lastMessage is the message, whose
    updatedAt is max(existing updatedAt, message.createdAt) and whose
    unreadCount is unchanged for a message of the agent, 0 for another
    sender's message to the active thread, and one more otherwise; the
    thread's other fields and the other entries are kept, and the result is
    that list re-sorted, with insertedUnknownThread = false. *)
Theorem applyMessageToInbox_known_thread
    (current : list InboxThread.t) (message : Message.t)
    (options : Inbox.ApplyMessageToInboxOptions) :
  (exists item, In item current
                /\ Thread.id (InboxThread.thread item) = Message.threadId message) ->
  exists (threadIndex : nat) (existing updated : InboxThread.t),
    current !! threadIndex = Some existing
    /\ Thread.id (InboxThread.thread existing) = Message.threadId message
    /\ (forall j item, (j < threadIndex)%nat -> current !! j = Some item ->
          Thread.id (InboxThread.thread item) <> Message.threadId message)
    /\ InboxThread.lastMessage updated = Some message
    /\ Thread.updatedAt (InboxThread.thread updated)
       = Z.max (Thread.updatedAt (InboxThread.thread existing)) (Message.createdAt message)
    /\ Thread.id (InboxThread.thread updated) = Thread.id (InboxThread.thread existing)
    /\ Thread.status (InboxThread.thread updated)
       = Thread.status (InboxThread.thread existing)
    /\ Thread.createdAt (InboxThread.thread updated)
       = Thread.createdAt (InboxThread.thread existing)
    /\ (Message.senderId message = Inbox.agentId options ->
          InboxThread.unreadCount updated = InboxThread.unreadCount existing)
    /\ (Message.senderId message <> Inbox.agentId options ->
          Some (Message.threadId message) = Inbox.activeThreadId options ->
          InboxThread.unreadCount updated = 0)
    /\ (Message.senderId message <> Inbox.agentId options ->
          Some (Message.threadId message) <> Inbox.activeThreadId options ->
          InboxThread.unreadCount updated = InboxThread.unreadCount existing + 1)
    /\ let result := Inbox.applyMessageToInbox (Some current) message options in
       Inbox.insertedUnknownThread result = false
       /\ Inbox.items result
          = Inbox.sortInboxThreads (<[threadIndex := updated]> current)
       /\ Permutation (Inbox.items result) (<[threadIndex := updated]> current)
       /\ In updated (Inbox.items result).
Proof.
  intros (item & Hin & Hid).
  destruct (findIndex_exists (Inbox.isThreadOf message) current) as [i Hi].
  { exists item. split; [done|]. unfold Inbox.isThreadOf. by apply bool_decide_eq_true. }
  destruct (findIndex_Some _ _ _ Hi) as (existing & Hex & Hp & Hfirst).
  exists i, existing, (Inbox.patched existing message options).
  split; [done|].
  split; [by apply bool_decide_eq_true in Hp|].
  split.
  { intros j y Hj Hy. specialize (Hfirst j y Hj Hy).
    by apply bool_decide_eq_false in Hfirst. }
  do 5 (split; [reflexivity|]).
  split.
  { intros Hs. simpl. unfold Inbox.nextUnreadCount. by rewrite bool_decide_eq_true_2. }
  split.
  { intros Hs Ha. simpl. unfold Inbox.nextUnreadCount.
    rewrite bool_decide_eq_false_2 by done. by rewrite bool_decide_eq_true_2. }
  split.
  { intros Hs Ha. simpl. unfold Inbox.nextUnreadCount.
    by rewrite !bool_decide_eq_false_2. }
  unfold Inbox.applyMessageToInbox. simpl. rewrite Hi, Hex. simpl.
  split; [done|]. split; [done|].
  assert (Hperm : Permutation
            (Inbox.sortInboxThreads (<[i:=Inbox.patched existing message options]> current))
            (<[i:=Inbox.patched existing message options]> current))
    by apply arraySort_perm.
  split; [done|].
  eapply Permutation_in; [symmetry; exact Hperm|].
  apply list_elem_of_In. apply list_elem_of_lookup. exists i.
  apply list_lookup_insert_eq. by eapply lookup_lt_Some.
Qed.

(** The repository's test: an inbound visitor message to the inactive
    thread-1 (unread 2, updatedAt 100) at createdAt 200. *)
Lemma applyMessageToInbox_known_thread_scenario :
  let incoming := Messages.testMessage "m1" "c1" 200 1 Sent in
  let current := [Inbox.inboxItem "thread-1" 2 100] in
  let options := Inbox.mkOptions (lit "agent-demo") (Some (lit "thread-2")) in
  exists updated,
    Inbox.items (Inbox.applyMessageToInbox (Some current) incoming options) = [updated]
    /\ InboxThread.unreadCount updated = 3
    /\ InboxThread.lastMessage updated = Some incoming
    /\ Thread.updatedAt (InboxThread.thread updated) = 200.
Proof.
  intros incoming current options.
  destruct (applyMessageToInbox_known_thread current incoming options)
    as (i & existing & updated & Hex & _ & _ & Hlast & Hupd & _ & _ & _ & _ & _
        & Hinc & _ & Hitems & _).
  { exists (Inbox.inboxItem "thread-1" 2 100). split; [by left | reflexivity]. }
  destruct i as [|i]; [|discriminate Hex].
  injection Hex as <-.
  exists updated. split; [exact Hitems|].
  split; [apply Hinc; discriminate|]. split; [exact Hlast | exact Hupd].
Defined.

(** ** hooks/typingController.ts *)

Lemma clearTimers_spec (s : Typing.t) (tm : Typing.Timer) :
  let s' := Typing.clearRefresh (Typing.clearIdle (Typing.clearDebounce s)) in
  (In tm (Typing.timers s')
   <-> In tm (Typing.timers s)
       /\ Typing.heldBy (Typing.debounceTimer s) tm = false
       /\ Typing.heldBy (Typing.idleTimer s) tm = false
       /\ Typing.heldBy (Typing.refreshTimer s) tm = false)
  /\ Typing.debounceTimer s' = None
  /\ Typing.idleTimer s' = None
  /\ Typing.refreshTimer s' = None
  /\ Typing.currentThreadId s' = Typing.currentThreadId s
  /\ Typing.currentParticipantId s' = Typing.currentParticipantId s
  /\ Typing.currentCanEmit s' = Typing.currentCanEmit s
  /\ Typing.isTyping s' = Typing.isTyping s
  /\ Typing.now s' = Typing.now s
  /\ Typing.published s' = Typing.published s.
Proof.
  destruct s as [thr part can typ act [d|] [i|] [r|] clock next tms pub];
    unfold Typing.clearRefresh, Typing.clearIdle, Typing.clearDebounce,
      Typing.clearTimer; simpl;
    (split; [|repeat split; reflexivity]);
    rewrite ?List.filter_In, ?negb_true_iff; tauto.
Qed.

(** C6, as stated, fails: a controller that is not typing publishes nothing
    on forceStop, although its threadId is set. *)
Lemma forceStop_silent_when_not_typing :
  let s := Typing.createTypingController (Some (lit "thread-1")) (lit "visitor-1") true 0 in
  Typing.currentThreadId s = Some (lit "thread-1")
  /\ Typing.isTyping s = false
  /\ Typing.published (Typing.forceStop s) = [].
Proof. intros s. repeat split; reflexivity. Qed.

(** C6, amended: for every controller state with a non-empty threadId,
    forceStop clears the debounce, idle and refresh timers, sets
    lastActivityAt to null, and, whatever the canEmit gate says, publishes one
    isTyping=false payload when isTyping is currently true; when isTyping is
    already false nothing is published. *)
Theorem forceStop_spec (s : Typing.t) :
  truthyOpt (Typing.currentThreadId s) = true ->
  let s' := Typing.forceStop s in
  Typing.debounceTimer s' = None
  /\ Typing.idleTimer s' = None
  /\ Typing.refreshTimer s' = None
  /\ (forall tm, In tm (Typing.timers s')
                 <-> In tm (Typing.timers s)
                     /\ Typing.heldBy (Typing.debounceTimer s) tm = false
                     /\ Typing.heldBy (Typing.idleTimer s) tm = false
                     /\ Typing.heldBy (Typing.refreshTimer s) tm = false)
  /\ Typing.lastActivityAt s' = None
  /\ Typing.isTyping s' = false
  /\ Typing.published s'
     = Typing.published s
       ++ (if Typing.isTyping s then [Typing.payloadOf s false (Typing.now s)] else []).
Proof.
  intros Hthread s'. subst s'. unfold Typing.forceStop.
  set (c := Typing.clearRefresh (Typing.clearIdle (Typing.clearDebounce s))).
  assert (Hc : forall tm, _) by (intros tm; exact (clearTimers_spec s tm)).
  fold c in Hc. simpl in Hc.
  destruct (Hc (Typing.mkTimer 1 0 Typing.OnIdle None))
    as (_ & Hd & Hi & Hr & Ht & Hp & Hcan & Hty & Hnow & Hpub).
  assert (Htimers : forall tm, In tm (Typing.timers c) <-> _)
    by (intros tm; exact (proj1 (Hc tm))).
  clearbody c. clear Hc.
  destruct c as [thr part can typ act d i r clock next tms pub]. simpl in *. subst.
  unfold Typing.emit, Typing.payloadOf. simpl. rewrite Hthread. simpl.
  destruct (Typing.isTyping s); simpl.
  - do 3 (split; [reflexivity|]). split; [exact Htimers|]. by repeat split.
  - rewrite app_nil_r.
    do 3 (split; [reflexivity|]). split; [exact Htimers|]. by repeat split.
Qed.

Lemma forceStop_spec_scenario :
  let s := Typing.setIsTyping true
             (Typing.createTypingController (Some (lit "thread-1")) (lit "visitor-1")
                false 5000) in
  truthyOpt (Typing.currentThreadId s) = true
  /\ Typing.currentCanEmit s = false
  /\ Typing.published (Typing.forceStop s)
     = [TypingPayload.mk (lit "thread-1") (lit "visitor-1") false 5000].
Proof.
  intros s. split; [reflexivity|]. split; [reflexivity|].
  destruct (forceStop_spec s eq_refl) as (_ & _ & _ & _ & _ & _ & Hpub).
  exact Hpub.
Defined.

Lemma runTimers_unfold (fuel : nat) (target : Z) (s : Typing.t) :
  Typing.runTimers fuel target s =
  match Typing.nextTimer (Typing.timers s) with
  | None => Some (Typing.setNow (Z.max (Typing.now s) target) s)
  | Some tm =>
      if Typing.due tm <=? target then
        match fuel with
        | O => None
        | S fuel' => Typing.runTimers fuel' target (Typing.fire tm s)
        end
      else Some (Typing.setNow (Z.max (Typing.now s) target) s)
  end.
Proof. by destruct fuel. Qed.

Lemma nextTimer_In (l : list Typing.Timer) (tm : Typing.Timer) :
  Typing.nextTimer l = Some tm -> In tm l.
Proof.
  revert tm. induction l as [|x l IH]; intros tm; simpl; [discriminate|].
  destruct (Typing.nextTimer l) as [m|].
  - destruct (Typing.earlier m x); intros [= <-]; [right; by apply IH | by left].
  - intros [= <-]. by left.
Qed.

Lemma nextTimer_last (rest : list Typing.Timer) (x : Typing.Timer) :
  Forall (fun tm => Typing.due x < Typing.due tm) rest ->
  Typing.nextTimer (rest ++ [x]) = Some x.
Proof.
  induction 1 as [|tm rest Hlt _ IH]; simpl; [done|].
  rewrite IH. unfold Typing.earlier.
  by rewrite (proj2 (Z.ltb_lt _ _) Hlt).
Qed.

(** When every pending timer is due after [target], the clock just moves. *)
Lemma runTimers_quiet (fuel : nat) (target : Z) (s : Typing.t) :
  Forall (fun tm => target < Typing.due tm) (Typing.timers s) ->
  Typing.runTimers fuel target s
  = Some (Typing.setNow (Z.max (Typing.now s) target) s).
Proof.
  intros Hall. rewrite runTimers_unfold.
  destruct (Typing.nextTimer (Typing.timers s)) as [tm|] eqn:Hnext; [|done].
  apply nextTimer_In in Hnext. rewrite List.Forall_forall in Hall.
  apply Hall in Hnext. by rewrite (proj2 (Z.leb_gt _ _) Hnext).
Qed.

Lemma onInputChange_shape (s : Typing.t) (value : jsstring) :
  Typing.currentCanEmit s = true ->
  Typing.timers s = [] ->
  truthy (trim value) = true ->
  let s1 := Typing.onInputChange value s in
  exists (hD : positive) (rest : list Typing.Timer),
    Typing.timers s1
      = rest ++ [Typing.mkTimer hD (Typing.now s + 300) Typing.OnDebounce None]
    /\ Forall (fun tm => Typing.due tm = Typing.now s + 3000
                         /\ Typing.handle tm <> hD) rest
    /\ Typing.published s1 = Typing.published s
    /\ Typing.isTyping s1 = Typing.isTyping s
    /\ Typing.now s1 = Typing.now s
    /\ Typing.currentThreadId s1 = Typing.currentThreadId s
    /\ Typing.currentParticipantId s1 = Typing.currentParticipantId s
    /\ Typing.currentCanEmit s1 = true.
Proof.
  intros Hcan Htimers Hvalue s1. subst s1. unfold Typing.onInputChange.
  rewrite Hvalue. simpl.
  destruct s as [thr part can typ act d i r clock next tms pub]. simpl in *. subst.
  unfold Typing.scheduleIdleStop, Typing.clearIdle, Typing.clearDebounce, Typing.clearTimer,
    Typing.TYPING_IDLE_MS, Typing.TYPING_DEBOUNCE_MS.
  assert (Hne : next <> Pos.succ next) by lia.
  destruct i as [i|], d as [d|]; simpl;
    try destruct (next =? d)%positive; simpl;
    exists (Pos.succ next);
    first [ exists []; split; [reflexivity|]
          | exists [Typing.mkTimer next (clock + 3000) Typing.OnIdle None];
            split; [reflexivity|] ];
    (split; [repeat constructor; simpl; done|]); done.
Qed.

Lemma fire_debounce (s : Typing.t) (hD : positive) (due : Z)
    (rest : list Typing.Timer) :
  truthyOpt (Typing.currentThreadId s) = true ->
  Typing.currentCanEmit s = true ->
  Typing.isTyping s = false ->
  Typing.timers s = rest ++ [Typing.mkTimer hD due Typing.OnDebounce None] ->
  Forall (fun tm => Typing.handle tm <> hD) rest ->
  let clock := Z.max (Typing.now s) due in
  let s' := Typing.fire (Typing.mkTimer hD due Typing.OnDebounce None) s in
  Typing.now s' = clock
  /\ Typing.isTyping s' = true
  /\ Typing.published s' = Typing.published s ++ [Typing.payloadOf s true clock]
  /\ (forall tm, In tm (Typing.timers s') ->
                 In tm rest \/ Typing.due tm = clock + 1200).
Proof.
  intros Hthread Hcan Htyping Htimers Hrest clock s'. subst s' clock.
  destruct s as [thr part can typ act d i r now next tms pub]. simpl in *. subst.
  assert (Hfilter : List.filter (fun tm => negb (Typing.handle tm =? hD)%positive)
                      (rest ++ [Typing.mkTimer hD due Typing.OnDebounce None]) = rest).
  { rewrite List.filter_app. simpl. rewrite Pos.eqb_refl. simpl. rewrite app_nil_r.
    induction Hrest as [|tm rest Hne _ IH]; simpl; [done|].
    apply Pos.eqb_neq in Hne. rewrite Hne. simpl. by rewrite IH. }
  unfold Typing.fire, Typing.clearTimer, Typing.runCallback, Typing.emit,
    Typing.ensureRefreshTicker, Typing.payloadOf. simpl.
  rewrite Hfilter, Hthread. simpl.
  destruct r as [r|]; simpl.
  - repeat split; try done. intros tm Hin. by left.
  - repeat split; try done. intros tm Hin. apply in_app_or in Hin.
    destruct Hin as [Hin|[<-|[]]]; [by left | right; done].
Qed.

(** C5, amended: for a controller with a non-empty threadId and canEmit=true
    that is idle (isTyping=false, no timer pending), a single onInputChange
    with a value that is non-empty after trim, at clock t0 and with no further
    input, publishes nothing while the clock is before t0+300, and by t0+300
    has published exactly one payload, isTyping=true stamped t0+300; nothing
    more is published before the first refresh at t0+1500. *)
Theorem typing_emitted_once_after_debounce (s : Typing.t) (value : jsstring) :
  truthyOpt (Typing.currentThreadId s) = true ->
  Typing.currentCanEmit s = true ->
  Typing.isTyping s = false ->
  Typing.timers s = [] ->
  truthy (trim value) = true ->
  let s1 := Typing.onInputChange value s in
  let t0 := Typing.now s in
  Typing.published s1 = Typing.published s
  /\ (forall fuel t, t0 <= t < t0 + 300 ->
        exists s', Typing.runTimers fuel t s1 = Some s'
                   /\ Typing.published s' = Typing.published s)
  /\ (forall fuel t, t0 + 300 <= t < t0 + 1500 ->
        exists s', Typing.runTimers (S fuel) t s1 = Some s'
                   /\ Typing.isTyping s' = true
                   /\ Typing.published s'
                      = Typing.published s ++ [Typing.payloadOf s true (t0 + 300)]).
Proof.
  intros Hthread Hcan Htyping Htimers Hvalue s1 t0.
  destruct (onInputChange_shape s value Hcan Htimers Hvalue)
    as (hD & rest & Hshape & Hrest & Hpub & Hty & Hnow & Hthr & Hpart & Hcan1).
  fold s1 in Hshape, Hpub, Hty, Hnow, Hthr, Hpart, Hcan1.
  fold t0 in Hshape, Hrest.
  split; [done|]. split.
  - intros fuel t Ht. eexists. split.
    + apply runTimers_quiet. rewrite Hshape. apply Forall_app. split.
      * eapply List.Forall_impl; [|exact Hrest]. intros tm [Hdue _]. lia.
      * repeat constructor. simpl. lia.
    + done.
  - intros fuel t Ht. rewrite runTimers_unfold, Hshape.
    rewrite nextTimer_last.
    2:{ eapply List.Forall_impl; [|exact Hrest]. intros tm [Hdue _]. simpl. lia. }
    simpl. rewrite (proj2 (Z.leb_le _ _)) by lia.
    destruct (fire_debounce s1 hD (t0 + 300) rest) as (Hnow2 & Hty2 & Hpub2 & Htms2).
    { by rewrite Hthr. }
    { done. }
    { by rewrite Hty. }
    { done. }
    { eapply List.Forall_impl; [|exact Hrest]. by intros tm [_ Hne]. }
    rewrite Hnow in Hnow2, Hpub2, Htms2. fold t0 in Hnow2, Hpub2, Htms2.
    rewrite Z.max_r in Hnow2, Hpub2, Htms2 by lia.
    eexists. split.
    + apply runTimers_quiet. apply List.Forall_forall. intros tm Hin.
      destruct (Htms2 tm Hin) as [Hr|Hdue]; [|lia].
      rewrite List.Forall_forall in Hrest. destruct (Hrest tm Hr) as [Hdue _]. lia.
    + simpl. split; [done|]. rewrite Hpub2, Hpub. f_equal.
      unfold Typing.payloadOf. by rewrite Hthr, Hpart.
Qed.

Lemma typing_emitted_once_after_debounce_scenario :
  let s := Typing.createTypingController (Some (lit "thread-1")) (lit "visitor-1") true 0 in
  let s1 := Typing.onInputChange (lit "hello") s in
  (exists s', Typing.runTimers 0 299 s1 = Some s' /\ Typing.published s' = [])
  /\ (exists s', Typing.runTimers 1 300 s1 = Some s'
                 /\ Typing.isTyping s' = true
                 /\ Typing.published s'
                    = [TypingPayload.mk (lit "thread-1") (lit "visitor-1") true 300]).
Proof.
  intros s s1.
  destruct (typing_emitted_once_after_debounce s (lit "hello")
              eq_refl eq_refl eq_refl eq_refl eq_refl) as (_ & Hbefore & Hat).
  split.
  - apply (Hbefore 0%nat 299). simpl. lia.
  - apply (Hat 0%nat 300). simpl. lia.
Defined.

(** C5, as stated, fails: the empty string is a non-null threadId, yet
    [emit] treats it as absent, so nothing is published at t=300. *)
Lemma no_typing_emitted_for_empty_thread_id :
  let s := Typing.createTypingController (Some []) (lit "visitor-1") true 0 in
  let s1 := Typing.onInputChange (lit "x") s in
  Typing.currentThreadId s <> None
  /\ Typing.currentCanEmit s = true
  /\ Typing.isTyping s = false
  /\ Typing.timers s = []
  /\ exists s', Typing.runTimers 1 300 s1 = Some s'
                /\ Typing.now s' = 300
                /\ Typing.published s' = [].
Proof.
  intros s s1. split; [discriminate|]. do 3 (split; [reflexivity|]).
  eexists. split; [reflexivity|]. split; reflexivity.
Qed.

(** ** The optimistic send *)

Lemma validateMessageBody_valid (isPotentialSqlInjection : jsstring -> bool)
    (body : jsstring) :
  MessageContent.isValid
    (MessageContent.validateMessageBody isPotentialSqlInjection body) = true ->
  MessageContent.value
    (MessageContent.validateMessageBody isPotentialSqlInjection body) = trim body.
Proof.
  unfold MessageContent.validateMessageBody.
  destruct (negb (truthy (trim body))); [discriminate|].
  destruct (MessageContent.MESSAGE_MAX_LENGTH <? _); [discriminate|].
  by destruct (isPotentialSqlInjection (trim body)).
Qed.

Lemma agent_register_then_fail (threadId : jsstring) (optimistic : Message.t)
    (state : AgentStore.t) :
  Message.deliveryState optimistic = Sending ->
  let state' := AgentStore.markOptimisticFailed threadId (Message.clientId optimistic)
                  optimistic (AgentStore.setOptimistic threadId optimistic state) in
  AgentStore.optimisticByThread state' !! threadId
    ≫= (fun byClientId => byClientId !! Message.clientId optimistic)
  = Some (Send.asFailed optimistic)
  /\ AgentStore.realtimeByThread state' = AgentStore.realtimeByThread state.
Proof.
  intros Hsending. unfold AgentStore.markOptimisticFailed, AgentStore.setOptimistic.
  simpl. rewrite lookup_insert_eq. simpl. rewrite lookup_insert_eq. simpl.
  rewrite Hsending, (bool_decide_eq_false_2 (Sending = Failed)) by done. simpl.
  rewrite lookup_insert_eq. simpl. by rewrite lookup_insert_eq.
Qed.

Lemma visitor_register_then_fail (optimistic : Message.t) (state : VisitorStore.t) :
  Message.deliveryState optimistic = Sending ->
  let state' := VisitorStore.markOptimisticFailed (Message.clientId optimistic)
                  optimistic (VisitorStore.setOptimistic optimistic state) in
  VisitorStore.optimisticByClientId state' !! Message.clientId optimistic
  = Some (Send.asFailed optimistic)
  /\ VisitorStore.realtimeMessages state' = VisitorStore.realtimeMessages state.
Proof.
  intros Hsending. unfold VisitorStore.markOptimisticFailed, VisitorStore.setOptimistic.
  simpl. rewrite lookup_insert_eq. simpl.
  rewrite Hsending, (bool_decide_eq_false_2 (Sending = Failed)) by done. simpl.
  by rewrite lookup_insert_eq.
Qed.

(** C9, amended: a send of a valid body to a non-empty target thread (on the
    visitor side: from the tab that owns the chat, with a visitor id and an
    initialised repository) whose precondition gate is false registers the
    optimistic placeholder, then marks it failed, and does nothing else: no
    repository write and no gateway broadcast. *)
Theorem send_fails_fast_when_gate_closed
    (localeCompare : jsstring -> jsstring -> Z)
    (isPotentialSqlInjection : jsstring -> bool)
    (host : Send.Host) (body : jsstring) (existingClientId : option jsstring) :
  MessageContent.isValid
    (MessageContent.validateMessageBody isPotentialSqlInjection body) = true ->
  let clientId := default (Send.createId (lit "client") host) existingClientId in
  (forall (hook : AgentSend.Hook) (w : AgentSend.World),
     truthyOpt (AgentSend.threadId hook) = true ->
     AgentSend.networkGate hook = false ->
     let threadId := default [] (AgentSend.threadId hook) in
     let optimistic :=
       Send.makeOptimisticMessage Agent clientId threadId AgentSend.AGENT_ID
         (trim body) (Send.dateNow host) Sending in
     let w' := AgentSend.sendInternal localeCompare isPotentialSqlInjection
                 hook host body existingClientId w in
     AgentSend.trace w'
     = AgentSend.trace w ++ [Send.SetOptimistic threadId optimistic;
                             Send.MarkOptimisticFailed threadId clientId optimistic]
     /\ List.filter Send.isNetworkEffect (AgentSend.trace w')
        = List.filter Send.isNetworkEffect (AgentSend.trace w)
     /\ AgentStore.optimisticByThread (AgentSend.store w') !! threadId
          ≫= (fun byClientId => byClientId !! clientId)
        = Some (Send.asFailed optimistic)
     /\ AgentStore.realtimeByThread (AgentSend.store w')
        = AgentStore.realtimeByThread (AgentSend.store w))
  /\ (forall (hook : VisitorSend.Hook) (w : VisitorSend.World),
        VisitorSend.canOwnChat hook = true ->
        truthyOpt (VisitorSend.threadId hook) = true ->
        truthyOpt (VisitorSend.visitorId hook) = true ->
        VisitorSend.repositoryRefCurrent hook = true ->
        VisitorSend.networkGate hook = false ->
        let threadId := default [] (VisitorSend.threadId hook) in
        let optimistic :=
          Send.makeOptimisticMessage Visitor clientId threadId
            (default [] (VisitorSend.visitorId hook))
            (trim body) (Send.dateNow host) Sending in
        let w' := VisitorSend.sendInternal localeCompare isPotentialSqlInjection
                    hook host body existingClientId w in
        VisitorSend.trace w'
        = VisitorSend.trace w ++ [Send.SetOptimistic threadId optimistic;
                                  Send.MarkOptimisticFailed threadId clientId optimistic]
        /\ List.filter Send.isNetworkEffect (VisitorSend.trace w')
           = List.filter Send.isNetworkEffect (VisitorSend.trace w)
        /\ VisitorStore.optimisticByClientId (VisitorSend.store w') !! clientId
           = Some (Send.asFailed optimistic)
        /\ VisitorStore.realtimeMessages (VisitorSend.store w')
           = VisitorStore.realtimeMessages (VisitorSend.store w)).
Proof.
  intros Hvalid clientId.
  pose proof (validateMessageBody_valid _ _ Hvalid) as Hvalue.
  split.
  - intros hook w Hthread Hgate threadId optimistic w'. subst w'.
    unfold AgentSend.sendInternal.
    rewrite Hthread, Hvalid, Hvalue. simpl.
    assert (Hcan : AgentSend.canSendMessages hook = false).
    { unfold AgentSend.canSendMessages, AgentSend.networkGate in *.
      rewrite <- andb_assoc, Hgate. apply andb_false_r. }
    rewrite Hcan. simpl. fold clientId threadId optimistic.
    rewrite <- !app_assoc. simpl.
    split; [done|]. split.
    { rewrite List.filter_app. simpl. by rewrite app_nil_r. }
    apply (agent_register_then_fail threadId optimistic). done.
  - intros hook w Hown Hthread Hvisitor Hrepo Hgate threadId optimistic w'. subst w'.
    unfold VisitorSend.sendInternal.
    rewrite Hown, Hthread, Hvisitor, Hrepo, Hvalid, Hvalue. simpl.
    assert (Hcan : VisitorSend.canSendMessages hook = false).
    { unfold VisitorSend.canSendMessages, VisitorSend.networkGate in *.
      rewrite <- andb_assoc, Hgate. apply andb_false_r. }
    rewrite Hcan. simpl. fold clientId threadId optimistic.
    rewrite <- !app_assoc. simpl.
    split; [done|]. split.
    { rewrite List.filter_app. simpl. by rewrite app_nil_r. }
    apply (visitor_register_then_fail optimistic). done.
Qed.

Lemma send_fails_fast_when_gate_closed_scenario :
  let host := Send.mkHost 1000 (lit "uuid-1") (fun _ => None) true in
  let offline := ThreadLiveMeta.mk (lit "thread-1") SUBSCRIBED false None ∅ in
  let hook := AgentSend.mkHook (Some (lit "thread-1")) (Some offline) false true in
  let w := AgentSend.mkWorld (AgentStore.mk ∅ ∅) [] in
  let w' := AgentSend.sendInternal codeUnitCompare (fun _ => false) hook host
              (lit " hello ") None w in
  let optimistic :=
    Send.makeOptimisticMessage Agent (lit "client-uuid-1") (lit "thread-1")
      AgentSend.AGENT_ID (lit "hello") 1000 Sending in
  let visitorHook :=
    VisitorSend.mkHook true (Some (lit "thread-1")) (Some (lit "visitor-1"))
      true true (Some offline) true true in
  let v := VisitorSend.mkWorld (VisitorStore.mk ∅ []) [] in
  let v' := VisitorSend.sendInternal codeUnitCompare (fun _ => false) visitorHook host
              (lit " hello ") None v in
  AgentSend.networkGate hook = false
  /\ AgentSend.trace w'
     = [Send.SetOptimistic (lit "thread-1") optimistic;
        Send.MarkOptimisticFailed (lit "thread-1") (lit "client-uuid-1") optimistic]
  /\ List.filter Send.isNetworkEffect (AgentSend.trace w') = []
  /\ VisitorSend.networkGate visitorHook = false
  /\ List.filter Send.isNetworkEffect (VisitorSend.trace v') = []
  /\ VisitorStore.optimisticByClientId (VisitorSend.store v') !! lit "client-uuid-1"
     = Some (Send.makeOptimisticMessage Visitor (lit "client-uuid-1") (lit "thread-1")
               (lit "visitor-1") (lit "hello") 1000 Failed).
Proof.
  intros host offline hook w w' optimistic visitorHook v v'.
  destruct (send_fails_fast_when_gate_closed codeUnitCompare (fun _ => false) host
              (lit " hello ") None eq_refl) as [Hagent Hvisitor].
  destruct (Hagent hook w eq_refl eq_refl) as (Htrace & Hnet & _).
  destruct (Hvisitor visitorHook v eq_refl eq_refl eq_refl eq_refl eq_refl)
    as (_ & Hvnet & Hvstore & _).
  split; [reflexivity|]. split; [exact Htrace|]. split; [exact Hnet|].
  split; [reflexivity|]. split; [exact Hvnet | exact Hvstore].
Defined.

(** C9, as stated, fails: in a visitor tab that does not own the chat, a valid
    body sent to a non-null thread while offline registers no placeholder at
    all; the send returns at its first guard. *)
Lemma secondary_tab_send_registers_nothing :
  let host := Send.mkHost 1000 (lit "uuid-1") (fun _ => None) true in
  let hook := VisitorSend.mkHook false (Some (lit "thread-1")) (Some (lit "visitor-1"))
                true true None true false in
  let w := VisitorSend.mkWorld (VisitorStore.mk ∅ []) [] in
  let w' := VisitorSend.sendInternal codeUnitCompare (fun _ => false) hook host
              (lit "hello") None w in
  MessageContent.isValid (MessageContent.validateMessageBody (fun _ => false) (lit "hello"))
  = true
  /\ VisitorSend.threadId hook = Some (lit "thread-1")
  /\ VisitorSend.networkGate hook = false
  /\ VisitorSend.trace w' = []
  /\ VisitorStore.optimisticByClientId (VisitorSend.store w') = ∅.
Proof. intros host hook w w'. repeat split; reflexivity. Qed.


(* ===================================================================== *)
(** * Further properties *)
(* ===================================================================== *)

(** ** The ordered map and the sort, continued *)


Lemma arraySort_sorted_id {A : Type} (cmp : A -> A -> Z) (l : list A) :
  Sorted (cmpLe cmp) l -> arraySort cmp l = l.
Proof.
  induction 1 as [|x l Hs IH Hhd]; simpl; [done|].
  rewrite IH. destruct Hhd as [|y l Hxy]; simpl; [done|].
  unfold cmpLe in Hxy. by rewrite (proj2 (Z.leb_le _ _) Hxy).
Qed.

(** ** utils/messages.ts, continued *)

Lemma foldMessage_values (m : list (jsstring * Message.t)) (x e : Message.t) :
  In e (mapValues (Messages.foldMessage m x)) -> e = x \/ In e (mapValues m).
Proof.
  unfold Messages.foldMessage, mapValues. intros Hin.
  apply in_map_iff in Hin as ([k v] & <- & Hin). simpl.
  destruct (mapGet (Messages.stableClientKey x) m) as [existing|] eqn:Hget.
  - apply mapSet_In in Hin as [Heq|Hin].
    + inversion Heq; subst. rewrite mergeMessageState_cases.
      destruct (Messages.isSent existing && negb (Messages.isSent x)); [|by left].
      right. apply mapGet_In in Hget. apply in_map_iff. by exists (Messages.stableClientKey x, existing).
    + right. apply in_map_iff. by exists (k, v).
  - apply mapSet_In in Hin as [Heq|Hin].
    + inversion Heq; subst. by left.
    + right. apply in_map_iff. by exists (k, v).
Qed.

Lemma foldMessage_keys (m : list (jsstring * Message.t)) (x : Message.t) (k : jsstring) :
  In k (mapKeys (Messages.foldMessage m x))
  <-> k = Messages.stableClientKey x \/ In k (mapKeys m).
Proof.
  unfold Messages.foldMessage.
  assert (Hset : forall v,
    In k (mapKeys (mapSet (Messages.stableClientKey x) v m))
    <-> k = Messages.stableClientKey x \/ In k (mapKeys m)).
  { intros v. rewrite !mapGet_In_keys.
    destruct (decide (Messages.stableClientKey x = k)) as [<-|Hne].
    - rewrite mapGet_mapSet_eq. split; [by left | eauto].
    - rewrite mapGet_mapSet_ne by done. split; [by right|]. by intros [->|?]. }
  destruct (mapGet (Messages.stableClientKey x) m); apply Hset.
Qed.

Lemma fold_values (l : list Message.t) (m : list (jsstring * Message.t)) (e : Message.t) :
  In e (mapValues (fold_left Messages.foldMessage l m)) -> In e l \/ In e (mapValues m).
Proof.
  revert m. induction l as [|x l IH]; intros m; simpl; [by right|].
  intros Hin. destruct (IH _ Hin) as [?|Hx]; [left; by right|].
  destruct (foldMessage_values _ _ _ Hx) as [->|?]; [left; by left | by right].
Qed.

Lemma fold_keys (l : list Message.t) (m : list (jsstring * Message.t)) (k : jsstring) :
  In k (mapKeys (fold_left Messages.foldMessage l m))
  <-> In k (List.map Messages.stableClientKey l) \/ In k (mapKeys m).
Proof.
  revert m. induction l as [|x l IH]; intros m; simpl; [tauto|].
  rewrite IH, foldMessage_keys. intuition.
Qed.

(** X1: a merge invents nothing and drops no identity: every output message
    is one of the input messages, unchanged, and the identity keys of the
    output are exactly the identity keys of the inputs. *)
Theorem merge_output_from_inputs
    (localeCompare : jsstring -> jsstring -> Z) (sets : list (option (list Message.t))) :
  (forall m, In m (Messages.mergeMessages localeCompare sets) -> In m (Messages.visited sets))
  /\ (forall k, In k (List.map Messages.stableClientKey
                        (Messages.mergeMessages localeCompare sets))
                <-> In k (List.map Messages.stableClientKey (Messages.visited sets)))
  /\ (length (Messages.mergeMessages localeCompare sets)
      <= length (Messages.visited sets))%nat.
Proof.
  assert (Hvals : forall m, In m (Messages.mergeMessages localeCompare sets)
                            -> In m (Messages.visited sets)).
  { intros m Hin. unfold Messages.mergeMessages in Hin.
    apply (Permutation_in _ (sortMessages_perm _ _)) in Hin.
    rewrite foldSets_visited in Hin. by destruct (fold_values _ _ _ Hin). }
  assert (Hkeys : forall k, In k (List.map Messages.stableClientKey
                        (Messages.mergeMessages localeCompare sets))
                <-> In k (List.map Messages.stableClientKey (Messages.visited sets))).
  { intros k. unfold Messages.mergeMessages.
    assert (Hp : Permutation
              (List.map Messages.stableClientKey
                 (Messages.sortMessages localeCompare (mapValues (Messages.foldSets sets))))
              (mapKeys (Messages.foldSets sets))).
    { rewrite <- keyed_values_keys by apply foldSets_keyed.
      apply Permutation_map, sortMessages_perm. }
    split; intros Hin.
    - apply (Permutation_in _ Hp) in Hin. rewrite foldSets_visited, fold_keys in Hin.
      by destruct Hin.
    - apply (Permutation_in _ (Permutation_sym Hp)).
      rewrite foldSets_visited, fold_keys. by left. }
  split; [done|]. split; [done|].
  rewrite <- (length_map Messages.stableClientKey (Messages.mergeMessages _ _)).
  rewrite <- (length_map Messages.stableClientKey (Messages.visited sets)).
  apply NoDup_incl_length.
  - apply NoDup_ListNoDup, mergeMessages_keys_NoDup.
  - intros k. apply Hkeys.
Qed.

Lemma mergeMessages_sorted (localeCompare : jsstring -> jsstring -> Z)
    (collation_total : forall a b, localeCompare a b <= 0 \/ localeCompare b a <= 0)
    (sets : list (option (list Message.t))) :
  Sorted (cmpLe (Messages.compareMessages localeCompare))
         (Messages.mergeMessages localeCompare sets).
Proof.
  apply arraySort_sorted. by apply compareMessages_total.
Qed.

(** X2: merging is idempotent: merging the output of a merge again, as one
    set, gives that output back. *)
Theorem merge_idempotent
    (localeCompare : jsstring -> jsstring -> Z)
    (collation_total : forall a b, localeCompare a b <= 0 \/ localeCompare b a <= 0)
    (sets : list (option (list Message.t))) :
  Messages.mergeMessages localeCompare [Some (Messages.mergeMessages localeCompare sets)]
  = Messages.mergeMessages localeCompare sets.
Proof.
  rewrite mergeMessages_distinct_keys.
  - rewrite visited_single. apply arraySort_sorted_id. by apply mergeMessages_sorted.
  - rewrite visited_single. apply mergeMessages_keys_NoDup.
Qed.

Lemma merge_idempotent_scenario :
  let paged := [Messages.testMessage "m2" "c2" 2 2 Sent;
                Messages.testMessage "m3" "c3" 3 3 Sent] in
  let realtime := [Messages.testMessage "m1" "c1" 1 1 Sent;
                   Messages.testMessage "m2-confirmed" "c2" 2 2 Sent] in
  let merged := Messages.mergeMessages codeUnitCompare [Some paged; Some realtime] in
  Messages.mergeMessages codeUnitCompare [Some merged] = merged.
Proof.
  intros paged realtime merged.
  apply (merge_idempotent codeUnitCompare codeUnitCompare_total).
Defined.

(** Once a "sent" message has been folded in under a key, the entry of that
    key stays "sent" whatever is folded in afterwards. *)
Lemma fold_keeps_sent (l : list Message.t) (m : list (jsstring * Message.t))
    (k : jsstring) :
  (exists e, mapGet k m = Some e /\ Message.deliveryState e = Sent) ->
  exists e, mapGet k (fold_left Messages.foldMessage l m) = Some e
            /\ Message.deliveryState e = Sent.
Proof.
  revert m. induction l as [|x l IH]; intros m; simpl; [done|].
  intros (e & Hget & Hsent). apply IH. unfold Messages.foldMessage.
  destruct (decide (Messages.stableClientKey x = k)) as [<-|Hne].
  - rewrite Hget, mapGet_mapSet_eq. eexists. split; [done|].
    rewrite mergeMessageState_cases. apply isSent_true in Hsent. rewrite Hsent. simpl.
    destruct (Messages.isSent x) eqn:Hx; simpl.
    + by apply isSent_true.
    + by apply isSent_true.
  - exists e. split; [|done].
    destruct (mapGet (Messages.stableClientKey x) m); by rewrite mapGet_mapSet_ne.
Qed.

Lemma foldMessage_sent (m : list (jsstring * Message.t)) (x : Message.t) :
  Message.deliveryState x = Sent ->
  mapGet (Messages.stableClientKey x) (Messages.foldMessage m x) = Some x.
Proof.
  intros Hsent. apply isSent_true in Hsent. unfold Messages.foldMessage.
  destruct (mapGet (Messages.stableClientKey x) m) as [e|];
    rewrite mapGet_mapSet_eq; [|done].
  rewrite mergeMessageState_cases, Hsent. simpl. by rewrite andb_false_r.
Qed.

(** X3: "sent" is sticky across a whole merge: if any input message of an
    identity key is "sent", the output entry of that key is "sent", wherever
    the sent message stands among the arguments. *)
Theorem merge_keeps_sent
    (localeCompare : jsstring -> jsstring -> Z) (sets : list (option (list Message.t)))
    (m : Message.t) :
  In m (Messages.visited sets) ->
  Message.deliveryState m = Sent ->
  exists e, In e (Messages.mergeMessages localeCompare sets)
            /\ Messages.stableClientKey e = Messages.stableClientKey m
            /\ Message.deliveryState e = Sent
            /\ (forall e', In e' (Messages.mergeMessages localeCompare sets) ->
                           Messages.stableClientKey e' = Messages.stableClientKey m ->
                           e' = e).
Proof.
  intros Hin Hsent.
  apply in_split in Hin as (l1 & l2 & Hsplit).
  assert (Hfold : exists e,
            mapGet (Messages.stableClientKey m) (Messages.foldSets sets) = Some e
            /\ Message.deliveryState e = Sent).
  { rewrite foldSets_visited, Hsplit, fold_left_app. simpl.
    apply fold_keeps_sent. exists m. split; [|done]. by apply foldMessage_sent. }
  destruct Hfold as (e & Hget & He).
  pose proof (foldSets_keyed sets) as [Hkeyed Hnd].
  assert (Hperm := sortMessages_perm localeCompare (mapValues (Messages.foldSets sets))).
  fold (Messages.mergeMessages localeCompare sets) in Hperm.
  exists e. split; [|split; [|split; [done|]]].
  - apply (Permutation_in _ (Permutation_sym Hperm)).
    apply mapGet_In in Hget. apply in_map_iff. by exists (Messages.stableClientKey m, e).
  - apply mapGet_In in Hget. rewrite List.Forall_forall in Hkeyed.
    apply (Hkeyed _ Hget).
  - intros e' Hin' Hkey'.
    apply (Permutation_in _ Hperm) in Hin'.
    apply in_map_iff in Hin' as ([k v] & Hv & Hin'). simpl in Hv. subst v.
    rewrite List.Forall_forall in Hkeyed. pose proof (Hkeyed _ Hin') as Hk. simpl in Hk.
    rewrite Hkey' in Hk. subst k.
    apply (mapGet_of_In _ _ _ Hnd) in Hin'. congruence.
Qed.

(** The repository's test, reversed: the stale optimistic copy comes first and
    the canonical row second, and the row that is left is "sent". *)
Lemma merge_keeps_sent_scenario :
  let canonical := Messages.testMessage "m1" "c1" 1 1 Sent in
  let staleOptimistic := Messages.testMessage "optimistic-c1" "c1" 1 1 Sending in
  exists e, In e (Messages.mergeMessages codeUnitCompare
                    [Some [staleOptimistic]; Some [canonical]; Some [staleOptimistic]])
            /\ Messages.stableClientKey e = Messages.stableClientKey canonical
            /\ Message.deliveryState e = Sent.
Proof.
  intros canonical staleOptimistic.
  destruct (merge_keeps_sent codeUnitCompare
              [Some [staleOptimistic]; Some [canonical]; Some [staleOptimistic]]
              canonical) as (e & Hin & Hkey & Hsent & _).
  - right. by left.
  - reflexivity.
  - exists e. split; [exact Hin|]. split; [exact Hkey | exact Hsent].
Defined.

Lemma mergeMessageState_self (m : Message.t) : Messages.mergeMessageState m m = m.
Proof. rewrite mergeMessageState_cases. by destruct (_ && _). Qed.

(** The entry left under the key of the message folded last either is that
    message or is a "sent" entry that the message could not replace. *)
Lemma foldMessage_last (m0 : list (jsstring * Message.t)) (x : Message.t) :
  exists r, mapGet (Messages.stableClientKey x) (Messages.foldMessage m0 x) = Some r
            /\ Messages.mergeMessageState r x = r.
Proof.
  unfold Messages.foldMessage.
  destruct (mapGet (Messages.stableClientKey x) m0) as [e|];
    rewrite mapGet_mapSet_eq; eexists; (split; [done|]).
  - rewrite (mergeMessageState_cases e x).
    destruct (Messages.isSent e && negb (Messages.isSent x)) eqn:Hcase.
    + rewrite mergeMessageState_cases. by rewrite Hcase.
    + apply mergeMessageState_self.
  - apply mergeMessageState_self.
Qed.

Lemma visited_pair (l1 l2 : list Message.t) :
  Messages.visited [Some l1; Some l2] = l1 ++ l2.
Proof. unfold Messages.visited. simpl. by rewrite app_nil_r. Qed.

(** A message folded into a merge that already ended with it changes
    nothing. *)
Lemma merge_absorbs_redelivery
    (localeCompare : jsstring -> jsstring -> Z)
    (collation_total : forall a b, localeCompare a b <= 0 \/ localeCompare b a <= 0)
    (l : list Message.t) (x : Message.t) :
  let merged := Messages.mergeMessages localeCompare [Some l; Some [x]] in
  Messages.mergeMessages localeCompare [Some merged; Some [x]] = merged.
Proof.
  intros merged.
  set (F := Messages.foldSets [Some l; Some [x]]).
  assert (HF : F = Messages.foldMessage (fold_left Messages.foldMessage l []) x).
  { unfold F. rewrite foldSets_visited, visited_pair, fold_left_app. done. }
  destruct (foldMessage_last (fold_left Messages.foldMessage l []) x) as (r & Hget & Hr).
  rewrite <- HF in Hget.
  pose proof (foldSets_keyed [Some l; Some [x]]) as [Hkeyed HndF]. fold F in Hkeyed, HndF.
  assert (Hperm : Permutation merged (mapValues F)) by apply sortMessages_perm.
  assert (Hnd : NoDup (List.map Messages.stableClientKey merged))
    by apply mergeMessages_keys_NoDup.
  set (M := List.map (fun y => (Messages.stableClientKey y, y)) merged).
  assert (HM : fold_left Messages.foldMessage merged [] = M).
  { by rewrite fold_distinct_keys. }
  assert (HkeysM : mapKeys M = List.map Messages.stableClientKey merged).
  { unfold M, mapKeys. rewrite List.map_map. done. }
  assert (HvalsM : mapValues M = merged).
  { unfold M, mapValues. rewrite List.map_map. simpl. apply List.map_id. }
  assert (HgetM : mapGet (Messages.stableClientKey x) M = Some r).
  { apply mapGet_of_In; [by rewrite HkeysM|].
    unfold M. apply in_map_iff. exists r.
    assert (Hkr : Messages.stableClientKey r = Messages.stableClientKey x).
    { apply mapGet_In in Hget. rewrite List.Forall_forall in Hkeyed.
      apply (Hkeyed _ Hget). }
    split; [by rewrite Hkr|].
    apply (Permutation_in _ (Permutation_sym Hperm)).
    apply mapGet_In in Hget. apply in_map_iff. by exists (Messages.stableClientKey x, r). }
  unfold Messages.mergeMessages at 1.
  rewrite foldSets_visited, visited_pair, fold_left_app, HM. simpl.
  unfold Messages.foldMessage. rewrite HgetM, Hr, (mapSet_same _ _ _ HgetM), HvalsM.
  apply arraySort_sorted_id. by apply mergeMessages_sorted.
Qed.

(** X4: a realtime message delivered twice is absorbed: upserting the same
    message a second time leaves the store exactly as the first upsert left
    it, in the agent's per-thread store and in the visitor's store. *)
Theorem upsertRealtimeMessage_idempotent
    (localeCompare : jsstring -> jsstring -> Z)
    (collation_total : forall a b, localeCompare a b <= 0 \/ localeCompare b a <= 0)
    (threadId : jsstring) (message : Message.t) :
  (forall state : AgentStore.t,
     AgentStore.upsertRealtimeMessage localeCompare threadId message
       (AgentStore.upsertRealtimeMessage localeCompare threadId message state)
     = AgentStore.upsertRealtimeMessage localeCompare threadId message state)
  /\ (forall state : VisitorStore.t,
        VisitorStore.upsertRealtimeMessage localeCompare message
          (VisitorStore.upsertRealtimeMessage localeCompare message state)
        = VisitorStore.upsertRealtimeMessage localeCompare message state).
Proof.
  split; intros state.
  - unfold AgentStore.upsertRealtimeMessage. simpl.
    rewrite lookup_insert_eq. simpl. rewrite insert_insert_eq.
    by rewrite merge_absorbs_redelivery.
  - unfold VisitorStore.upsertRealtimeMessage. simpl.
    by rewrite merge_absorbs_redelivery.
Qed.

Lemma upsertRealtimeMessage_idempotent_scenario :
  let realtimeA := Messages.testMessage "m-a" "c-a" 2 2 Sent in
  let state := AgentStore.mk ∅ ∅ in
  let once := AgentStore.upsertRealtimeMessage codeUnitCompare (lit "thread-1")
                realtimeA state in
  AgentStore.upsertRealtimeMessage codeUnitCompare (lit "thread-1") realtimeA once = once
  /\ AgentStore.realtimeByThread once !! lit "thread-1" = Some [realtimeA].
Proof.
  intros realtimeA state once.
  destruct (upsertRealtimeMessage_idempotent codeUnitCompare codeUnitCompare_total
              (lit "thread-1") realtimeA) as [Hagent _].
  split; [apply Hagent|]. apply lookup_insert_eq.
Defined.

(** ** utils/messages.ts: [flattenPages] *)

(** X5: pages arrive newest first and are flattened oldest first: flattening
    [newer ++ older] puts the messages of the older pages before those of the
    newer ones, each page's messages in their own order; no message is lost
    or added. *)
Theorem flattenPages_reverses_pages (newer older : list Pages.Page) :
  Pages.flattenPages (newer ++ older)
  = Pages.flattenPages older ++ Pages.flattenPages newer
  /\ (forall page, Pages.flattenPages [page] = Pages.items page)
  /\ (forall m, In m (Pages.flattenPages (newer ++ older))
                <-> exists page, In page (newer ++ older) /\ In m (Pages.items page)).
Proof.
  unfold Pages.flattenPages. split; [|split].
  - by rewrite rev_app_distr, List.map_app, concat_app.
  - intros page. simpl. apply app_nil_r.
  - intros m. rewrite in_concat. split.
    + intros (l & Hl & Hm). apply in_map_iff in Hl as (page & <- & Hpage).
      exists page. split; [|done]. by apply in_rev.
    + intros (page & Hpage & Hm). exists (Pages.items page). split; [|done].
      apply in_map. by apply in_rev in Hpage.
Qed.

(** ** liveness.ts, continued *)

Lemma consistent_step (s : Liveness.t) (op : Liveness.Op) :
  LivenessInvariant.consistent s -> LivenessInvariant.consistent (Liveness.step s op).
Proof.
  intros Hs. destruct op as [v|c|p a|p]; simpl; try exact Hs.
  - unfold Liveness.upsertHeartbeat.
    destruct (Z.ltb_spec a (default 0 (Liveness.participantHeartbeats s !! p)))
      as [Hlt|Hge]; [exact Hs|].
    intros q h. simpl. destruct (decide (p = q)) as [<-|Hne].
    + rewrite lookup_insert_eq. intros [= <-]. split.
      * destruct (Liveness.participantHeartbeats s !! p) as [c|] eqn:Hc; simpl in Hge.
        -- destruct (Hs p c Hc). lia.
        -- lia.
      * eexists. split; [done|]. lia.
    + rewrite lookup_insert_ne by done. intros Hq.
      destruct (Hs q h Hq) as (Hpos & l & Hl & Hle). split; [done|].
      eexists. split; [done|]. rewrite Hl. simpl. lia.
  - unfold Liveness.removeParticipant. destruct (negb _); [exact Hs|].
    intros q h. simpl. intros Hq. apply lookup_delete_Some in Hq as [_ Hq].
    exact (Hs q h Hq).
Qed.

Lemma consistent_run (ops : list Liveness.Op) (s : Liveness.t) :
  LivenessInvariant.consistent s -> LivenessInvariant.consistent (Liveness.run ops s).
Proof.
  revert s. induction ops as [|op ops IH]; intros s Hs; simpl; [done|].
  apply IH. by apply consistent_step.
Qed.

Lemma reachable_consistent (s : Liveness.t) :
  LiveMeta.reachable s -> LivenessInvariant.consistent s.
Proof.
  intros (threadId & ops & ->). apply consistent_run.
  intros p h. simpl. by rewrite lookup_empty.
Qed.

(** X6: in every tracker reached from [createLivenessApi] by any operations,
    each stored participant heartbeat is a non-negative timestamp and
    latestHeartbeatAt is set and at least as recent as it: latestHeartbeatAt
    really is an upper bound of the participants' heartbeats. *)
Theorem latest_heartbeat_bounds_participants (s : Liveness.t)
    (participantId : jsstring) (heartbeat : Z) :
  LiveMeta.reachable s ->
  Liveness.participantHeartbeats s !! participantId = Some heartbeat ->
  0 <= heartbeat
  /\ exists latest, Liveness.latestHeartbeatAt s = Some latest /\ heartbeat <= latest.
Proof. intros Hr. by apply reachable_consistent. Qed.

Lemma latest_heartbeat_bounds_participants_scenario :
  let s := Liveness.run
             [Liveness.UpsertHeartbeat (lit "visitor-1") 5000;
              Liveness.UpsertHeartbeat (lit "agent-1") 9000;
              Liveness.UpsertHeartbeat (lit "visitor-1") 7000;
              Liveness.RemoveParticipant (lit "agent-1")]
             (Liveness.createLivenessApi (lit "thread-1")) in
  Liveness.participantHeartbeats s !! lit "visitor-1" = Some 7000
  /\ exists latest, Liveness.latestHeartbeatAt s = Some latest /\ 7000 <= latest.
Proof.
  intros s.
  assert (Hget : Liveness.participantHeartbeats s !! lit "visitor-1" = Some 7000)
    by reflexivity.
  split; [exact Hget|].
  apply (latest_heartbeat_bounds_participants s (lit "visitor-1") 7000).
  - exists (lit "thread-1"). eexists. reflexivity.
  - exact Hget.
Defined.


(** X8: in a reachable tracker that is online with a subscribed channel, a
    live participant implies a live service: whenever [isParticipantLive]
    holds for some participant, [isServiceLive] holds at the same time. *)
Theorem live_participant_implies_live_service (s : Liveness.t)
    (participantId : jsstring) (now : Z) :
  LiveMeta.reachable s ->
  Liveness.online s = true ->
  Liveness.channelStatus s = SUBSCRIBED ->
  Liveness.isParticipantLive participantId now s = true ->
  Liveness.isServiceLive now s = true.
Proof.
  intros Hr Hon Hch Hlive.
  unfold Liveness.isParticipantLive in Hlive.
  apply isFresh_true in Hlive as (h & Hh & Hne & Hle).
  destruct (reachable_consistent s Hr participantId h Hh) as (Hpos & l & Hl & Hhl).
  unfold Liveness.isServiceLive. rewrite Hon, Hch, bool_decide_eq_true_2 by done. simpl.
  apply isFresh_true. exists l. split; [done|]. split; lia.
Qed.

Lemma live_participant_implies_live_service_scenario :
  let s := Liveness.run
             [Liveness.SetChannelStatus SUBSCRIBED;
              Liveness.UpsertHeartbeat (lit "visitor-1") 1000000]
             (Liveness.createLivenessApi (lit "thread-1")) in
  Liveness.isParticipantLive (lit "visitor-1") 1019999 s = true
  /\ Liveness.isServiceLive 1019999 s = true.
Proof.
  intros s. split; [reflexivity|].
  apply (live_participant_implies_live_service s (lit "visitor-1") 1019999);
    [|reflexivity|reflexivity|reflexivity].
  exists (lit "thread-1"). eexists. reflexivity.
Defined.

(** X9: removing a participant makes that participant not live at every
    time, whether or not it was known, and changes nothing else: every other
    participant's liveness and the service's liveness are as before. *)
Theorem removeParticipant_only_drops_that_participant
    (s : Liveness.t) (participantId : jsstring) (now : Z) :
  let s' := Liveness.removeParticipant participantId s in
  Liveness.isParticipantLive participantId now s' = false
  /\ (forall other, other <> participantId ->
        Liveness.isParticipantLive other now s' = Liveness.isParticipantLive other now s)
  /\ Liveness.isServiceLive now s' = Liveness.isServiceLive now s.
Proof.
  intros s'. subst s'.
  destruct (removeParticipant_spec participantId s) as [Hlatest Hgone].
  split; [|split].
  - unfold Liveness.isParticipantLive. by rewrite Hgone.
  - intros other Hne. unfold Liveness.isParticipantLive, Liveness.removeParticipant.
    destruct (negb _); [done|]. simpl. by rewrite lookup_delete_ne.
  - unfold Liveness.isServiceLive. rewrite Hlatest.
    unfold Liveness.removeParticipant. by destruct (negb _).
Qed.

(** X10: the hooks read liveness from a snapshot with their own copies of the
    checks; on a snapshot of the tracker they agree with the tracker:
    the hooks' [isServiceLive] is the tracker's [isServiceLive], the visitor
    hook's [isAgentLive] is the tracker's [isParticipantLive] for the agent,
    and without any snapshot the service is not live. *)
Theorem hook_liveness_agrees_with_tracker (s : Liveness.t) (agentId : jsstring)
    (clockMs : Z) :
  LiveMeta.isServiceLive (Some (LiveMeta.snapshot s)) clockMs
  = Liveness.isServiceLive clockMs s
  /\ LiveMeta.isAgentLive agentId (Some (LiveMeta.snapshot s)) clockMs
     = Liveness.isParticipantLive agentId clockMs s
  /\ LiveMeta.isServiceLive None clockMs = false
  /\ LiveMeta.isAgentLive agentId None clockMs = false.
Proof.
  split; [|split; [|split]]; try reflexivity.
  unfold LiveMeta.isServiceLive, Liveness.isServiceLive, Liveness.isFresh. simpl.
  destruct (negb (truthyNum (Liveness.latestHeartbeatAt s))); [|done].
  by rewrite andb_false_r.
Qed.

Lemma presenceSyncOver_spec (known ids : list jsstring) (s : Liveness.t) :
  let s' := LiveMeta.presenceSyncOver known ids s in
  (forall p, Liveness.participantHeartbeats s' !! p
             = if bool_decide (p ∈ known /\ p ∉ ids) then None
               else Liveness.participantHeartbeats s !! p)
  /\ Liveness.latestHeartbeatAt s' = Liveness.latestHeartbeatAt s
  /\ Liveness.online s' = Liveness.online s
  /\ Liveness.channelStatus s' = Liveness.channelStatus s
  /\ Liveness.threadId s' = Liveness.threadId s.
Proof.
  revert s. induction known as [|k known IH]; intros s.
  - split; [|done]. intros p. rewrite bool_decide_eq_false_2; [done|].
    intros [Hin _]. by apply elem_of_nil in Hin.
  - set (s1 := if negb (bool_decide (k ∈ ids)) then Liveness.removeParticipant k s else s).
    change (LiveMeta.presenceSyncOver (k :: known) ids s)
      with (LiveMeta.presenceSyncOver known ids s1).
    destruct (IH s1) as (Hlook & Hlat & Hon & Hch & Hthr).
    assert (H1 : (forall p, Liveness.participantHeartbeats s1 !! p
                    = if bool_decide (p = k /\ k ∉ ids) then None
                      else Liveness.participantHeartbeats s !! p)
                 /\ Liveness.latestHeartbeatAt s1 = Liveness.latestHeartbeatAt s
                 /\ Liveness.online s1 = Liveness.online s
                 /\ Liveness.channelStatus s1 = Liveness.channelStatus s
                 /\ Liveness.threadId s1 = Liveness.threadId s).
    { unfold s1. destruct (decide (k ∈ ids)) as [Hin|Hnin].
      - rewrite bool_decide_eq_true_2 by done. simpl. split; [|done].
        intros p. rewrite bool_decide_eq_false_2; [done|]. by intros [_ Hn].
      - rewrite bool_decide_eq_false_2 by done. simpl.
        destruct (removeParticipant_spec k s) as [Hl Hgone].
        split; [|split; [done|]].
        + intros p. destruct (decide (p = k)) as [->|Hne].
          * rewrite bool_decide_eq_true_2 by done. done.
          * rewrite bool_decide_eq_false_2 by (by intros [? _]).
            unfold Liveness.removeParticipant. destruct (negb (bool_decide (is_Some _))); [done|]. simpl.
            by rewrite lookup_delete_ne.
        + unfold Liveness.removeParticipant. by destruct (negb (bool_decide (is_Some _))). }
    destruct H1 as (Hlook1 & Hlat1 & Hon1 & Hch1 & Hthr1).
    split; [|by rewrite Hlat, Hon, Hch, Hthr].
    intros p. rewrite Hlook, Hlook1.
    destruct (decide (p = k)) as [->|Hne].
    + destruct (decide (k ∈ ids)) as [Hin|Hnin].
      * rewrite !bool_decide_eq_false_2 by (by intros [_ Hn]). done.
      * rewrite (bool_decide_eq_true_2 (k = k /\ _)) by done.
        rewrite (bool_decide_eq_true_2 (k ∈ k :: known /\ _))
          by (split; [by left | done]).
        by case_bool_decide.
    + rewrite (bool_decide_eq_false_2 (p = k /\ _)) by (by intros [? _]).
      rewrite (bool_decide_ext (p ∈ known /\ p ∉ ids) (p ∈ k :: known /\ p ∉ ids));
        [done|].
      rewrite elem_of_cons. split.
      * intros [? ?]. split; [by right | done].
      * intros [[?|?] ?]; done.
Qed.

(** X11: a presence sync keeps exactly the reported participants: afterwards a
    participant has a heartbeat entry only if it is in the event's list, with
    the heartbeat it had; everything else in the tracker, latestHeartbeatAt
    included, is untouched. *)
Theorem presenceSync_keeps_reported (ids : list jsstring) (s : Liveness.t) :
  let s' := LiveMeta.presenceSync ids s in
  (forall p, Liveness.participantHeartbeats s' !! p
             = if bool_decide (p ∈ ids) then Liveness.participantHeartbeats s !! p
               else None)
  /\ Liveness.latestHeartbeatAt s' = Liveness.latestHeartbeatAt s
  /\ Liveness.online s' = Liveness.online s
  /\ Liveness.channelStatus s' = Liveness.channelStatus s.
Proof.
  intros s'. subst s'. unfold LiveMeta.presenceSync.
  destruct (presenceSyncOver_spec
              (List.map fst (map_to_list
                 (ThreadLiveMeta.participantHeartbeats (LiveMeta.snapshot s)))) ids s)
    as (Hlook & Hlat & Hon & Hch & _).
  split; [|done]. intros p. rewrite Hlook. simpl.
  destruct (decide (p ∈ ids)) as [Hin|Hnin].
  - rewrite bool_decide_eq_false_2 by (by intros [_ Hn]). by rewrite bool_decide_eq_true_2.
  - rewrite (bool_decide_eq_false_2 (p ∈ ids)) by done.
    destruct (Liveness.participantHeartbeats s !! p) as [h|] eqn:Hp.
    + rewrite bool_decide_eq_true_2; [done|]. split; [|done].
      apply list_elem_of_In, in_map_iff. exists (p, h). split; [done|].
      apply list_elem_of_In. by apply elem_of_map_to_list.
    + by case_bool_decide.
Qed.

(** ** utils/inbox.ts, continued *)

Lemma findIndex_None {A : Type} (p : A -> bool) (l : list A) :
  Inbox.findIndex p l = None <-> forall x, In x l -> p x = false.
Proof.
  induction l as [|a l IH]; simpl; [by split|].
  destruct (p a) eqn:Hpa.
  - split; [discriminate|]. intros H. specialize (H a (or_introl eq_refl)). congruence.
  - destruct (Inbox.findIndex p l) as [i|]; simpl.
    + split; [discriminate|]. intros H.
      assert (Hn : Some i = None) by (apply IH; intros x Hx; apply H; by right).
      discriminate.
    + split; [|done]. intros _ x [<-|Hx]; [done|]. by apply IH.
Qed.

Lemma inbox_comparator_le (a b : InboxThread.t) :
  Inbox.sortInboxThreadComparator a b <= 0 <-> InboxOrder.before a b.
Proof.
  unfold Inbox.sortInboxThreadComparator, InboxOrder.before.
  destruct (Z.eqb_spec (InboxThread.unreadCount b - InboxThread.unreadCount a) 0);
    simpl; lia.
Qed.

Lemma sortInboxThreads_sorted (items : list InboxThread.t) :
  StronglySorted InboxOrder.before (Inbox.sortInboxThreads items).
Proof.
  eapply StronglySorted_weaken; [intros a b; apply inbox_comparator_le|].
  apply arraySort_strongly_sorted.
  - intros a b. rewrite !inbox_comparator_le. unfold InboxOrder.before. lia.
  - intros a b c. rewrite !inbox_comparator_le. unfold InboxOrder.before. lia.
Qed.

Lemma insertedUnknownThread_iff
    (current : option (list InboxThread.t)) (message : Message.t)
    (options : Inbox.ApplyMessageToInboxOptions) :
  Inbox.insertedUnknownThread (Inbox.applyMessageToInbox current message options) = true
  <-> forall item, In item (default [] current) ->
        Thread.id (InboxThread.thread item) <> Message.threadId message.
Proof.
  unfold Inbox.applyMessageToInbox.
  destruct (Inbox.findIndex (Inbox.isThreadOf message) (default [] current)) as [i|] eqn:Hi.
  - assert (Hknown : ~ forall item, In item (default [] current) ->
              Thread.id (InboxThread.thread item) <> Message.threadId message).
    { intros Hall. destruct (findIndex_Some _ _ _ Hi) as (x & Hx & Hp & _).
      apply bool_decide_eq_true in Hp. apply (Hall x); [|done].
      apply list_elem_of_In. by eapply list_elem_of_lookup_2. }
    destruct (default [] current !! i); simpl; (split; [discriminate | tauto]).
  - simpl. split; [|done]. intros _ item Hin Hid.
    pose proof (proj1 (findIndex_None _ _) Hi item Hin) as Hp.
    unfold Inbox.isThreadOf in Hp. by apply bool_decide_eq_false in Hp.
Qed.

(** X12: the inbox that a patch returns is always in display order: every
    entry has at least as many unread messages as every entry after it, and
    among entries with equally many the more recently updated thread comes
    first; this holds for a known thread, an unknown one and an undefined
    inbox alike. *)
Theorem applyMessageToInbox_sorted
    (current : option (list InboxThread.t)) (message : Message.t)
    (options : Inbox.ApplyMessageToInboxOptions) :
  StronglySorted InboxOrder.before
    (Inbox.items (Inbox.applyMessageToInbox current message options)).
Proof.
  unfold Inbox.applyMessageToInbox.
  destruct (Inbox.findIndex _ _) as [i|]; [|apply sortInboxThreads_sorted].
  destruct (default [] current !! i); apply sortInboxThreads_sorted.
Qed.

(** X13: a message of a thread the inbox does not hold adds exactly one
    entry and nothing else: insertedUnknownThread is true exactly when no
    entry has the message's thread id, and then the result is the old entries
    plus one placeholder for that thread (open, created and updated at the
    message's createdAt, the message as lastMessage, unreadCount 0 when the
    agent sent it or the thread is the active one, otherwise 1). *)
Theorem applyMessageToInbox_unknown_thread
    (current : option (list InboxThread.t)) (message : Message.t)
    (options : Inbox.ApplyMessageToInboxOptions) :
  let result := Inbox.applyMessageToInbox current message options in
  let placeholder :=
    {| InboxThread.thread :=
         {| Thread.id := Message.threadId message;
            Thread.status := Open;
            Thread.createdAt := Message.createdAt message;
            Thread.updatedAt := Message.createdAt message |};
       InboxThread.unreadCount :=
         if bool_decide (Message.senderId message = Inbox.agentId options
                         \/ Some (Message.threadId message) = Inbox.activeThreadId options)
         then 0 else 1;
       InboxThread.lastMessage := Some message |} in
  (Inbox.insertedUnknownThread result = true
   <-> forall item, In item (default [] current) ->
         Thread.id (InboxThread.thread item) <> Message.threadId message)
  /\ (Inbox.insertedUnknownThread result = true ->
        Permutation (Inbox.items result) (default [] current ++ [placeholder]))
  /\ length (Inbox.items result)
     = (length (default [] current)
        + if Inbox.insertedUnknownThread result then 1 else 0)%nat.
Proof.
  intros result placeholder. subst result.
  split; [apply insertedUnknownThread_iff|].
  unfold Inbox.applyMessageToInbox.
  destruct (Inbox.findIndex (Inbox.isThreadOf message) (default [] current)) as [i|] eqn:Hi.
  - destruct (default [] current !! i) as [existing|] eqn:Hex; simpl.
    + split; [discriminate|]. unfold Inbox.sortInboxThreads.
      rewrite (Permutation_length (arraySort_perm _ _)), length_insert. lia.
    + split; [discriminate|]. unfold Inbox.sortInboxThreads.
      rewrite (Permutation_length (arraySort_perm _ _)). lia.
  - simpl. split.
    + intros _. unfold Inbox.sortInboxThreads.
      etransitivity; [apply arraySort_perm|].
      apply Permutation_app_head. unfold placeholder, Inbox.placeholderThread.
      destruct (decide (Message.senderId message = Inbox.agentId options)) as [Hs|Hs];
        destruct (decide (Some (Message.threadId message) = Inbox.activeThreadId options))
          as [Ha|Ha].
      * rewrite !bool_decide_eq_true_2 by tauto. done.
      * rewrite (bool_decide_eq_true_2 (_ = Inbox.agentId options)) by done.
        rewrite (bool_decide_eq_true_2 (_ \/ _)) by tauto. done.
      * rewrite (bool_decide_eq_false_2 (_ = Inbox.agentId options)) by done.
        rewrite (bool_decide_eq_true_2 (Some _ = _)) by done.
        rewrite (bool_decide_eq_true_2 (_ \/ _)) by tauto. done.
      * rewrite (bool_decide_eq_false_2 (_ = Inbox.agentId options)) by done.
        rewrite (bool_decide_eq_false_2 (Some _ = _)) by done.
        rewrite (bool_decide_eq_false_2 (_ \/ _)) by tauto. done.
    + unfold Inbox.sortInboxThreads.
      rewrite (Permutation_length (arraySort_perm _ _)), length_app. simpl. lia.
Qed.

Lemma map_insert_same_image {A B : Type} (f : A -> B) (l : list A) (i : nat) (x y : A) :
  l !! i = Some y -> f x = f y -> List.map f (<[i:=x]> l) = List.map f l.
Proof.
  revert i. induction l as [|a l IH]; intros [|i]; simpl; try done.
  - intros [= ->] Hf. by rewrite Hf.
  - intros Hl Hf. f_equal. by apply IH.
Qed.

Lemma applyMessageToInbox_ids_perm
    (current : option (list InboxThread.t)) (message : Message.t)
    (options : Inbox.ApplyMessageToInboxOptions) :
  let result := Inbox.applyMessageToInbox current message options in
  Permutation (InboxOrder.threadIds (Inbox.items result))
    (InboxOrder.threadIds (default [] current)
     ++ if Inbox.insertedUnknownThread result then [Message.threadId message] else []).
Proof.
  intros result. subst result. unfold Inbox.applyMessageToInbox, InboxOrder.threadIds.
  destruct (Inbox.findIndex (Inbox.isThreadOf message) (default [] current)) as [i|] eqn:Hi.
  - destruct (default [] current !! i) as [existing|] eqn:Hex; simpl; rewrite app_nil_r.
    + etransitivity; [apply Permutation_map, arraySort_perm|].
      by rewrite (map_insert_same_image _ _ _ _ existing).
    + apply Permutation_map, arraySort_perm.
  - simpl. etransitivity; [apply Permutation_map, arraySort_perm|].
    by rewrite List.map_app.
Qed.

(** X14: a patch keeps the inbox a list of distinct threads that contains
    the message's thread: the thread ids of the result are those of the old
    inbox together with the message's thread id, and when no thread id
    occurred twice before, none occurs twice afterwards. *)
Theorem applyMessageToInbox_thread_ids
    (current : option (list InboxThread.t)) (message : Message.t)
    (options : Inbox.ApplyMessageToInboxOptions) :
  NoDup (InboxOrder.threadIds (default [] current)) ->
  let items := Inbox.items (Inbox.applyMessageToInbox current message options) in
  NoDup (InboxOrder.threadIds items)
  /\ (forall threadId,
        In threadId (InboxOrder.threadIds items)
        <-> In threadId (InboxOrder.threadIds (default [] current))
            \/ threadId = Message.threadId message).
Proof.
  intros Hnd items. subst items.
  pose proof (applyMessageToInbox_ids_perm current message options) as Hperm.
  pose proof (insertedUnknownThread_iff current message options) as Hiff.
  simpl in Hperm, Hiff.
  destruct (Inbox.insertedUnknownThread (Inbox.applyMessageToInbox current message options))
    eqn:Hins.
  - assert (Habsent : ~ In (Message.threadId message)
                        (InboxOrder.threadIds (default [] current))).
    { intros Hin. apply in_map_iff in Hin as (item & Hid & Hitem).
      by apply (proj1 Hiff eq_refl item Hitem). }
    split.
    + apply NoDup_ListNoDup. eapply Permutation_NoDup; [symmetry; exact Hperm|].
      apply NoDup_ListNoDup, NoDup_app. split; [done|]. split.
      * intros x Hx Hx'. apply list_elem_of_In in Hx, Hx'.
        destruct Hx' as [<-|[]]. done.
      * apply NoDup_singleton.
    + intros threadId. split.
      * intros Hin. apply (Permutation_in _ Hperm) in Hin.
        apply in_app_or in Hin as [?|[<-|[]]]; [by left | by right].
      * intros Hin. apply (Permutation_in _ (Permutation_sym Hperm)).
        apply in_or_app. destruct Hin as [?|Heq]; [by left | right; by left].
  - rewrite app_nil_r in Hperm.
    assert (Hknown : In (Message.threadId message)
                       (InboxOrder.threadIds (default [] current))).
    { destruct (decide (Message.threadId message
                        ∈ InboxOrder.threadIds (default [] current))) as [Hin|Hnin];
        [by apply list_elem_of_In|].
      exfalso. assert (Htrue : false = true); [|discriminate].
      apply Hiff. intros item Hitem Hid.
      apply Hnin, list_elem_of_In, in_map_iff. by exists item. }
    split.
    + apply NoDup_ListNoDup. eapply Permutation_NoDup; [symmetry; exact Hperm|].
      by apply NoDup_ListNoDup.
    + intros threadId. split.
      * intros Hin. left. by apply (Permutation_in _ Hperm).
      * intros [Hin|Heq]; [|rewrite Heq];
          by apply (Permutation_in _ (Permutation_sym Hperm)).
Qed.

Lemma applyMessageToInbox_thread_ids_scenario :
  let current := [Inbox.inboxItem "thread-a" 1 100; Inbox.inboxItem "thread-b" 2 90] in
  let incoming := Messages.testMessage "m4" "c4" 300 1 Sent in
  let options := Inbox.mkOptions (lit "agent-demo") None in
  let items := Inbox.items (Inbox.applyMessageToInbox (Some current) incoming options) in
  InboxOrder.threadIds items = [lit "thread-b"; lit "thread-1"; lit "thread-a"]
  /\ NoDup (InboxOrder.threadIds items).
Proof.
  intros current incoming options items. split; [reflexivity|].
  apply (applyMessageToInbox_thread_ids (Some current) incoming options).
  apply (bool_decide_unpack _). vm_compute. exact I.
Defined.

(** ** hooks/typingController.ts, continued *)

Ltac typing_frame s :=
  unfold TypingRun.sameLog;
  destruct s as [thr part can typ act d i r clock next tms pub];
  unfold Typing.scheduleIdleStop, Typing.ensureRefreshTicker, Typing.clearDebounce,
    Typing.clearIdle, Typing.clearRefresh, Typing.clearTimer, Typing.addTimer,
    Typing.setDebounceTimer, Typing.setIdleTimer, Typing.setRefreshTimer,
    Typing.setLastActivityAt, Typing.setTimers, Typing.setNow,
    Typing.setCurrentCanEmit, Typing.setCurrentThreadId, Typing.setCurrentParticipantId;
  simpl; repeat case_match; simpl; done.

Lemma sameLog_refl s : TypingRun.sameLog s s.
Proof. by unfold TypingRun.sameLog. Qed.

Lemma sameLog_trans s1 s2 s3 :
  TypingRun.sameLog s1 s2 -> TypingRun.sameLog s2 s3 -> TypingRun.sameLog s1 s3.
Proof.
  unfold TypingRun.sameLog. intros (-> & -> & -> & ->) (-> & -> & -> & ->). done.
Qed.

Lemma clearDebounce_sameLog s : TypingRun.sameLog s (Typing.clearDebounce s).
Proof. typing_frame s. Qed.

Lemma clearIdle_sameLog s : TypingRun.sameLog s (Typing.clearIdle s).
Proof. typing_frame s. Qed.

Lemma clearRefresh_sameLog s : TypingRun.sameLog s (Typing.clearRefresh s).
Proof. typing_frame s. Qed.

Lemma scheduleIdleStop_sameLog s : TypingRun.sameLog s (Typing.scheduleIdleStop s).
Proof. typing_frame s. Qed.

Lemma ensureRefreshTicker_sameLog s : TypingRun.sameLog s (Typing.ensureRefreshTicker s).
Proof. typing_frame s. Qed.

Lemma setLastActivityAt_sameLog v s : TypingRun.sameLog s (Typing.setLastActivityAt v s).
Proof. typing_frame s. Qed.

Lemma setNow_sameLog v s : TypingRun.sameLog s (Typing.setNow v s).
Proof. typing_frame s. Qed.

Lemma clearTimer_sameLog h s : TypingRun.sameLog s (Typing.clearTimer h s).
Proof. typing_frame s. Qed.

Lemma setTimers_sameLog v s : TypingRun.sameLog s (Typing.setTimers v s).
Proof. typing_frame s. Qed.

Lemma setDebounceTimer_sameLog v s : TypingRun.sameLog s (Typing.setDebounceTimer v s).
Proof. typing_frame s. Qed.

Lemma addTimer_sameLog cb delay every s :
  TypingRun.sameLog s (Typing.addTimer cb delay every s).
Proof. typing_frame s. Qed.

Lemma stopsFollowStarts_snoc (previous : bool) (log : list TypingPayload.t)
    (payload : TypingPayload.t) :
  TypingRun.stopsFollowStarts previous (log ++ [payload])
  = TypingRun.stopsFollowStarts previous log
    && (TypingPayload.isTyping payload || TypingRun.typingAfter previous log).
Proof.
  revert previous. induction log as [|p log IH]; intros previous; simpl.
  - by rewrite andb_true_r.
  - by rewrite IH, andb_assoc.
Qed.

Lemma typingAfter_snoc (previous : bool) (log : list TypingPayload.t)
    (payload : TypingPayload.t) :
  TypingRun.typingAfter previous (log ++ [payload]) = TypingPayload.isTyping payload.
Proof.
  revert previous. induction log as [|p log IH]; intros previous; simpl; [done|].
  apply IH.
Qed.

Lemma edgeTriggered_sameLog s s' :
  TypingRun.sameLog s s' -> TypingRun.edgeTriggered s -> TypingRun.edgeTriggered s'.
Proof.
  unfold TypingRun.sameLog, TypingRun.edgeTriggered.
  intros (-> & -> & _ & _). done.
Qed.

Lemma emit_edgeTriggered typing force s :
  TypingRun.edgeTriggered s -> TypingRun.edgeTriggered (Typing.emit typing force s).
Proof.
  unfold TypingRun.edgeTriggered, Typing.emit. intros (Hstops & Hlast & Hthreads).
  destruct (truthyOpt (Typing.currentThreadId s)) eqn:Hthr; simpl; [|done].
  destruct (negb force && negb (Typing.currentCanEmit s)); [done|].
  destruct (Bool.eqb (Typing.isTyping s) typing && negb typing) eqn:Hguard; [done|].
  destruct s as [thr part can typ act d i r clock next tms pub]. simpl in *.
  rewrite stopsFollowStarts_snoc, typingAfter_snoc, Hstops, Hlast. simpl.
  split; [|split; [done|]].
  - by destruct typing, typ.
  - apply Forall_app. split; [done|]. constructor; [|done]. simpl.
    by destruct thr.
Qed.

Lemma forceStop_edgeTriggered s :
  TypingRun.edgeTriggered s -> TypingRun.edgeTriggered (Typing.forceStop s).
Proof.
  intros Hs. unfold Typing.forceStop. apply emit_edgeTriggered.
  eapply edgeTriggered_sameLog; [|exact Hs].
  eapply sameLog_trans; [apply clearDebounce_sameLog|].
  eapply sameLog_trans; [apply clearIdle_sameLog|].
  eapply sameLog_trans; [apply clearRefresh_sameLog|].
  apply setLastActivityAt_sameLog.
Qed.

Lemma onInputChange_edgeTriggered value s :
  TypingRun.edgeTriggered s -> TypingRun.edgeTriggered (Typing.onInputChange value s).
Proof.
  intros Hs. unfold Typing.onInputChange.
  destruct (negb (truthy (trim value))); [by apply forceStop_edgeTriggered|].
  assert (H3 : TypingRun.sameLog s
            (Typing.clearDebounce (Typing.scheduleIdleStop
               (Typing.setLastActivityAt (Some (Typing.now s)) s)))).
  { eapply sameLog_trans; [apply setLastActivityAt_sameLog|].
    eapply sameLog_trans; [apply scheduleIdleStop_sameLog|].
    apply clearDebounce_sameLog. }
  simpl. destruct (negb (Typing.currentCanEmit _)).
  - by eapply edgeTriggered_sameLog.
  - eapply edgeTriggered_sameLog; [|exact Hs].
    eapply sameLog_trans; [exact H3|].
    eapply sameLog_trans; [apply addTimer_sameLog|].
    apply setDebounceTimer_sameLog.
Qed.

Lemma call_edgeTriggered c s :
  TypingRun.edgeTriggered s -> TypingRun.edgeTriggered (TypingRun.call c s).
Proof.
  intros Hs. destruct c as [value| |canEmit|threadId|participantId|]; simpl.
  - by apply onInputChange_edgeTriggered.
  - by apply forceStop_edgeTriggered.
  - unfold Typing.setCanEmit.
    assert (H1 : TypingRun.edgeTriggered (Typing.setCurrentCanEmit canEmit s)).
    { destruct s. exact Hs. }
    destruct (_ && _); [by apply forceStop_edgeTriggered | done].
  - unfold Typing.setThreadId.
    assert (H1 : TypingRun.edgeTriggered (Typing.setCurrentThreadId threadId s)).
    { destruct s. exact Hs. }
    destruct (negb _); [by apply forceStop_edgeTriggered | done].
  - destruct s. exact Hs.
  - by apply forceStop_edgeTriggered.
Qed.

Lemma fire_edgeTriggered tm s :
  TypingRun.edgeTriggered s -> TypingRun.edgeTriggered (Typing.fire tm s).
Proof.
  intros Hs. unfold Typing.fire.
  set (s2 := match Typing.every tm with
             | Some period => _
             | None => _
             end).
  assert (H2 : TypingRun.edgeTriggered s2).
  { eapply edgeTriggered_sameLog; [|exact Hs]. unfold s2.
    destruct (Typing.every tm).
    - eapply sameLog_trans; [apply setNow_sameLog | apply setTimers_sameLog].
    - eapply sameLog_trans; [apply setNow_sameLog | apply clearTimer_sameLog]. }
  clearbody s2. unfold Typing.runCallback, Typing.refreshTick.
  destruct (Typing.callback tm).
  - eapply edgeTriggered_sameLog; [apply ensureRefreshTicker_sameLog|].
    by apply emit_edgeTriggered.
  - by apply forceStop_edgeTriggered.
  - destruct (negb _); [done|].
    destruct (_ <=? _); [by apply forceStop_edgeTriggered | by apply emit_edgeTriggered].
Qed.

Lemma runTimers_edgeTriggered fuel target s s' :
  Typing.runTimers fuel target s = Some s' ->
  TypingRun.edgeTriggered s -> TypingRun.edgeTriggered s'.
Proof.
  revert s. induction fuel as [|fuel IH]; intros s; rewrite runTimers_unfold.
  - destruct (Typing.nextTimer (Typing.timers s)) as [tm|].
    + destruct (Typing.due tm <=? target); [discriminate|].
      intros [= <-] Hs. eapply edgeTriggered_sameLog; [apply setNow_sameLog | done].
    + intros [= <-] Hs. eapply edgeTriggered_sameLog; [apply setNow_sameLog | done].
  - destruct (Typing.nextTimer (Typing.timers s)) as [tm|].
    + destruct (Typing.due tm <=? target).
      * intros Hrun Hs. apply (IH _ Hrun). by apply fire_edgeTriggered.
      * intros [= <-] Hs. eapply edgeTriggered_sameLog; [apply setNow_sameLog | done].
    + intros [= <-] Hs. eapply edgeTriggered_sameLog; [apply setNow_sameLog | done].
Qed.

Lemma reachable_edgeTriggered s : TypingRun.Reachable s -> TypingRun.edgeTriggered s.
Proof.
  induction 1 as [thr part can clock|c s _ IH|fuel target s s' _ IH Hrun].
  - unfold TypingRun.edgeTriggered. simpl. by repeat split.
  - by apply call_edgeTriggered.
  - by eapply runTimers_edgeTriggered.
Qed.

(** X15: stops are edge-triggered and starts come first. In every state of a
    controller, however its methods were called and its timers ran: no
    isTyping=false payload was published first or directly after another
    isTyping=false payload, [isTyping] equals the value published last (false
    when nothing was published), and every published payload carries a
    non-empty threadId. *)
Theorem typing_log_edge_triggered (s : Typing.t) :
  TypingRun.Reachable s ->
  TypingRun.stopsFollowStarts false (Typing.published s) = true
  /\ TypingRun.typingAfter false (Typing.published s) = Typing.isTyping s
  /\ Forall (fun payload => truthy (TypingPayload.threadId payload) = true)
            (Typing.published s).
Proof. intros Hr. by apply reachable_edgeTriggered. Qed.

Lemma typing_log_edge_triggered_scenario :
  let s1 := Typing.onInputChange (lit "hello")
              (Typing.createTypingController (Some (lit "thread-1")) (lit "visitor-1")
                 true 1000) in
  exists s', Typing.runTimers 20 4300 s1 = Some s'
             /\ List.map (fun p => (TypingPayload.isTyping p, TypingPayload.at_ p))
                  (Typing.published s')
                = [(true, 1300); (true, 2500); (true, 3700); (false, 4000)]
             /\ TypingRun.stopsFollowStarts false (Typing.published s') = true.
Proof.
  intros s1. eexists. split; [vm_compute; reflexivity|]. split; [reflexivity|].
  refine (proj1 (typing_log_edge_triggered _ _)).
  apply (TypingRun.reach_time 20 4300 s1); [|vm_compute; reflexivity].
  apply (TypingRun.reach_call (TypingRun.OnInputChange (lit "hello"))).
  apply TypingRun.reach_create.
Defined.

(** *** Timer ownership *)

Lemma owned_ext s s' :
  incl (Typing.timers s') (Typing.timers s) ->
  Typing.debounceTimer s' = Typing.debounceTimer s ->
  Typing.idleTimer s' = Typing.idleTimer s ->
  Typing.refreshTimer s' = Typing.refreshTimer s ->
  TypingRun.owned s -> TypingRun.owned s'.
Proof.
  unfold TypingRun.owned, TypingRun.holder. intros Hincl Hd Hi Hr Hs tm Hin.
  rewrite Hd, Hi, Hr. apply Hs. by apply Hincl.
Qed.

Lemma emit_timers typing force s :
  Typing.timers (Typing.emit typing force s) = Typing.timers s
  /\ Typing.debounceTimer (Typing.emit typing force s) = Typing.debounceTimer s
  /\ Typing.idleTimer (Typing.emit typing force s) = Typing.idleTimer s
  /\ Typing.refreshTimer (Typing.emit typing force s) = Typing.refreshTimer s
  /\ Typing.currentThreadId (Typing.emit typing force s) = Typing.currentThreadId s
  /\ Typing.currentCanEmit (Typing.emit typing force s) = Typing.currentCanEmit s
  /\ Typing.now (Typing.emit typing force s) = Typing.now s.
Proof. unfold Typing.emit. destruct s. repeat case_match; done. Qed.

Lemma emit_owned typing force s :
  TypingRun.owned s -> TypingRun.owned (Typing.emit typing force s).
Proof.
  destruct (emit_timers typing force s) as (Ht & Hd & Hi & Hr & _).
  apply owned_ext; try done. rewrite Ht. apply incl_refl.
Qed.

(** Clearing a kind of timer leaves no pending timer of that kind. *)
Lemma clearDebounce_owned s :
  TypingRun.owned s ->
  TypingRun.owned (Typing.clearDebounce s)
  /\ forall tm, In tm (Typing.timers (Typing.clearDebounce s)) ->
                Typing.callback tm <> Typing.OnDebounce.
Proof.
  unfold TypingRun.owned, Typing.clearDebounce, Typing.clearTimer.
  destruct s as [thr part can typ act [d|] i r clock next tms pub]; simpl; intros Hs.
  - split.
    + intros tm Hin. apply List.filter_In in Hin as [Hin Hne].
      specialize (Hs tm Hin). destruct (Typing.callback tm); simpl in *; [|done|done].
      by rewrite Hs in Hne.
    + intros tm Hin Hcb. apply List.filter_In in Hin as [Hin Hne].
      specialize (Hs tm Hin). rewrite Hcb in Hs. simpl in Hs. by rewrite Hs in Hne.
  - split; [done|]. intros tm Hin Hcb. specialize (Hs tm Hin). by rewrite Hcb in Hs.
Qed.

Lemma clearIdle_owned s :
  TypingRun.owned s ->
  TypingRun.owned (Typing.clearIdle s)
  /\ forall tm, In tm (Typing.timers (Typing.clearIdle s)) ->
                Typing.callback tm <> Typing.OnIdle.
Proof.
  unfold TypingRun.owned, Typing.clearIdle, Typing.clearTimer.
  destruct s as [thr part can typ act d [i|] r clock next tms pub]; simpl; intros Hs.
  - split.
    + intros tm Hin. apply List.filter_In in Hin as [Hin Hne].
      specialize (Hs tm Hin). destruct (Typing.callback tm); simpl in *; [done| |done].
      by rewrite Hs in Hne.
    + intros tm Hin Hcb. apply List.filter_In in Hin as [Hin Hne].
      specialize (Hs tm Hin). rewrite Hcb in Hs. simpl in Hs. by rewrite Hs in Hne.
  - split; [done|]. intros tm Hin Hcb. specialize (Hs tm Hin). by rewrite Hcb in Hs.
Qed.

Lemma clearRefresh_owned s :
  TypingRun.owned s -> TypingRun.owned (Typing.clearRefresh s).
Proof.
  unfold TypingRun.owned, Typing.clearRefresh, Typing.clearTimer.
  destruct s as [thr part can typ act d i [r|] clock next tms pub]; simpl; intros Hs;
    [|done].
  intros tm Hin. apply List.filter_In in Hin as [Hin Hne].
  specialize (Hs tm Hin). destruct (Typing.callback tm); simpl in *; [done|done|].
  by rewrite Hs in Hne.
Qed.

Lemma setLastActivityAt_owned v s :
  TypingRun.owned s -> TypingRun.owned (Typing.setLastActivityAt v s).
Proof. destruct s. done. Qed.

Lemma scheduleIdleStop_owned s :
  TypingRun.owned s -> TypingRun.owned (Typing.scheduleIdleStop s).
Proof.
  intros Hs. destruct (clearIdle_owned s Hs) as [Hc Hnone].
  unfold Typing.scheduleIdleStop. revert Hc Hnone.
  generalize (Typing.clearIdle s). clear s Hs.
  intros [thr part can typ act d i r clock next tms pub].
  unfold TypingRun.owned. simpl. intros Hc Hnone tm Hin.
  apply in_app_or in Hin as [Hin|[<-|[]]].
  - specialize (Hc tm Hin). specialize (Hnone tm Hin).
    by destruct (Typing.callback tm).
  - simpl. apply Pos.eqb_refl.
Qed.

Lemma ensureRefreshTicker_owned s :
  TypingRun.owned s -> TypingRun.owned (Typing.ensureRefreshTicker s).
Proof.
  unfold Typing.ensureRefreshTicker, TypingRun.owned.
  destruct s as [thr part can typ act d i [r|] clock next tms pub]; simpl; [done|].
  intros Hs tm Hin. apply in_app_or in Hin as [Hin|[<-|[]]].
  - specialize (Hs tm Hin). by destruct (Typing.callback tm).
  - simpl. apply Pos.eqb_refl.
Qed.

Lemma forceStop_no_timers s :
  TypingRun.owned s -> Typing.timers (Typing.forceStop s) = [].
Proof.
  intros Hs. unfold Typing.forceStop.
  destruct (emit_timers false true
              (Typing.setLastActivityAt None
                 (Typing.clearRefresh (Typing.clearIdle (Typing.clearDebounce s)))))
    as (-> & _).
  assert (Hsame : Typing.timers (Typing.setLastActivityAt None
                    (Typing.clearRefresh (Typing.clearIdle (Typing.clearDebounce s))))
                  = Typing.timers (Typing.clearRefresh (Typing.clearIdle
                                     (Typing.clearDebounce s)))).
  { by destruct (Typing.clearRefresh _). }
  rewrite Hsame.
  destruct (Typing.timers (Typing.clearRefresh (Typing.clearIdle (Typing.clearDebounce s))))
    as [|tm rest] eqn:Htimers; [done|].
  exfalso.
  destruct (clearTimers_spec s tm) as (Hiff & _). rewrite Htimers in Hiff.
  destruct (proj1 Hiff (or_introl eq_refl)) as (Hin & Hd & Hi & Hr).
  specialize (Hs tm Hin). unfold TypingRun.holder in Hs.
  destruct (Typing.callback tm); congruence.
Qed.

Lemma forceStop_owned s :
  TypingRun.owned s -> TypingRun.owned (Typing.forceStop s).
Proof.
  intros Hs tm Hin. by rewrite (forceStop_no_timers s Hs) in Hin.
Qed.

Lemma onInputChange_owned value s :
  TypingRun.owned s -> TypingRun.owned (Typing.onInputChange value s).
Proof.
  intros Hs. unfold Typing.onInputChange.
  destruct (negb (truthy (trim value))); [by apply forceStop_owned|]. simpl.
  assert (H2 : TypingRun.owned (Typing.scheduleIdleStop
                 (Typing.setLastActivityAt (Some (Typing.now s)) s))).
  { by apply scheduleIdleStop_owned, setLastActivityAt_owned. }
  destruct (clearDebounce_owned _ H2) as [H3 Hnone].
  destruct (negb (Typing.currentCanEmit _)); [done|].
  revert H3 Hnone. generalize (Typing.clearDebounce (Typing.scheduleIdleStop
     (Typing.setLastActivityAt (Some (Typing.now s)) s))). clear.
  intros [thr part can typ act d i r clock next tms pub].
  unfold TypingRun.owned. simpl. intros Hc Hnone tm Hin.
  apply in_app_or in Hin as [Hin|[<-|[]]].
  - specialize (Hc tm Hin). specialize (Hnone tm Hin).
    by destruct (Typing.callback tm).
  - simpl. apply Pos.eqb_refl.
Qed.

Lemma call_owned c s : TypingRun.owned s -> TypingRun.owned (TypingRun.call c s).
Proof.
  intros Hs. destruct c as [value| |canEmit|threadId|participantId|]; simpl.
  - by apply onInputChange_owned.
  - by apply forceStop_owned.
  - unfold Typing.setCanEmit.
    assert (H1 : TypingRun.owned (Typing.setCurrentCanEmit canEmit s))
      by (destruct s; exact Hs).
    destruct (_ && _); [by apply forceStop_owned | done].
  - unfold Typing.setThreadId.
    assert (H1 : TypingRun.owned (Typing.setCurrentThreadId threadId s))
      by (destruct s; exact Hs).
    destruct (negb _); [by apply forceStop_owned | done].
  - destruct s. exact Hs.
  - by apply forceStop_owned.
Qed.

Lemma fire_owned tm s : TypingRun.owned s -> TypingRun.owned (Typing.fire tm s).
Proof.
  intros Hs. unfold Typing.fire.
  set (s2 := match Typing.every tm with
             | Some period => _
             | None => _
             end).
  assert (H2 : TypingRun.owned s2).
  { unfold s2. destruct s as [thr part can typ act d i r clock next tms pub].
    unfold TypingRun.owned in *. simpl in *.
    destruct (Typing.every tm) as [period|]; simpl; intros x Hx.
    - unfold Typing.rearm in Hx. apply in_map_iff in Hx as (y & <- & Hy).
      specialize (Hs y Hy).
      destruct (Typing.handle y =? Typing.handle tm)%positive; simpl;
        destruct (Typing.callback y); done.
    - apply List.filter_In in Hx as [Hx _]. by apply Hs. }
  clearbody s2. unfold Typing.runCallback, Typing.refreshTick.
  destruct (Typing.callback tm).
  - by apply ensureRefreshTicker_owned, emit_owned.
  - by apply forceStop_owned.
  - destruct (negb _); [done|].
    destruct (_ <=? _); [by apply forceStop_owned | by apply emit_owned].
Qed.

Lemma runTimers_owned fuel target s s' :
  Typing.runTimers fuel target s = Some s' -> TypingRun.owned s -> TypingRun.owned s'.
Proof.
  revert s. induction fuel as [|fuel IH]; intros s; rewrite runTimers_unfold.
  - destruct (Typing.nextTimer (Typing.timers s)) as [tm|].
    + destruct (Typing.due tm <=? target); [discriminate|].
      intros [= <-] Hs. by destruct s.
    + intros [= <-] Hs. by destruct s.
  - destruct (Typing.nextTimer (Typing.timers s)) as [tm|].
    + destruct (Typing.due tm <=? target).
      * intros Hrun Hs. apply (IH _ Hrun). by apply fire_owned.
      * intros [= <-] Hs. by destruct s.
    + intros [= <-] Hs. by destruct s.
Qed.

Lemma reachable_owned s : TypingRun.Reachable s -> TypingRun.owned s.
Proof.
  induction 1 as [thr part can clock|c s _ IH|fuel target s s' _ IH Hrun].
  - intros tm [].
  - by apply call_owned.
  - by eapply runTimers_owned.
Qed.

(** X16: a controller leaks no timer. In every reachable state each pending
    timer is referred to by the handle variable of its kind, so [destroy]
    (like [forceStop]) leaves no timer pending, and however far the clock
    advances afterwards nothing more is published. *)
Theorem destroy_leaves_no_timer (s : Typing.t) :
  TypingRun.Reachable s ->
  Typing.timers (Typing.destroy s) = []
  /\ forall fuel target,
       exists s', Typing.runTimers fuel target (Typing.destroy s) = Some s'
                  /\ Typing.published s' = Typing.published (Typing.destroy s)
                  /\ Typing.timers s' = [].
Proof.
  intros Hr. pose proof (forceStop_no_timers s (reachable_owned s Hr)) as Hnone.
  unfold Typing.destroy. split; [done|].
  intros fuel target. eexists. split.
  - apply runTimers_quiet. rewrite Hnone. constructor.
  - split; [by destruct (Typing.forceStop s)|].
    rewrite <- Hnone. by destruct (Typing.forceStop s).
Qed.

Lemma destroy_leaves_no_timer_scenario :
  let s1 := Typing.onInputChange (lit "hello")
              (Typing.createTypingController (Some (lit "thread-1")) (lit "visitor-1")
                 true 1000) in
  exists s2, Typing.runTimers 5 2000 s1 = Some s2
             /\ length (Typing.timers s2) = 2%nat
             /\ Typing.timers (Typing.destroy s2) = []
             /\ List.map TypingPayload.isTyping (Typing.published (Typing.destroy s2))
                = [true; false].
Proof.
  intros s1. eexists. split; [vm_compute; reflexivity|].
  split; [reflexivity|]. split; [|reflexivity].
  refine (proj1 (destroy_leaves_no_timer _ _)).
  apply (TypingRun.reach_time 5 2000 s1); [|vm_compute; reflexivity].
  apply (TypingRun.reach_call (TypingRun.OnInputChange (lit "hello"))).
  apply TypingRun.reach_create.
Defined.

(** *** The emission gate *)

Lemma emit_published typing force s :
  Typing.published (Typing.emit typing force s)
  = Typing.published s
    ++ (if truthyOpt (Typing.currentThreadId s)
           && (force || Typing.currentCanEmit s)
           && (typing || Typing.isTyping s)
        then [Typing.payloadOf s typing (Typing.now s)] else [])
  /\ Typing.isTyping (Typing.emit typing force s)
     = (if truthyOpt (Typing.currentThreadId s)
           && (force || Typing.currentCanEmit s)
           && (typing || Typing.isTyping s)
        then typing else Typing.isTyping s).
Proof.
  unfold Typing.emit, Typing.payloadOf.
  destruct s as [thr part can typ act d i r clock next tms pub]. simpl.
  destruct (truthyOpt thr), force, can, typing, typ; simpl; by rewrite ?app_nil_r.
Qed.

Lemma forceStop_published s :
  Typing.published (Typing.forceStop s)
  = Typing.published s
    ++ (if truthyOpt (Typing.currentThreadId s) && Typing.isTyping s
        then [Typing.payloadOf s false (Typing.now s)] else [])
  /\ Typing.isTyping (Typing.forceStop s)
     = (if truthyOpt (Typing.currentThreadId s) then false else Typing.isTyping s)
  /\ Typing.currentThreadId (Typing.forceStop s) = Typing.currentThreadId s
  /\ Typing.currentCanEmit (Typing.forceStop s) = Typing.currentCanEmit s
  /\ Typing.debounceTimer (Typing.forceStop s) = None
  /\ Typing.idleTimer (Typing.forceStop s) = None
  /\ Typing.refreshTimer (Typing.forceStop s) = None
  /\ Typing.lastActivityAt (Typing.forceStop s) = None.
Proof.
  unfold Typing.forceStop.
  set (c := Typing.clearRefresh (Typing.clearIdle (Typing.clearDebounce s))).
  destruct (clearTimers_spec s (Typing.mkTimer 1 0 Typing.OnIdle None))
    as (_ & Hd & Hi & Hr & Ht & Hp & Hcan & Hty & Hnow & Hpub).
  fold c in Hd, Hi, Hr, Ht, Hp, Hcan, Hty, Hnow, Hpub. clearbody c.
  destruct c as [thr part can typ act d i r clock next tms pub]. simpl in *. subst.
  unfold Typing.emit, Typing.payloadOf, Typing.setLastActivityAt. simpl.
  destruct (truthyOpt (Typing.currentThreadId s)), (Typing.isTyping s); simpl;
    by rewrite ?app_nil_r.
Qed.

Lemma fire_gate tm s :
  Typing.currentCanEmit s = false \/ truthyOpt (Typing.currentThreadId s) = false ->
  exists extra,
    Typing.published (Typing.fire tm s) = Typing.published s ++ extra
    /\ Forall (fun payload => TypingPayload.isTyping payload = false) extra
    /\ (truthyOpt (Typing.currentThreadId s) = false -> extra = [])
    /\ Typing.currentCanEmit (Typing.fire tm s) = Typing.currentCanEmit s
    /\ Typing.currentThreadId (Typing.fire tm s) = Typing.currentThreadId s.
Proof.
  intros Hgate. unfold Typing.fire.
  set (s2 := match Typing.every tm with
             | Some period => _
             | None => _
             end).
  assert (H2 : TypingRun.sameLog s s2).
  { unfold s2. destruct (Typing.every tm).
    - eapply sameLog_trans; [apply setNow_sameLog | apply setTimers_sameLog].
    - eapply sameLog_trans; [apply setNow_sameLog | apply clearTimer_sameLog]. }
  clearbody s2. destruct H2 as (Hpub & Hty & Hthr & Hcan).
  rewrite <- Hpub, <- Hthr, <- Hcan. rewrite <- Hthr, <- Hcan in Hgate. clear Hpub Hty Hthr Hcan.
  assert (Hstop : exists extra,
            Typing.published (Typing.forceStop s2) = Typing.published s2 ++ extra
            /\ Forall (fun payload => TypingPayload.isTyping payload = false) extra
            /\ (truthyOpt (Typing.currentThreadId s2) = false -> extra = [])
            /\ Typing.currentCanEmit (Typing.forceStop s2) = Typing.currentCanEmit s2
            /\ Typing.currentThreadId (Typing.forceStop s2) = Typing.currentThreadId s2).
  { destruct (forceStop_published s2) as (Hp & _ & Ht & Hc & _).
    eexists. split; [exact Hp|]. split; [|split; [|done]].
    - destruct (_ && _); repeat constructor.
    - intros ->. done. }
  assert (Hstart : exists extra,
            Typing.published (Typing.emit true false s2) = Typing.published s2 ++ extra
            /\ Forall (fun payload => TypingPayload.isTyping payload = false) extra
            /\ (truthyOpt (Typing.currentThreadId s2) = false -> extra = [])
            /\ Typing.currentCanEmit (Typing.emit true false s2) = Typing.currentCanEmit s2
            /\ Typing.currentThreadId (Typing.emit true false s2)
               = Typing.currentThreadId s2).
  { destruct (emit_published true false s2) as (Hp & _).
    destruct (emit_timers true false s2) as (_ & _ & _ & _ & Ht & Hc & _).
    exists []. rewrite Hp. split; [|done].
    destruct Hgate as [-> | ->]; simpl; by rewrite ?andb_false_r. }
  unfold Typing.runCallback, Typing.refreshTick.
  destruct (Typing.callback tm).
  - destruct Hstart as (extra & Hp & Hall & Hnone & Hc & Ht).
    destruct (ensureRefreshTicker_sameLog (Typing.emit true false s2))
      as (Hp' & _ & Ht' & Hc').
    exists extra. by rewrite Hp', Ht', Hc', Hp, Hc, Ht.
  - exact Hstop.
  - destruct (negb _); [exists []; by rewrite app_nil_r|].
    destruct (_ <=? _); [exact Hstop | exact Hstart].
Qed.

(** X17: the timers respect the gate. While [canEmit] is false, whatever
    timers fall due publish at most isTyping=false payloads, never a start;
    and while the thread id is null or empty they publish nothing at all. *)
Theorem timers_respect_gate (fuel : nat) (target : Z) (s s' : Typing.t) :
  Typing.runTimers fuel target s = Some s' ->
  Typing.currentCanEmit s = false \/ truthyOpt (Typing.currentThreadId s) = false ->
  exists extra,
    Typing.published s' = Typing.published s ++ extra
    /\ Forall (fun payload => TypingPayload.isTyping payload = false) extra
    /\ (truthyOpt (Typing.currentThreadId s) = false -> extra = []).
Proof.
  revert s. induction fuel as [|fuel IH]; intros s; rewrite runTimers_unfold.
  - destruct (Typing.nextTimer (Typing.timers s)) as [tm|].
    + destruct (Typing.due tm <=? target); [discriminate|].
      intros [= <-] _. exists []. destruct s. simpl. by rewrite app_nil_r.
    + intros [= <-] _. exists []. destruct s. simpl. by rewrite app_nil_r.
  - destruct (Typing.nextTimer (Typing.timers s)) as [tm|].
    + destruct (Typing.due tm <=? target).
      * intros Hrun Hgate.
        destruct (fire_gate tm s Hgate) as (e1 & Hp1 & Hall1 & Hnone1 & Hc & Ht).
        destruct (IH _ Hrun) as (e2 & Hp2 & Hall2 & Hnone2).
        { by rewrite Hc, Ht. }
        exists (e1 ++ e2). rewrite Hp2, Hp1, app_assoc.
        split; [done|]. split; [by apply Forall_app|].
        intros Hnull. rewrite Hnone1 by done. rewrite Hnone2 by by rewrite Ht. done.
      * intros [= <-] _. exists []. destruct s. simpl. by rewrite app_nil_r.
    + intros [= <-] _. exists []. destruct s. simpl. by rewrite app_nil_r.
Qed.

Lemma timers_respect_gate_scenario :
  let s1 := Typing.onInputChange (lit "hello")
              (Typing.setIsTyping true
                 (Typing.createTypingController (Some (lit "thread-1"))
                    (lit "visitor-1") false 1000)) in
  exists s', Typing.runTimers 5 9000 s1 = Some s'
             /\ List.map (fun p => (TypingPayload.isTyping p, TypingPayload.at_ p))
                  (Typing.published s') = [(false, 4000)]
             /\ exists extra,
                  Typing.published s' = Typing.published s1 ++ extra
                  /\ Forall (fun payload => TypingPayload.isTyping payload = false) extra.
Proof.
  intros s1. eexists. split; [vm_compute; reflexivity|]. split; [reflexivity|].
  destruct (timers_respect_gate 5 9000 s1 _ ltac:(vm_compute; reflexivity)
              (or_introl eq_refl)) as (extra & Hp & Hall & _).
  exists extra. split; [exact Hp | exact Hall].
Defined.

(** X18: closing the gate retracts what was announced. [setCanEmit(false)] on
    a controller whose gate was open, that is typing and has a thread,
    publishes one isTyping=false payload at once (the forced stop is not
    itself gated), clears the three timer handles and lastActivityAt and
    leaves the controller not typing; setting the gate to the value it
    already has changes nothing. *)
Theorem setCanEmit_false_forces_stop (s : Typing.t) :
  truthyOpt (Typing.currentThreadId s) = true ->
  Typing.currentCanEmit s = true ->
  Typing.isTyping s = true ->
  let s' := Typing.setCanEmit false s in
  Typing.published s' = Typing.published s ++ [Typing.payloadOf s false (Typing.now s)]
  /\ Typing.isTyping s' = false
  /\ Typing.currentCanEmit s' = false
  /\ Typing.debounceTimer s' = None
  /\ Typing.idleTimer s' = None
  /\ Typing.refreshTimer s' = None
  /\ Typing.lastActivityAt s' = None
  /\ Typing.setCanEmit true s = s
  /\ Typing.setCanEmit false s' = s'.
Proof.
  intros Hthr Hcan Hty s'. subst s'. unfold Typing.setCanEmit. rewrite Hcan. simpl.
  destruct (forceStop_published (Typing.setCurrentCanEmit false s))
    as (Hp & Ht & _ & Hc & Hd & Hi & Hr & Ha).
  assert (Hs : Typing.published (Typing.setCurrentCanEmit false s) = Typing.published s
               /\ Typing.isTyping (Typing.setCurrentCanEmit false s) = Typing.isTyping s
               /\ Typing.currentThreadId (Typing.setCurrentCanEmit false s)
                  = Typing.currentThreadId s
               /\ Typing.now (Typing.setCurrentCanEmit false s) = Typing.now s
               /\ Typing.payloadOf (Typing.setCurrentCanEmit false s) false (Typing.now s)
                  = Typing.payloadOf s false (Typing.now s)).
  { by destruct s. }
  destruct Hs as (Hs1 & Hs2 & Hs3 & Hs4 & Hs5).
  rewrite Hs1, Hs2, Hs3, Hs4, Hs5, Hthr, Hty in Hp. simpl in Hp.
  rewrite Hs3, Hthr in Ht.
  split; [done|]. split; [done|]. split; [by rewrite Hc; destruct s|].
  do 4 (split; [done|]).
  split.
  - destruct s. simpl in *. by subst.
  - rewrite Hc. assert (Hcs : Typing.currentCanEmit (Typing.setCurrentCanEmit false s) = false)
      by by destruct s.
    rewrite Hcs. simpl.
    generalize (Typing.forceStop (Typing.setCurrentCanEmit false s)) Hc. rewrite Hcs.
    intros [thr part can typ act d i r clock next tms pub]. simpl. by intros ->.
Qed.

Lemma setCanEmit_false_forces_stop_scenario :
  let s1 := Typing.onInputChange (lit "hello")
              (Typing.createTypingController (Some (lit "thread-1")) (lit "visitor-1")
                 true 1000) in
  exists s2, Typing.runTimers 5 1300 s1 = Some s2
             /\ Typing.isTyping s2 = true
             /\ List.map (fun p => (TypingPayload.isTyping p, TypingPayload.at_ p))
                  (Typing.published (Typing.setCanEmit false s2))
                = [(true, 1300); (false, 1300)].
Proof.
  intros s1. eexists. split; [vm_compute; reflexivity|]. split; [reflexivity|].
  match goal with
  | |- List.map _ (Typing.published (Typing.setCanEmit false ?s2)) = _ =>
      destruct (setCanEmit_false_forces_stop s2 eq_refl eq_refl eq_refl) as (Hp & _)
  end.
  rewrite Hp. reflexivity.
Defined.

Ltac zbool :=
  repeat first
    [ match goal with
      | |- context [(?a <? ?b)%Z] =>
          first [ rewrite (proj2 (Z.ltb_lt a b)) by lia
                | rewrite (proj2 (Z.ltb_ge a b)) by lia ]
      | |- context [(?a <=? ?b)%Z] =>
          first [ rewrite (proj2 (Z.leb_le a b)) by lia
                | rewrite (proj2 (Z.leb_gt a b)) by lia ]
      | |- context [(?a =? ?b)%Z] =>
          first [ rewrite (proj2 (Z.eqb_eq a b)) by lia
                | rewrite (proj2 (Z.eqb_neq a b)) by lia ]
      | |- context [(?a =? ?b)%positive] =>
          first [ rewrite (proj2 (Pos.eqb_eq a b)) by lia
                | rewrite (proj2 (Pos.eqb_neq a b)) by lia ]
      | |- context [Z.max ?a ?b] =>
          first [ rewrite (Z.max_r a b) by lia | rewrite (Z.max_l a b) by lia ]
      end
    | progress simpl ].

Ltac typing_run :=
  cbv beta iota zeta delta
    [Typing.fire Typing.runCallback Typing.refreshTick Typing.forceStop Typing.emit
     Typing.ensureRefreshTicker Typing.scheduleIdleStop Typing.clearDebounce
     Typing.clearIdle Typing.clearRefresh Typing.clearTimer Typing.rearm
     Typing.addTimer Typing.publish Typing.setIsTyping Typing.setNow Typing.setTimers
     Typing.setRefreshTimer Typing.setDebounceTimer Typing.setIdleTimer
     Typing.setLastActivityAt Typing.payloadOf Typing.earlier Typing.nextTimer
     Typing.TYPING_IDLE_MS Typing.TYPING_REFRESH_MS Typing.TYPING_DEBOUNCE_MS
     Typing.currentThreadId Typing.currentParticipantId Typing.currentCanEmit
     Typing.isTyping Typing.lastActivityAt Typing.debounceTimer Typing.idleTimer
     Typing.refreshTimer Typing.now Typing.nextHandle Typing.timers Typing.published
     Typing.handle Typing.due Typing.callback Typing.every
     truthyNum truthyOpt truthy negb andb orb Bool.eqb from_option id
     List.filter List.map];
  simpl.

Ltac typing_close := rewrite <- ?app_assoc; simpl; repeat (f_equal; try lia).

Lemma runTimers_step (fuel : nat) (target : Z) (s : Typing.t) (tm : Typing.Timer) :
  Typing.nextTimer (Typing.timers s) = Some tm ->
  Typing.due tm <= target ->
  Typing.runTimers (S fuel) target s = Typing.runTimers fuel target (Typing.fire tm s).
Proof.
  intros Hnext Hdue. rewrite runTimers_unfold, Hnext.
  by rewrite (proj2 (Z.leb_le _ _) Hdue).
Qed.

(** X19: the timeline of one burst of typing. On a controller at rest (not
    typing, no timer pending, the three handles null) with a thread and an open
    gate, one [onInputChange] with a non-blank value at clock t0 and no
    further call leads, once the clock has reached t0+3000, to exactly these
    payloads: a start at t0+300, a repeated start at each refresh tick t0+1500
    and t0+2700 (none when t0 is 0, which the tick's [!lastActivityAt] test
    takes for "no activity"), and the stop at t0+3000; the controller is then
    at rest again, with no timer pending. *)
Theorem typing_stops_after_idle (s : Typing.t) (value : jsstring) (fuel : nat) (t : Z) :
  truthyOpt (Typing.currentThreadId s) = true ->
  Typing.currentCanEmit s = true ->
  Typing.isTyping s = false ->
  Typing.timers s = [] ->
  Typing.debounceTimer s = None ->
  Typing.idleTimer s = None ->
  Typing.refreshTimer s = None ->
  truthy (trim value) = true ->
  (4 <= fuel)%nat ->
  Typing.now s + 3000 <= t ->
  let t0 := Typing.now s in
  exists s',
    Typing.runTimers fuel t (Typing.onInputChange value s) = Some s'
    /\ Typing.isTyping s' = false
    /\ Typing.timers s' = []
    /\ Typing.published s'
       = Typing.published s
         ++ [Typing.payloadOf s true (t0 + 300)]
         ++ (if t0 =? 0 then []
             else [Typing.payloadOf s true (t0 + 1500);
                   Typing.payloadOf s true (t0 + 2700)])
         ++ [Typing.payloadOf s false (t0 + 3000)].
Proof.
  intros Hthr Hcan Hty Htimers Hd Hi Hr Hvalue Hfuel Ht t0. subst t0.
  destruct s as [thr part can typ act d i r clock next tms pub]. simpl in *. subst.
  destruct thr as [[|c0 l0]|]; try discriminate Hthr. clear Hthr.
  assert (Hk : exists k, fuel = S (S (S (S k)))).
  { exists (fuel - 4)%nat. lia. }
  destruct Hk as [k ->]. clear Hfuel.
  set (thr := Some (c0 :: l0)).
  pose (n2 := Pos.succ (Pos.succ next)).
  pose (idle := Typing.mkTimer next (clock + 3000) Typing.OnIdle None).
  pose (deb := Typing.mkTimer (Pos.succ next) (clock + 300) Typing.OnDebounce None).
  pose (tick := fun due => Typing.mkTimer n2 due Typing.OnRefresh (Some 1200)).
  pose (p := fun typing at_ => TypingPayload.mk (c0 :: l0) part typing at_).
  pose (ticks := if clock =? 0 then [] else [p true (clock + 1500); p true (clock + 2700)]).
  pose (S1 := Typing.mk thr part true false (Some clock) (Some (Pos.succ next))
                (Some next) None clock n2 [idle; deb] pub).
  pose (S2 := Typing.mk thr part true true (Some clock) (Some (Pos.succ next))
                (Some next) (Some n2) (clock + 300) (Pos.succ n2)
                [idle; tick (clock + 1500)] (pub ++ [p true (clock + 300)])).
  pose (S3 := Typing.mk thr part true true (Some clock) (Some (Pos.succ next))
                (Some next) (Some n2) (clock + 1500) (Pos.succ n2)
                [idle; tick (clock + 2700)]
                (pub ++ [p true (clock + 300)]
                     ++ if clock =? 0 then [] else [p true (clock + 1500)])).
  pose (S4 := Typing.mk thr part true true (Some clock) (Some (Pos.succ next))
                (Some next) (Some n2) (clock + 2700) (Pos.succ n2)
                [idle; tick (clock + 3900)]
                (pub ++ [p true (clock + 300)] ++ ticks)).
  pose (S5 := Typing.mk thr part true false None None None None (clock + 3000)
                (Pos.succ n2) []
                (pub ++ [p true (clock + 300)] ++ ticks ++ [p false (clock + 3000)])).
  assert (H1 : Typing.onInputChange value
                 (Typing.mk thr part true false act None None None clock next [] pub)
               = S1).
  { unfold Typing.onInputChange. rewrite Hvalue. subst thr. typing_run. reflexivity. }
  assert (Hn1 : Typing.nextTimer (Typing.timers S1) = Some deb).
  { subst S1 idle deb. typing_run. zbool. reflexivity. }
  assert (Hf1 : Typing.fire deb S1 = S2).
  { subst S1 S2 deb idle tick p thr. typing_run. zbool. typing_close. }
  assert (Hn2 : Typing.nextTimer (Typing.timers S2) = Some (tick (clock + 1500))).
  { subst S2 idle tick. typing_run. zbool. reflexivity. }
  assert (Hf2 : Typing.fire (tick (clock + 1500)) S2 = S3).
  { subst S2 S3 idle tick p thr.
    destruct (Z.eq_dec clock 0) as [Heq|Hne]; [subst clock|]; typing_run; zbool.
    - typing_close.
    - typing_close. }
  assert (Hn3 : Typing.nextTimer (Typing.timers S3) = Some (tick (clock + 2700))).
  { subst S3 idle tick. typing_run. zbool. reflexivity. }
  assert (Hf3 : Typing.fire (tick (clock + 2700)) S3 = S4).
  { subst S3 S4 ticks idle tick p thr.
    destruct (Z.eq_dec clock 0) as [Heq|Hne]; [subst clock|]; typing_run; zbool.
    - typing_close.
    - typing_close. }
  assert (Hn4 : Typing.nextTimer (Typing.timers S4) = Some idle).
  { subst S4 idle tick. typing_run. zbool. reflexivity. }
  assert (Hf4 : Typing.fire idle S4 = S5).
  { subst S4 S5 idle tick p thr. typing_run. zbool. typing_close. }
  rewrite H1.
  rewrite (runTimers_step _ _ _ _ Hn1) by (subst deb; simpl; lia). rewrite Hf1.
  rewrite (runTimers_step _ _ _ _ Hn2) by (subst tick; simpl; lia). rewrite Hf2.
  rewrite (runTimers_step _ _ _ _ Hn3) by (subst tick; simpl; lia). rewrite Hf3.
  rewrite (runTimers_step _ _ _ _ Hn4) by (subst idle; simpl; lia). rewrite Hf4.
  rewrite runTimers_quiet by constructor.
  eexists. split; [reflexivity|]. split; [reflexivity|]. split; [reflexivity|].
  reflexivity.
Qed.


Lemma typing_stops_after_idle_scenario :
  let s := Typing.createTypingController (Some (lit "thread-1")) (lit "visitor-1")
             true 1000 in
  exists s', Typing.runTimers 4 4000 (Typing.onInputChange (lit "hello") s) = Some s'
             /\ Typing.timers s' = []
             /\ List.map (fun p => (TypingPayload.isTyping p, TypingPayload.at_ p))
                  (Typing.published s')
                = [(true, 1300); (true, 2500); (true, 3700); (false, 4000)].
Proof.
  intros s.
  destruct (typing_stops_after_idle s (lit "hello") 4 4000
              eq_refl eq_refl eq_refl eq_refl eq_refl eq_refl eq_refl eq_refl)
    as (s' & Hrun & _ & Htimers & Hpub).
  - lia.
  - simpl. lia.
  - exists s'. split; [exact Hrun|]. split; [exact Htimers|].
    rewrite Hpub. reflexivity.
Defined.


(** ** utils/messageContent.ts *)

Lemma trimStart_idempotent (s : jsstring) : trimStart (trimStart s) = trimStart s.
Proof.
  induction s as [|c s IH]; simpl; [done|].
  destruct (isWhiteSpace c) eqn:Hc; [done|]. simpl. by rewrite Hc.
Qed.

Lemma trimStart_snoc (s : jsstring) (c : N) :
  isWhiteSpace c = false -> trimStart (s ++ [c]) = trimStart s ++ [c].
Proof.
  intros Hc. induction s as [|x s IH]; simpl; [by rewrite Hc|].
  by destruct (isWhiteSpace x).
Qed.

Lemma trimEnd_cons (c : N) (s : jsstring) :
  isWhiteSpace c = false -> trimEnd (c :: s) = c :: trimEnd s.
Proof.
  intros Hc. unfold trimEnd. simpl. rewrite trimStart_snoc by done.
  by rewrite rev_app_distr.
Qed.

Lemma trimEnd_idempotent (s : jsstring) : trimEnd (trimEnd s) = trimEnd s.
Proof. unfold trimEnd. by rewrite rev_involutive, trimStart_idempotent. Qed.

Lemma trimStart_head (s : jsstring) (c : N) (r : jsstring) :
  trimStart s = c :: r -> isWhiteSpace c = false.
Proof.
  induction s as [|x s IH]; simpl; [discriminate|].
  destruct (isWhiteSpace x) eqn:Hx; [exact IH|]. by intros [= <- _].
Qed.

Lemma trim_idempotent (s : jsstring) : trim (trim s) = trim s.
Proof.
  unfold trim. destruct (trimStart s) as [|c r] eqn:Hs; [done|].
  pose proof (trimStart_head _ _ _ Hs) as Hc.
  rewrite trimEnd_cons by done.
  assert (Hfix : trimStart (c :: trimEnd r) = c :: trimEnd r) by (simpl; by rewrite Hc).
  rewrite Hfix, trimEnd_cons by done. by rewrite trimEnd_idempotent.
Qed.

(** X20: what validation accepts. A body is valid exactly when its trimmed
    text is non-empty, at most 500 code units long and not flagged by the
    injection patterns; the value handed on is that trimmed text, and it
    passes validation again unchanged, so the send's own re-validation of an
    already validated body never rejects it. A body of only white space is
    rejected as "empty", with the empty string as value. *)
Theorem validateMessageBody_accepts
    (isPotentialSqlInjection : jsstring -> bool) (body : jsstring) :
  let result := MessageContent.validateMessageBody isPotentialSqlInjection body in
  (MessageContent.isValid result = true
   <-> trim body <> []
       /\ Z.of_nat (length (trim body)) <= 500
       /\ isPotentialSqlInjection (trim body) = false)
  /\ (MessageContent.isValid result = true ->
        MessageContent.value result = trim body
        /\ MessageContent.reason result = None
        /\ MessageContent.validateMessageBody isPotentialSqlInjection
             (MessageContent.value result) = result)
  /\ (MessageContent.isValid result = false -> MessageContent.reason result <> None)
  /\ (trim body = [] ->
        result = MessageContent.mkValidation false (Some MessageContent.empty) []).
Proof.
  intros result. subst result.
  pose proof (trim_idempotent body) as Hidem.
  unfold MessageContent.validateMessageBody, MessageContent.MESSAGE_MAX_LENGTH.
  destruct (trim body) as [|c r] eqn:Htrim.
  - cbn [truthy negb MessageContent.isValid MessageContent.reason].
    split; [split; [discriminate | by intros [? _]]|]. by repeat split.
  - cbn [truthy negb].
    destruct (Z.ltb_spec 500 (Z.of_nat (length (c :: r)))) as [Hlong|Hshort].
    + cbn [MessageContent.isValid MessageContent.reason].
      split; [split; [discriminate | intros (_ & Hlen & _); lia]|].
      split; [discriminate|]. split; [done|]. intros [=].
    + destruct (isPotentialSqlInjection (c :: r)) eqn:Hsql.
      * cbn [MessageContent.isValid MessageContent.reason].
        split; [split; [discriminate | intros (_ & _ & ?); discriminate]|].
        split; [discriminate|]. split; [done|]. intros [=].
      * cbn [MessageContent.isValid MessageContent.reason MessageContent.value].
        split; [split; [intros _; split; [done|]; split; [lia | done] | done]|].
        split.
        { intros _. split; [done|]. split; [done|].
          rewrite Hidem. cbn [truthy negb].
          rewrite (proj2 (Z.ltb_ge _ _) Hshort), Hsql. done. }
        split; [discriminate|]. intros [=].
Qed.

(** ** The optimistic send, beyond the closed gate *)

Lemma agent_removeOptimistic_absent (threadId clientId : jsstring) (state : AgentStore.t) :
  let state' := AgentStore.removeOptimistic threadId clientId state in
  AgentStore.optimisticByThread state' !! threadId
    ≫= (fun byClientId => byClientId !! clientId) = None
  /\ AgentStore.realtimeByThread state' = AgentStore.realtimeByThread state.
Proof.
  unfold AgentStore.removeOptimistic.
  destruct (AgentStore.optimisticByThread state !! threadId) as [b|] eqn:Hb; simpl.
  - destruct (b !! clientId) eqn:Hc; simpl.
    + split; [|done]. case_bool_decide.
      * by rewrite lookup_delete_eq.
      * rewrite lookup_insert_eq. simpl. by rewrite lookup_delete_eq.
    + by rewrite Hb.
  - by rewrite Hb.
Qed.

Lemma agent_markOptimisticFailed_absent (threadId clientId : jsstring)
    (fallback : Message.t) (state : AgentStore.t) :
  AgentStore.optimisticByThread state !! threadId
    ≫= (fun byClientId => byClientId !! clientId) = None ->
  let state' := AgentStore.markOptimisticFailed threadId clientId fallback state in
  AgentStore.optimisticByThread state' !! threadId
    ≫= (fun byClientId => byClientId !! clientId) = Some (Send.asFailed fallback)
  /\ AgentStore.realtimeByThread state' = AgentStore.realtimeByThread state.
Proof.
  intros Habsent. unfold AgentStore.markOptimisticFailed.
  assert (Hc : default ∅ (AgentStore.optimisticByThread state !! threadId) !! clientId
               = (None : option Message.t)).
  { destruct (AgentStore.optimisticByThread state !! threadId); [exact Habsent | done]. }
  rewrite Hc. simpl. rewrite lookup_insert_eq. simpl. by rewrite lookup_insert_eq.
Qed.

Lemma visitor_removeOptimistic_absent (clientId : jsstring) (state : VisitorStore.t) :
  let state' := VisitorStore.removeOptimistic clientId state in
  VisitorStore.optimisticByClientId state' !! clientId = None
  /\ VisitorStore.realtimeMessages state' = VisitorStore.realtimeMessages state.
Proof.
  unfold VisitorStore.removeOptimistic.
  destruct (VisitorStore.optimisticByClientId state !! clientId) eqn:Hc; simpl; [|done].
  by rewrite lookup_delete_eq.
Qed.

Lemma visitor_markOptimisticFailed_absent (clientId : jsstring)
    (fallback : Message.t) (state : VisitorStore.t) :
  VisitorStore.optimisticByClientId state !! clientId = None ->
  let state' := VisitorStore.markOptimisticFailed clientId fallback state in
  VisitorStore.optimisticByClientId state' !! clientId = Some (Send.asFailed fallback)
  /\ VisitorStore.realtimeMessages state' = VisitorStore.realtimeMessages state.
Proof.
  intros Habsent. unfold VisitorStore.markOptimisticFailed. rewrite Habsent. simpl.
  by rewrite lookup_insert_eq.
Qed.

(** X21: a send the repository rejects. With the gate open, a valid body and
    a target thread (on the visitor side also the owning tab, a visitor id
    and an initialised repository), a send whose repository write is rejected
    registers the placeholder, attempts the write once with the placeholder's
    client id, body and timestamp, and marks the placeholder failed. It does
    not broadcast and does not touch the realtime messages; the failed
    placeholder keeps the trimmed body, so a retry can resend it. *)
Theorem send_rejected_by_repository
    (localeCompare : jsstring -> jsstring -> Z)
    (isPotentialSqlInjection : jsstring -> bool)
    (host : Send.Host) (body : jsstring) (existingClientId : option jsstring) :
  MessageContent.isValid
    (MessageContent.validateMessageBody isPotentialSqlInjection body) = true ->
  let clientId := default (Send.createId (lit "client") host) existingClientId in
  (forall (hook : AgentSend.Hook) (w : AgentSend.World),
     AgentSend.canSendMessages hook = true ->
     let threadId := default [] (AgentSend.threadId hook) in
     let optimistic :=
       Send.makeOptimisticMessage Agent clientId threadId AgentSend.AGENT_ID
         (trim body) (Send.dateNow host) Sending in
     let input :=
       SendMessageInput.mk threadId clientId AgentSend.AGENT_ID Agent (trim body)
         (Send.dateNow host) in
     Send.repositoryReply host input = None ->
     let w' := AgentSend.sendInternal localeCompare isPotentialSqlInjection
                 hook host body existingClientId w in
     AgentSend.trace w'
     = AgentSend.trace w ++ [Send.SetOptimistic threadId optimistic;
                             Send.RepositorySendMessage input;
                             Send.MarkOptimisticFailed threadId clientId optimistic]
     /\ AgentStore.optimisticByThread (AgentSend.store w') !! threadId
          ≫= (fun byClientId => byClientId !! clientId)
        = Some (Send.asFailed optimistic)
     /\ AgentStore.realtimeByThread (AgentSend.store w')
        = AgentStore.realtimeByThread (AgentSend.store w))
  /\ (forall (hook : VisitorSend.Hook) (w : VisitorSend.World),
        VisitorSend.canSendMessages hook = true ->
        VisitorSend.repositoryRefCurrent hook = true ->
        let threadId := default [] (VisitorSend.threadId hook) in
        let visitorId := default [] (VisitorSend.visitorId hook) in
        let optimistic :=
          Send.makeOptimisticMessage Visitor clientId threadId visitorId
            (trim body) (Send.dateNow host) Sending in
        let input :=
          SendMessageInput.mk threadId clientId visitorId Visitor (trim body)
            (Send.dateNow host) in
        Send.repositoryReply host input = None ->
        let w' := VisitorSend.sendInternal localeCompare isPotentialSqlInjection
                    hook host body existingClientId w in
        VisitorSend.trace w'
        = VisitorSend.trace w ++ [Send.SetOptimistic threadId optimistic;
                                  Send.RepositorySendMessage input;
                                  Send.MarkOptimisticFailed threadId clientId optimistic]
        /\ VisitorStore.optimisticByClientId (VisitorSend.store w') !! clientId
           = Some (Send.asFailed optimistic)
        /\ VisitorStore.realtimeMessages (VisitorSend.store w')
           = VisitorStore.realtimeMessages (VisitorSend.store w)).
Proof.
  intros Hvalid clientId.
  pose proof (validateMessageBody_valid _ _ Hvalid) as Hvalue.
  split.
  - intros hook w Hcan threadId optimistic input Hreply w'. subst w'.
    assert (Hthread : truthyOpt (AgentSend.threadId hook) = true).
    { unfold AgentSend.canSendMessages in Hcan.
      by apply andb_prop in Hcan as [[? _]%andb_prop _]. }
    unfold AgentSend.sendInternal.
    rewrite Hthread, Hvalid, Hvalue, Hcan. simpl.
    fold clientId threadId optimistic input. rewrite Hreply. simpl.
    rewrite <- !app_assoc. simpl. split; [done|].
    apply (agent_register_then_fail threadId optimistic). done.
  - intros hook w Hcan Hrepo threadId visitorId optimistic input Hreply w'. subst w'.
    assert (Hpre : VisitorSend.canOwnChat hook = true
                   /\ truthyOpt (VisitorSend.threadId hook) = true
                   /\ truthyOpt (VisitorSend.visitorId hook) = true).
    { unfold VisitorSend.canSendMessages in Hcan.
      apply andb_prop in Hcan as [[[[? ?]%andb_prop ?]%andb_prop _]%andb_prop _]. done. }
    destruct Hpre as (Hown & Hthread & Hvisitor).
    unfold VisitorSend.sendInternal.
    rewrite Hown, Hthread, Hvisitor, Hrepo, Hvalid, Hvalue, Hcan. simpl.
    fold clientId threadId visitorId optimistic input. rewrite Hreply. simpl.
    rewrite <- !app_assoc. simpl. split; [done|].
    apply (visitor_register_then_fail optimistic). done.
Qed.

Lemma send_rejected_by_repository_scenario :
  let host := Send.mkHost 1000 (lit "uuid-1") (fun _ => None) true in
  let live := ThreadLiveMeta.mk (lit "thread-1") SUBSCRIBED true None ∅ in
  let hook := AgentSend.mkHook (Some (lit "thread-1")) (Some live) true true in
  let w := AgentSend.mkWorld (AgentStore.mk ∅ ∅) [] in
  let w' := AgentSend.sendInternal codeUnitCompare (fun _ => false) hook host
              (lit " hello ") None w in
  let optimistic :=
    Send.makeOptimisticMessage Agent (lit "client-uuid-1") (lit "thread-1")
      AgentSend.AGENT_ID (lit "hello") 1000 Sending in
  AgentSend.canSendMessages hook = true
  /\ AgentStore.optimisticByThread (AgentSend.store w') !! lit "thread-1"
       ≫= (fun byClientId => byClientId !! lit "client-uuid-1")
     = Some (Send.asFailed optimistic).
Proof.
  intros host live hook w w' optimistic. split; [reflexivity|].
  assert (Hvalid : MessageContent.isValid
            (MessageContent.validateMessageBody (fun _ => false) (lit " hello ")) = true)
    by reflexivity.
  destruct (send_rejected_by_repository codeUnitCompare (fun _ => false) host
              (lit " hello ") None Hvalid) as [Hagent _].
  destruct (Hagent hook w eq_refl eq_refl) as (_ & Hstore & _).
  exact Hstore.
Defined.

(** X22: a send the repository accepts. With the gate open and a valid body,
    once the repository returns the stored message the hook merges it into
    the thread's realtime messages, drops the placeholder, and only then
    broadcasts (when a gateway is attached). A broadcast that fails puts the
    placeholder back as failed even though the message is stored; otherwise
    no placeholder is left under the client id. *)
Theorem send_accepted_by_repository
    (localeCompare : jsstring -> jsstring -> Z)
    (isPotentialSqlInjection : jsstring -> bool)
    (host : Send.Host) (body : jsstring) (existingClientId : option jsstring)
    (message : Message.t) :
  MessageContent.isValid
    (MessageContent.validateMessageBody isPotentialSqlInjection body) = true ->
  let clientId := default (Send.createId (lit "client") host) existingClientId in
  (forall (hook : AgentSend.Hook) (w : AgentSend.World),
     AgentSend.canSendMessages hook = true ->
     let threadId := default [] (AgentSend.threadId hook) in
     let optimistic :=
       Send.makeOptimisticMessage Agent clientId threadId AgentSend.AGENT_ID
         (trim body) (Send.dateNow host) Sending in
     let input :=
       SendMessageInput.mk threadId clientId AgentSend.AGENT_ID Agent (trim body)
         (Send.dateNow host) in
     Send.repositoryReply host input = Some message ->
     let w' := AgentSend.sendInternal localeCompare isPotentialSqlInjection
                 hook host body existingClientId w in
     AgentSend.trace w'
     = AgentSend.trace w
       ++ [Send.SetOptimistic threadId optimistic;
           Send.RepositorySendMessage input;
           Send.UpsertRealtimeMessage threadId message;
           Send.RemoveOptimistic threadId clientId]
       ++ (if AgentSend.gatewayRefCurrent hook
           then Send.GatewaySendMessage threadId message
                :: (if Send.gatewayReply host then []
                    else [Send.MarkOptimisticFailed threadId clientId optimistic])
           else [])
     /\ AgentStore.optimisticByThread (AgentSend.store w') !! threadId
          ≫= (fun byClientId => byClientId !! clientId)
        = (if AgentSend.gatewayRefCurrent hook && negb (Send.gatewayReply host)
           then Some (Send.asFailed optimistic) else None)
     /\ AgentStore.realtimeByThread (AgentSend.store w') !! threadId
        = Some (Messages.mergeMessages localeCompare
                  [Some (default [] (AgentStore.realtimeByThread (AgentSend.store w)
                                       !! threadId));
                   Some [message]]))
  /\ (forall (hook : VisitorSend.Hook) (w : VisitorSend.World),
        VisitorSend.canSendMessages hook = true ->
        VisitorSend.repositoryRefCurrent hook = true ->
        let threadId := default [] (VisitorSend.threadId hook) in
        let visitorId := default [] (VisitorSend.visitorId hook) in
        let optimistic :=
          Send.makeOptimisticMessage Visitor clientId threadId visitorId
            (trim body) (Send.dateNow host) Sending in
        let input :=
          SendMessageInput.mk threadId clientId visitorId Visitor (trim body)
            (Send.dateNow host) in
        Send.repositoryReply host input = Some message ->
        let w' := VisitorSend.sendInternal localeCompare isPotentialSqlInjection
                    hook host body existingClientId w in
        VisitorSend.trace w'
        = VisitorSend.trace w
          ++ [Send.SetOptimistic threadId optimistic;
              Send.RepositorySendMessage input;
              Send.UpsertRealtimeMessage threadId message;
              Send.RemoveOptimistic threadId clientId]
          ++ (if VisitorSend.gatewayRefCurrent hook
              then Send.GatewaySendMessage threadId message
                   :: (if Send.gatewayReply host then []
                       else [Send.MarkOptimisticFailed threadId clientId optimistic])
              else [])
        /\ VisitorStore.optimisticByClientId (VisitorSend.store w') !! clientId
           = (if VisitorSend.gatewayRefCurrent hook && negb (Send.gatewayReply host)
              then Some (Send.asFailed optimistic) else None)
        /\ VisitorStore.realtimeMessages (VisitorSend.store w')
           = Messages.mergeMessages localeCompare
               [Some (VisitorStore.realtimeMessages (VisitorSend.store w));
                Some [message]]).
Proof.
  intros Hvalid clientId.
  pose proof (validateMessageBody_valid _ _ Hvalid) as Hvalue.
  split.
  - intros hook w Hcan threadId optimistic input Hreply w'. subst w'.
    assert (Hthread : truthyOpt (AgentSend.threadId hook) = true).
    { unfold AgentSend.canSendMessages in Hcan.
      by apply andb_prop in Hcan as [[? _]%andb_prop _]. }
    unfold AgentSend.sendInternal.
    rewrite Hthread, Hvalid, Hvalue, Hcan. simpl.
    fold clientId threadId optimistic input. rewrite Hreply.
    set (w2 := AgentSend.perform _ (AgentSend.setOptimistic threadId optimistic w)).
    set (w3 := AgentSend.upsertRealtimeMessage localeCompare threadId message w2).
    pose proof (agent_removeOptimistic_absent threadId clientId (AgentSend.store w3))
      as [Habsent Hrealtime].
    assert (Hmerged :
      AgentStore.realtimeByThread (AgentSend.store w3) !! threadId
      = Some (Messages.mergeMessages localeCompare
                [Some (default [] (AgentStore.realtimeByThread (AgentSend.store w)
                                     !! threadId));
                 Some [message]])).
    { subst w3 w2. simpl. by rewrite lookup_insert_eq. }
    assert (Htrace :
      AgentSend.trace w3
      = AgentSend.trace w ++ [Send.SetOptimistic threadId optimistic;
                              Send.RepositorySendMessage input;
                              Send.UpsertRealtimeMessage threadId message]).
    { subst w3 w2. simpl. by rewrite <- !app_assoc. }
    pose proof (agent_markOptimisticFailed_absent threadId clientId optimistic
                  _ Habsent) as [Hfailed Hkeep].
    destruct (AgentSend.gatewayRefCurrent hook); [destruct (Send.gatewayReply host)|];
      cbn [AgentSend.trace AgentSend.store AgentSend.perform AgentSend.removeOptimistic
           AgentSend.markOptimisticFailed andb negb];
      rewrite Htrace, <- ?app_assoc.
    + split; [done|]. split; [exact Habsent|]. by rewrite Hrealtime.
    + split; [done|]. split; [exact Hfailed|]. by rewrite Hkeep, Hrealtime.
    + split; [done|]. split; [exact Habsent|]. by rewrite Hrealtime.
  - intros hook w Hcan Hrepo threadId visitorId optimistic input Hreply w'. subst w'.
    assert (Hpre : VisitorSend.canOwnChat hook = true
                   /\ truthyOpt (VisitorSend.threadId hook) = true
                   /\ truthyOpt (VisitorSend.visitorId hook) = true).
    { unfold VisitorSend.canSendMessages in Hcan.
      apply andb_prop in Hcan as [[[[? ?]%andb_prop ?]%andb_prop _]%andb_prop _]. done. }
    destruct Hpre as (Hown & Hthread & Hvisitor).
    unfold VisitorSend.sendInternal.
    rewrite Hown, Hthread, Hvisitor, Hrepo, Hvalid, Hvalue, Hcan. simpl.
    fold clientId threadId visitorId optimistic input. rewrite Hreply.
    set (w2 := VisitorSend.perform _ (VisitorSend.setOptimistic threadId optimistic w)).
    set (w3 := VisitorSend.upsertRealtimeMessage localeCompare threadId message w2).
    pose proof (visitor_removeOptimistic_absent clientId (VisitorSend.store w3))
      as [Habsent Hrealtime].
    assert (Hmerged :
      VisitorStore.realtimeMessages (VisitorSend.store w3)
      = Messages.mergeMessages localeCompare
          [Some (VisitorStore.realtimeMessages (VisitorSend.store w)); Some [message]])
      by done.
    assert (Htrace :
      VisitorSend.trace w3
      = VisitorSend.trace w ++ [Send.SetOptimistic threadId optimistic;
                                Send.RepositorySendMessage input;
                                Send.UpsertRealtimeMessage threadId message]).
    { subst w3 w2. simpl. by rewrite <- !app_assoc. }
    pose proof (visitor_markOptimisticFailed_absent clientId optimistic
                  _ Habsent) as [Hfailed Hkeep].
    destruct (VisitorSend.gatewayRefCurrent hook); [destruct (Send.gatewayReply host)|];
      cbn [VisitorSend.trace VisitorSend.store VisitorSend.perform
           VisitorSend.removeOptimistic VisitorSend.markOptimisticFailed andb negb];
      rewrite Htrace, <- ?app_assoc.
    + split; [done|]. split; [exact Habsent|]. by rewrite Hrealtime.
    + split; [done|]. split; [exact Hfailed|]. by rewrite Hkeep, Hrealtime.
    + split; [done|]. split; [exact Habsent|]. by rewrite Hrealtime.
Qed.

Lemma send_accepted_by_repository_scenario :
  let stored :=
    Message.mk (lit "m-1") (lit "client-uuid-1") (lit "thread-1") AgentSend.AGENT_ID
      Agent (lit "hello") 1000 7 Sent in
  let host := Send.mkHost 1000 (lit "uuid-1") (fun _ => Some stored) false in
  let live := ThreadLiveMeta.mk (lit "thread-1") SUBSCRIBED true None ∅ in
  let hook := AgentSend.mkHook (Some (lit "thread-1")) (Some live) true true in
  let w := AgentSend.mkWorld (AgentStore.mk ∅ ∅) [] in
  let w' := AgentSend.sendInternal codeUnitCompare (fun _ => false) hook host
              (lit " hello ") None w in
  let optimistic :=
    Send.makeOptimisticMessage Agent (lit "client-uuid-1") (lit "thread-1")
      AgentSend.AGENT_ID (lit "hello") 1000 Sending in
  AgentSend.canSendMessages hook = true
  /\ AgentStore.optimisticByThread (AgentSend.store w') !! lit "thread-1"
       ≫= (fun byClientId => byClientId !! lit "client-uuid-1")
     = Some (Send.asFailed optimistic)
  /\ AgentStore.realtimeByThread (AgentSend.store w') !! lit "thread-1"
     = Some [stored].
Proof.
  intros stored host live hook w w' optimistic. split; [reflexivity|].
  assert (Hvalid : MessageContent.isValid
            (MessageContent.validateMessageBody (fun _ => false) (lit " hello ")) = true)
    by reflexivity.
  destruct (send_accepted_by_repository codeUnitCompare (fun _ => false) host
              (lit " hello ") None stored Hvalid) as [Hagent _].
  destruct (Hagent hook w eq_refl eq_refl) as (_ & Hstore & Hrealtime).
  split; [exact Hstore | exact Hrealtime].
Defined.

(** ** stores/agentChatStore.ts and stores/visitorChatStore.ts *)

Lemma alreadyFailed_asFailed (m : Message.t) :
  Send.alreadyFailed (Some (Send.asFailed m)) (Send.asFailed (Send.asFailed m)) = true.
Proof.
  unfold Send.alreadyFailed. simpl.
  rewrite !bool_decide_eq_true_2 by done. simpl. apply Z.eqb_refl.
Qed.

(** X23: marking a placeholder failed twice is marking it once, whatever
    fallback the second call carries: the entry is already failed with the
    same body and timestamp, so the store is handed back unchanged. *)
Theorem markOptimisticFailed_idempotent
    (threadId clientId : jsstring) (fallback fallback' : Message.t) :
  (forall state : AgentStore.t,
     AgentStore.markOptimisticFailed threadId clientId fallback'
       (AgentStore.markOptimisticFailed threadId clientId fallback state)
     = AgentStore.markOptimisticFailed threadId clientId fallback state)
  /\ (forall state : VisitorStore.t,
        VisitorStore.markOptimisticFailed clientId fallback'
          (VisitorStore.markOptimisticFailed clientId fallback state)
        = VisitorStore.markOptimisticFailed clientId fallback state).
Proof.
  split; intros state.
  - unfold AgentStore.markOptimisticFailed at 2.
    destruct (Send.alreadyFailed _ _) eqn:Halready.
    + unfold AgentStore.markOptimisticFailed. rewrite Halready.
      destruct (default ∅ (AgentStore.optimisticByThread state !! threadId) !! clientId)
        as [current|] eqn:Hcurrent; [|done].
      simpl in Halready |- *. by rewrite Halready.
    + pose proof (alreadyFailed_asFailed
                    (default fallback
                       (default ∅ (AgentStore.optimisticByThread state !! threadId)
                          !! clientId))) as Hagain.
      remember (Send.asFailed _) as nextFailed eqn:Hnext in Hagain |- *.
      unfold AgentStore.markOptimisticFailed. simpl.
      rewrite lookup_insert_eq. simpl. rewrite lookup_insert_eq. simpl.
      unfold Send.alreadyFailed in Hagain. rewrite Hagain. subst nextFailed.
      by rewrite Halready.
  - unfold VisitorStore.markOptimisticFailed at 2.
    destruct (Send.alreadyFailed _ _) eqn:Halready.
    + unfold VisitorStore.markOptimisticFailed.
      destruct (VisitorStore.optimisticByClientId state !! clientId)
        as [current|] eqn:Hcurrent; [|done].
      simpl in Halready |- *. by rewrite Halready.
    + pose proof (alreadyFailed_asFailed
                    (default fallback
                       (VisitorStore.optimisticByClientId state !! clientId))) as Hagain.
      remember (Send.asFailed _) as nextFailed eqn:Hnext in Hagain |- *.
      unfold VisitorStore.markOptimisticFailed. simpl.
      rewrite lookup_insert_eq. simpl.
      unfold Send.alreadyFailed in Hagain. rewrite Hagain. subst nextFailed.
      by rewrite Halready.
Qed.

(** X24: registering a placeholder and removing it again restores the store,
    provided the client id was not in use and (on the agent side) no thread
    is recorded with an empty bucket: [removeOptimistic] deletes the thread's
    bucket when it becomes empty rather than leaving an empty object. *)
Theorem removeOptimistic_undoes_setOptimistic (message : Message.t) :
  (forall (threadId : jsstring) (state : AgentStore.t),
     SendScope.noEmptyBucket state ->
     AgentStore.optimisticByThread state !! threadId
       ≫= (fun byClientId => byClientId !! Message.clientId message) = None ->
     AgentStore.removeOptimistic threadId (Message.clientId message)
       (AgentStore.setOptimistic threadId message state) = state)
  /\ (forall state : VisitorStore.t,
        VisitorStore.optimisticByClientId state !! Message.clientId message = None ->
        VisitorStore.removeOptimistic (Message.clientId message)
          (VisitorStore.setOptimistic message state) = state).
Proof.
  split.
  - intros threadId [opt rt] Hbuckets Hfree. simpl in Hfree.
    unfold AgentStore.removeOptimistic, AgentStore.setOptimistic. simpl.
    rewrite !lookup_insert_eq. f_equal.
    destruct (opt !! threadId) as [bucket|] eqn:Hbucket; simpl in *.
    + rewrite delete_insert_id by done.
      rewrite bool_decide_eq_false_2.
      * rewrite insert_insert_eq. by apply insert_id.
      * intros ->. by apply (Hbuckets threadId).
    + rewrite delete_insert_id by apply lookup_empty.
      rewrite bool_decide_eq_true_2 by done. by apply delete_insert_id.
  - intros [opt rt] Hfree. simpl in Hfree.
    unfold VisitorStore.removeOptimistic, VisitorStore.setOptimistic. simpl.
    rewrite lookup_insert_eq. f_equal. by apply delete_insert_id.
Qed.

Lemma removeOptimistic_undoes_setOptimistic_scenario :
  let message :=
    Send.makeOptimisticMessage Agent (lit "client-2") (lit "thread-1")
      AgentSend.AGENT_ID (lit "again") 2000 Sending in
  let other :=
    Send.makeOptimisticMessage Agent (lit "client-1") (lit "thread-1")
      AgentSend.AGENT_ID (lit "hello") 1000 Sending in
  let state :=
    AgentStore.mk {[ lit "thread-1" := {[ lit "client-1" := other ]} ]} ∅ in
  AgentStore.removeOptimistic (lit "thread-1") (lit "client-2")
    (AgentStore.setOptimistic (lit "thread-1") message state) = state.
Proof.
  intros message other state.
  apply (proj1 (removeOptimistic_undoes_setOptimistic message) (lit "thread-1") state).
  - intros threadId. unfold state. simpl.
    destruct (decide (threadId = lit "thread-1")) as [->|Hne].
    + rewrite lookup_singleton_eq. intros [= Hempty].
    + by rewrite lookup_singleton_ne.
  - vm_compute. reflexivity.
Defined.

(** X25: the agent's store never records a thread with an empty optimistic
    bucket. The initial store has none, and each of the four actions a send
    dispatches keeps it so. *)
Theorem agent_store_has_no_empty_bucket :
  SendScope.noEmptyBucket (AgentStore.mk ∅ ∅)
  /\ forall state : AgentStore.t,
       SendScope.noEmptyBucket state ->
       (forall threadId message,
          SendScope.noEmptyBucket (AgentStore.setOptimistic threadId message state))
       /\ (forall threadId clientId,
             SendScope.noEmptyBucket (AgentStore.removeOptimistic threadId clientId state))
       /\ (forall threadId clientId fallback,
             SendScope.noEmptyBucket
               (AgentStore.markOptimisticFailed threadId clientId fallback state))
       /\ (forall localeCompare threadId message,
             SendScope.noEmptyBucket
               (AgentStore.upsertRealtimeMessage localeCompare threadId message state)).
Proof.
  split; [intros threadId; simpl; by rewrite lookup_empty|].
  intros state Hstate. repeat split.
  - intros threadId message other. unfold AgentStore.setOptimistic. simpl.
    destruct (decide (threadId = other)) as [->|Hne].
    + rewrite lookup_insert_eq. intros [= Hempty]. by apply insert_non_empty in Hempty.
    + rewrite lookup_insert_ne by done. apply Hstate.
  - intros threadId clientId other. unfold AgentStore.removeOptimistic.
    destruct (AgentStore.optimisticByThread state !! threadId) as [bucket|] eqn:Hbucket;
      [|apply Hstate].
    destruct (bucket !! clientId) eqn:Hentry; [|apply Hstate]. simpl.
    case_bool_decide as Hempty.
    + destruct (decide (threadId = other)) as [->|Hne].
      * by rewrite lookup_delete_eq.
      * rewrite lookup_delete_ne by done. apply Hstate.
    + destruct (decide (threadId = other)) as [->|Hne].
      * rewrite lookup_insert_eq. by intros [= ?].
      * rewrite lookup_insert_ne by done. apply Hstate.
  - intros threadId clientId fallback other. unfold AgentStore.markOptimisticFailed.
    destruct (Send.alreadyFailed _ _); [apply Hstate|]. simpl.
    destruct (decide (threadId = other)) as [->|Hne].
    + rewrite lookup_insert_eq. intros [= Hempty]. by apply insert_non_empty in Hempty.
    + rewrite lookup_insert_ne by done. apply Hstate.
  - intros localeCompare threadId message other. apply Hstate.
Qed.

Lemma agent_store_has_no_empty_bucket_scenario :
  let message :=
    Send.makeOptimisticMessage Agent (lit "client-1") (lit "thread-1")
      AgentSend.AGENT_ID (lit "hello") 1000 Sending in
  SendScope.noEmptyBucket
    (AgentStore.removeOptimistic (lit "thread-1") (lit "client-1")
       (AgentStore.setOptimistic (lit "thread-1") message (AgentStore.mk ∅ ∅))).
Proof.
  intros message.
  destruct agent_store_has_no_empty_bucket as [Hinit Hstep].
  apply (Hstep _ (proj1 (Hstep _ Hinit) (lit "thread-1") message)).
Defined.

(** ** What a send may change *)

Lemma placeholder_default (state : AgentStore.t) (threadId k : jsstring) :
  default ∅ (AgentStore.optimisticByThread state !! threadId) !! k
  = SendReach.placeholder state threadId k.
Proof.
  unfold SendReach.placeholder.
  by destruct (AgentStore.optimisticByThread state !! threadId).
Qed.

Lemma placeholder_insert (state : AgentStore.t) (rt : gmap jsstring (list Message.t))
    (threadId clientId : jsstring) (m : Message.t) (other k : jsstring) :
  (other, k) <> (threadId, clientId) ->
  SendReach.placeholder
    (AgentStore.mk
       (<[threadId := <[clientId := m]>
                        (default ∅ (AgentStore.optimisticByThread state !! threadId))]>
          (AgentStore.optimisticByThread state)) rt) other k
  = SendReach.placeholder state other k.
Proof.
  intros Hne. unfold SendReach.placeholder at 1. simpl.
  destruct (decide (threadId = other)) as [->|Hthread].
  - rewrite lookup_insert_eq. simpl.
    rewrite lookup_insert_ne by congruence. apply placeholder_default.
  - by rewrite lookup_insert_ne.
Qed.

Lemma setOptimistic_placeholder (threadId : jsstring) (m : Message.t)
    (state : AgentStore.t) (other k : jsstring) :
  (other, k) <> (threadId, Message.clientId m) ->
  SendReach.placeholder (AgentStore.setOptimistic threadId m state) other k
  = SendReach.placeholder state other k.
Proof. apply placeholder_insert. Qed.

Lemma markOptimisticFailed_placeholder (threadId clientId : jsstring)
    (fallback : Message.t) (state : AgentStore.t) (other k : jsstring) :
  (other, k) <> (threadId, clientId) ->
  SendReach.placeholder (AgentStore.markOptimisticFailed threadId clientId fallback state)
    other k
  = SendReach.placeholder state other k.
Proof.
  intros Hne. unfold AgentStore.markOptimisticFailed.
  destruct (Send.alreadyFailed _ _); [done|]. by apply placeholder_insert.
Qed.

Lemma removeOptimistic_placeholder (threadId clientId : jsstring)
    (state : AgentStore.t) (other k : jsstring) :
  (other, k) <> (threadId, clientId) ->
  SendReach.placeholder (AgentStore.removeOptimistic threadId clientId state) other k
  = SendReach.placeholder state other k.
Proof.
  intros Hne. unfold AgentStore.removeOptimistic.
  destruct (AgentStore.optimisticByThread state !! threadId) as [bucket|] eqn:Hbucket;
    [|done].
  destruct (bucket !! clientId) eqn:Hentry; [|done].
  unfold SendReach.placeholder. simpl.
  destruct (decide (threadId = other)) as [->|Hthread].
  - rewrite Hbucket. simpl. case_bool_decide as Hempty.
    + rewrite lookup_delete_eq. simpl.
      rewrite <- (lookup_delete_ne bucket clientId k) by congruence.
      by rewrite Hempty, lookup_empty.
    + rewrite lookup_insert_eq. simpl. apply lookup_delete_ne. congruence.
  - case_bool_decide.
    + by rewrite lookup_delete_ne.
    + by rewrite lookup_insert_ne.
Qed.

Lemma scoped_refl (target clientId : jsstring) (w : AgentSend.World) :
  SendReach.scoped target clientId w w.
Proof.
  split; [done|]. split; [done|]. exists []. by rewrite app_nil_r.
Qed.

Lemma scoped_step (target clientId : jsstring) (w w1 : AgentSend.World)
    (state : AgentStore.t) (e : Send.Effect) :
  SendReach.scoped target clientId w w1 ->
  (forall threadId k, (threadId, k) <> (target, clientId) ->
     SendReach.placeholder state threadId k
     = SendReach.placeholder (AgentSend.store w1) threadId k) ->
  (forall threadId, threadId <> target ->
     AgentStore.realtimeByThread state !! threadId
     = AgentStore.realtimeByThread (AgentSend.store w1) !! threadId) ->
  SendScope.effectThread e = target ->
  SendReach.scoped target clientId w (AgentSend.mkWorld state (AgentSend.trace w1 ++ [e])).
Proof.
  intros (Hplace & Hrealtime & extra & Htrace & Hextra) Hstate Hrt He.
  split; [|split].
  - intros threadId k Hne. simpl. by rewrite Hstate, Hplace.
  - intros threadId Hne. simpl. by rewrite Hrt, Hrealtime.
  - exists (extra ++ [e]). simpl. rewrite Htrace, <- app_assoc. split; [done|].
    apply Forall_app. split; [done|]. by constructor.
Qed.

Lemma agent_send_scoped
    (localeCompare : jsstring -> jsstring -> Z)
    (isPotentialSqlInjection : jsstring -> bool)
    (hook : AgentSend.Hook) (host : Send.Host) (body : jsstring)
    (existingClientId : option jsstring) (w : AgentSend.World) :
  SendReach.scoped (default [] (AgentSend.threadId hook))
    (default (Send.createId (lit "client") host) existingClientId)
    w
    (AgentSend.sendInternal localeCompare isPotentialSqlInjection hook host body
       existingClientId w).
Proof.
  set (target := default [] (AgentSend.threadId hook)).
  set (clientId := default (Send.createId (lit "client") host) existingClientId).
  assert (Hset : forall w1 m, Message.clientId m = clientId ->
            SendReach.scoped target clientId w w1 ->
            SendReach.scoped target clientId w (AgentSend.setOptimistic target m w1)).
  { intros w1 m Hm Hw1. apply scoped_step; [done| | |done].
    - intros threadId k Hne. apply setOptimistic_placeholder. by rewrite Hm.
    - done. }
  assert (Hmark : forall w1 m,
            SendReach.scoped target clientId w w1 ->
            SendReach.scoped target clientId w
              (AgentSend.markOptimisticFailed target clientId m w1)).
  { intros w1 m Hw1. apply scoped_step; [done| | |done].
    - intros threadId k Hne. by apply markOptimisticFailed_placeholder.
    - intros threadId Hne. unfold AgentStore.markOptimisticFailed.
      by destruct (Send.alreadyFailed _ _). }
  assert (Hremove : forall w1,
            SendReach.scoped target clientId w w1 ->
            SendReach.scoped target clientId w
              (AgentSend.removeOptimistic target clientId w1)).
  { intros w1 Hw1. apply scoped_step; [done| | |done].
    - intros threadId k Hne. by apply removeOptimistic_placeholder.
    - intros threadId Hne. unfold AgentStore.removeOptimistic.
      destruct (_ !! target); [|done]. by destruct (_ !! clientId). }
  assert (Hupsert : forall w1 m,
            SendReach.scoped target clientId w w1 ->
            SendReach.scoped target clientId w
              (AgentSend.upsertRealtimeMessage localeCompare target m w1)).
  { intros w1 m Hw1. apply scoped_step; [done|done| |done].
    intros threadId Hne. simpl. by rewrite lookup_insert_ne. }
  assert (Hperform : forall w1 e, SendScope.effectThread e = target ->
            SendReach.scoped target clientId w w1 ->
            SendReach.scoped target clientId w (AgentSend.perform e w1)).
  { intros w1 e He Hw1. by apply scoped_step. }
  pose proof (scoped_refl target clientId w) as Hrefl.
  unfold AgentSend.sendInternal. fold target clientId.
  destruct (negb (truthyOpt (AgentSend.threadId hook))); [done|].
  destruct (negb (MessageContent.isValid _)); [done|].
  destruct (negb (AgentSend.canSendMessages hook)).
  { apply Hmark, Hset; done. }
  destruct (Send.repositoryReply host _) as [message|].
  - destruct (AgentSend.gatewayRefCurrent hook); [destruct (Send.gatewayReply host)|].
    + apply Hperform, Hremove, Hupsert, Hperform, Hset; done.
    + apply Hmark, Hperform, Hremove, Hupsert, Hperform, Hset; done.
    + apply Hremove, Hupsert, Hperform, Hset; done.
  - apply Hmark, Hperform, Hset; done.
Qed.

Lemma visitorScoped_refl (clientId : jsstring) (w : VisitorSend.World) :
  SendReach.visitorScoped clientId w w.
Proof. done. Qed.

Lemma visitorScoped_step (clientId : jsstring) (w w1 : VisitorSend.World)
    (state : VisitorStore.t) (trace : list Send.Effect) :
  SendReach.visitorScoped clientId w w1 ->
  (forall k, k <> clientId ->
     VisitorStore.optimisticByClientId state !! k
     = VisitorStore.optimisticByClientId (VisitorSend.store w1) !! k) ->
  SendReach.visitorScoped clientId w (VisitorSend.mkWorld state trace).
Proof.
  intros Hplace Hstate k Hne. simpl. by rewrite Hstate, Hplace.
Qed.

Lemma visitor_send_scoped
    (localeCompare : jsstring -> jsstring -> Z)
    (isPotentialSqlInjection : jsstring -> bool)
    (hook : VisitorSend.Hook) (host : Send.Host) (body : jsstring)
    (existingClientId : option jsstring) (w : VisitorSend.World) :
  SendReach.visitorScoped
    (default (Send.createId (lit "client") host) existingClientId)
    w
    (VisitorSend.sendInternal localeCompare isPotentialSqlInjection hook host body
       existingClientId w).
Proof.
  set (target := default [] (VisitorSend.threadId hook)).
  set (clientId := default (Send.createId (lit "client") host) existingClientId).
  assert (Hset : forall w1 m, Message.clientId m = clientId ->
            SendReach.visitorScoped clientId w w1 ->
            SendReach.visitorScoped clientId w (VisitorSend.setOptimistic target m w1)).
  { intros w1 m Hm Hw1. apply (visitorScoped_step clientId w w1); [done|].
    intros k Hne. simpl. rewrite lookup_insert_ne; [done|]. by rewrite Hm. }
  assert (Hmark : forall w1 m,
            SendReach.visitorScoped clientId w w1 ->
            SendReach.visitorScoped clientId w
              (VisitorSend.markOptimisticFailed target clientId m w1)).
  { intros w1 m Hw1. apply (visitorScoped_step clientId w w1); [done|].
    intros k Hne. unfold VisitorStore.markOptimisticFailed.
    destruct (Send.alreadyFailed _ _); [done|]. simpl. by rewrite lookup_insert_ne. }
  assert (Hremove : forall w1,
            SendReach.visitorScoped clientId w w1 ->
            SendReach.visitorScoped clientId w
              (VisitorSend.removeOptimistic target clientId w1)).
  { intros w1 Hw1. apply (visitorScoped_step clientId w w1); [done|].
    intros k Hne. unfold VisitorStore.removeOptimistic.
    destruct (_ !! clientId); [|done]. simpl. by rewrite lookup_delete_ne. }
  assert (Hupsert : forall w1 m,
            SendReach.visitorScoped clientId w w1 ->
            SendReach.visitorScoped clientId w
              (VisitorSend.upsertRealtimeMessage localeCompare target m w1)).
  { intros w1 m Hw1. by apply (visitorScoped_step clientId w w1). }
  assert (Hperform : forall w1 e,
            SendReach.visitorScoped clientId w w1 ->
            SendReach.visitorScoped clientId w (VisitorSend.perform e w1)).
  { intros w1 e Hw1. by apply (visitorScoped_step clientId w w1). }
  pose proof (visitorScoped_refl clientId w) as Hrefl.
  unfold VisitorSend.sendInternal. fold target clientId.
  destruct (_ || _); [done|].
  destruct (negb (MessageContent.isValid _)); [done|].
  destruct (negb (VisitorSend.canSendMessages hook)).
  { apply Hmark, Hset; done. }
  destruct (Send.repositoryReply host _) as [message|].
  - destruct (VisitorSend.gatewayRefCurrent hook); [destruct (Send.gatewayReply host)|].
    + apply Hperform, Hremove, Hupsert, Hperform, Hset; done.
    + apply Hmark, Hperform, Hremove, Hupsert, Hperform, Hset; done.
    + apply Hremove, Hupsert, Hperform, Hset; done.
  - apply Hmark, Hperform, Hset; done.
Qed.

(** X26: a send stays within its own thread and its own placeholder. Whatever
    the hook's state, the host's replies and the body, the agent's
    [sendInternal] leaves every placeholder other than the one under its
    client id as it was, leaves the realtime messages of every other thread as
    they were, and addresses every effect it adds (store action, repository
    write, broadcast) to the target thread; the visitor's [sendInternal]
    leaves every placeholder other than the one under its client id as it
    was. *)
Theorem send_changes_only_its_own
    (localeCompare : jsstring -> jsstring -> Z)
    (isPotentialSqlInjection : jsstring -> bool)
    (host : Send.Host) (body : jsstring) (existingClientId : option jsstring) :
  let clientId := default (Send.createId (lit "client") host) existingClientId in
  (forall (hook : AgentSend.Hook) (w : AgentSend.World),
     SendReach.scoped (default [] (AgentSend.threadId hook)) clientId w
       (AgentSend.sendInternal localeCompare isPotentialSqlInjection hook host body
          existingClientId w))
  /\ (forall (hook : VisitorSend.Hook) (w : VisitorSend.World),
        SendReach.visitorScoped clientId w
          (VisitorSend.sendInternal localeCompare isPotentialSqlInjection hook host body
             existingClientId w)).
Proof.
  intros clientId. split; intros hook w.
  - apply agent_send_scoped.
  - apply visitor_send_scoped.
Qed.

(** X27: a retry never adds a placeholder. The send that [retryMessage]
    starts for a failed placeholder reuses its client id, so whatever the
    gate, the repository and the gateway do, every placeholder in the store
    after a retry was a placeholder before it (it may have been replaced, or
    removed once the repository accepted the message). *)
Theorem retry_adds_no_placeholder
    (localeCompare : jsstring -> jsstring -> Z)
    (isPotentialSqlInjection : jsstring -> bool)
    (host : Send.Host) (clientId : jsstring) :
  (forall (hook : AgentSend.Hook) (w : AgentSend.World) (threadId k : jsstring),
     is_Some (SendReach.placeholder
                (AgentSend.store
                   (AgentRetry.retryMessage localeCompare isPotentialSqlInjection
                      hook host clientId w)) threadId k) ->
     is_Some (SendReach.placeholder (AgentSend.store w) threadId k))
  /\ (forall (hook : VisitorSend.Hook) (w : VisitorSend.World) (k : jsstring),
        is_Some (VisitorStore.optimisticByClientId
                   (VisitorSend.store
                      (VisitorRetry.retryMessage localeCompare isPotentialSqlInjection
                         hook host clientId w)) !! k) ->
        is_Some (VisitorStore.optimisticByClientId (VisitorSend.store w) !! k)).
Proof.
  split.
  - intros hook w threadId k. unfold AgentRetry.retryMessage.
    destruct (negb (truthyOpt (AgentSend.threadId hook))); [done|].
    rewrite placeholder_default.
    destruct (SendReach.placeholder (AgentSend.store w) _ clientId) as [failed|] eqn:Hfailed;
      [|done].
    destruct (negb (bool_decide (Message.deliveryState failed = Failed))); [done|].
    pose proof (agent_send_scoped localeCompare isPotentialSqlInjection hook host
                  (Message.body failed) (Some clientId) w) as (Hplace & _).
    simpl in Hplace.
    destruct (decide ((threadId, k) = (default [] (AgentSend.threadId hook), clientId)))
      as [[= -> ->]|Hne].
    + intros _. by rewrite Hfailed.
    + by rewrite Hplace.
  - intros hook w k. unfold VisitorRetry.retryMessage.
    destruct (VisitorStore.optimisticByClientId (VisitorSend.store w) !! clientId)
      as [failed|] eqn:Hfailed; [|done].
    destruct (negb (bool_decide (Message.deliveryState failed = Failed))); [done|].
    pose proof (visitor_send_scoped localeCompare isPotentialSqlInjection hook host
                  (Message.body failed) (Some clientId) w) as Hplace.
    simpl in Hplace.
    destruct (decide (k = clientId)) as [->|Hne].
    + intros _. by rewrite Hfailed.
    + by rewrite Hplace.
Qed.

Lemma retry_adds_no_placeholder_scenario :
  let failed :=
    Send.makeOptimisticMessage Agent (lit "client-1") (lit "thread-1")
      AgentSend.AGENT_ID (lit "hello") 1000 Failed in
  let host := Send.mkHost 2000 (lit "uuid-2") (fun _ => None) true in
  let live := ThreadLiveMeta.mk (lit "thread-1") SUBSCRIBED true None ∅ in
  let hook := AgentSend.mkHook (Some (lit "thread-1")) (Some live) true true in
  let w :=
    AgentSend.mkWorld
      (AgentStore.mk {[ lit "thread-1" := {[ lit "client-1" := failed ]} ]} ∅) [] in
  let w' := AgentRetry.retryMessage codeUnitCompare (fun _ => false) hook host
              (lit "client-1") w in
  SendReach.placeholder (AgentSend.store w') (lit "thread-1") (lit "client-1")
  = Some (Send.makeOptimisticMessage Agent (lit "client-1") (lit "thread-1")
            AgentSend.AGENT_ID (lit "hello") 2000 Failed)
  /\ is_Some (SendReach.placeholder (AgentSend.store w) (lit "thread-1") (lit "client-1")).
Proof.
  intros failed host live hook w w'.
  assert (Hafter :
    SendReach.placeholder (AgentSend.store w') (lit "thread-1") (lit "client-1")
    = Some (Send.makeOptimisticMessage Agent (lit "client-1") (lit "thread-1")
              AgentSend.AGENT_ID (lit "hello") 2000 Failed))
    by (vm_compute; reflexivity).
  split; [exact Hafter|].
  apply (proj1 (retry_adds_no_placeholder codeUnitCompare (fun _ => false) host
                  (lit "client-1")) hook w (lit "thread-1") (lit "client-1")).
  fold w'. rewrite Hafter. by eexists.
Defined.

(** X28: when a send does nothing, and what it does first otherwise. A send
    without a target thread or with an invalid body (on the visitor side
    also: from a tab that does not own the chat, without a visitor id, or
    before the repository exists) returns with the store and the trace
    untouched. Every other send first registers the placeholder, in state
    "sending", with the trimmed body and the call's client id, before any
    gate is looked at or any request is made. *)
Theorem send_registers_placeholder_first
    (localeCompare : jsstring -> jsstring -> Z)
    (isPotentialSqlInjection : jsstring -> bool)
    (host : Send.Host) (body : jsstring) (existingClientId : option jsstring) :
  let clientId := default (Send.createId (lit "client") host) existingClientId in
  let valid :=
    MessageContent.isValid
      (MessageContent.validateMessageBody isPotentialSqlInjection body) in
  (forall (hook : AgentSend.Hook) (w : AgentSend.World),
     let threadId := default [] (AgentSend.threadId hook) in
     let w' := AgentSend.sendInternal localeCompare isPotentialSqlInjection
                 hook host body existingClientId w in
     if truthyOpt (AgentSend.threadId hook) && valid
     then exists rest,
            AgentSend.trace w'
            = AgentSend.trace w
              ++ Send.SetOptimistic threadId
                   (Send.makeOptimisticMessage Agent clientId threadId AgentSend.AGENT_ID
                      (trim body) (Send.dateNow host) Sending)
                 :: rest
     else w' = w)
  /\ (forall (hook : VisitorSend.Hook) (w : VisitorSend.World),
        let threadId := default [] (VisitorSend.threadId hook) in
        let w' := VisitorSend.sendInternal localeCompare isPotentialSqlInjection
                    hook host body existingClientId w in
        if VisitorSend.canOwnChat hook && truthyOpt (VisitorSend.threadId hook)
           && truthyOpt (VisitorSend.visitorId hook)
           && VisitorSend.repositoryRefCurrent hook && valid
        then exists rest,
               VisitorSend.trace w'
               = VisitorSend.trace w
                 ++ Send.SetOptimistic threadId
                      (Send.makeOptimisticMessage Visitor clientId threadId
                         (default [] (VisitorSend.visitorId hook))
                         (trim body) (Send.dateNow host) Sending)
                    :: rest
        else w' = w).
Proof.
  intros clientId valid. subst valid.
  destruct (MessageContent.isValid _) eqn:Hvalid.
  - pose proof (validateMessageBody_valid _ _ Hvalid) as Hvalue.
    split; intros hook w threadId w'; subst w'.
    + unfold AgentSend.sendInternal.
      destruct (truthyOpt (AgentSend.threadId hook)); [|done].
      rewrite Hvalid, Hvalue. fold clientId threadId.
      cbn [negb andb].
      destruct (negb (AgentSend.canSendMessages hook)).
      { eexists. simpl. by rewrite <- app_assoc. }
      destruct (Send.repositoryReply host _) as [message|].
      * destruct (AgentSend.gatewayRefCurrent hook);
          [destruct (Send.gatewayReply host)|];
          eexists; simpl; by rewrite <- !app_assoc.
      * eexists. simpl. by rewrite <- !app_assoc.
    + unfold VisitorSend.sendInternal.
      destruct (VisitorSend.canOwnChat hook); [|done].
      destruct (truthyOpt (VisitorSend.threadId hook)); [|done].
      destruct (truthyOpt (VisitorSend.visitorId hook)); [|done].
      destruct (VisitorSend.repositoryRefCurrent hook); [|done].
      rewrite Hvalid, Hvalue. fold clientId threadId.
      cbn [negb andb orb].
      destruct (negb (VisitorSend.canSendMessages hook)).
      { eexists. simpl. by rewrite <- app_assoc. }
      destruct (Send.repositoryReply host _) as [message|].
      * destruct (VisitorSend.gatewayRefCurrent hook);
          [destruct (Send.gatewayReply host)|];
          eexists; simpl; by rewrite <- !app_assoc.
      * eexists. simpl. by rewrite <- !app_assoc.
  - split; intros hook w threadId w'; subst w'; rewrite !andb_false_r.
    + unfold AgentSend.sendInternal. rewrite Hvalid.
      by destruct (negb (truthyOpt _)).
    + unfold VisitorSend.sendInternal. rewrite Hvalid.
      by destruct (_ || _).
Qed.

(** ** stores/agentChatStore.ts: the selection of the active thread *)

Lemma hasThread_first (first : InboxThread.t) (rest : list InboxThread.t) :
  AgentSelection.hasThread (Thread.id (InboxThread.thread first)) (first :: rest) = true.
Proof.
  unfold AgentSelection.hasThread. simpl. by rewrite bool_decide_eq_true_2.
Qed.

(** X29: the active thread follows the inbox. After
    [syncActiveThreadFromInbox] the selection is null exactly when the inbox
    is empty; otherwise it names a thread of the inbox: the previous selection
    when that is a non-empty id still listed, else the first entry. Running
    the action again on the same inbox changes nothing. *)
Theorem syncActiveThreadFromInbox_selects_listed_thread
    (inbox : list InboxThread.t) (activeThreadId : option jsstring) :
  let next := AgentSelection.syncActiveThreadFromInbox inbox activeThreadId in
  (next = None <-> inbox = [])
  /\ (forall threadId, next = Some threadId ->
        AgentSelection.hasThread threadId inbox = true)
  /\ (truthyOpt activeThreadId
      && AgentSelection.hasThread (default [] activeThreadId) inbox = true ->
      next = activeThreadId)
  /\ (inbox <> [] ->
      truthyOpt activeThreadId
      && AgentSelection.hasThread (default [] activeThreadId) inbox = false ->
      next = List.head (List.map (fun item => Thread.id (InboxThread.thread item)) inbox))
  /\ AgentSelection.syncActiveThreadFromInbox inbox next = next.
Proof.
  intros next. subst next. unfold AgentSelection.syncActiveThreadFromInbox.
  destruct inbox as [|first rest].
  - split; [done|]. split; [done|]. split; [|done].
    intros Hkept. destruct activeThreadId as [threadId|]; [|done].
    simpl in Hkept. by rewrite andb_false_r in Hkept.
  - destruct (truthyOpt activeThreadId
              && AgentSelection.hasThread (default [] activeThreadId) (first :: rest))
      eqn:Hkept.
    + apply andb_prop in Hkept as Hboth. destruct Hboth as [Htruthy Hlisted].
      destruct activeThreadId as [active|]; [|done]. simpl in Hlisted.
      split; [done|]. split; [by intros ? [= <-]|]. split; [done|]. split; [done|].
      by rewrite Hkept.
    + split; [split; [by destruct activeThreadId | done]|].
      split; [intros ? [= <-]; apply hasThread_first|].
      split; [done|]. split; [done|].
      by destruct (truthyOpt (Some _) && _).
Qed.

Lemma syncActiveThreadFromInbox_selects_listed_thread_scenario :
  let item id :=
    InboxThread.mk (Thread.mk (lit id) Open 1000 1000) 0 None in
  let inbox := [item "thread-a"; item "thread-b"] in
  AgentSelection.syncActiveThreadFromInbox inbox (Some (lit "thread-b"))
  = Some (lit "thread-b")
  /\ AgentSelection.syncActiveThreadFromInbox inbox (Some (lit "thread-z"))
     = Some (lit "thread-a").
Proof.
  intros item inbox. split.
  - apply (proj1 (proj2 (proj2
             (syncActiveThreadFromInbox_selects_listed_thread inbox
                (Some (lit "thread-b")))))).
    vm_compute. reflexivity.
  - apply (proj1 (proj2 (proj2 (proj2
             (syncActiveThreadFromInbox_selects_listed_thread inbox
                (Some (lit "thread-z"))))))).
    + discriminate.
    + vm_compute. reflexivity.
Defined.
